(** * narest: distribution of missing values in time-indexed tables

    Shallow embedding of [src/narest/narest.py] and verification of its
    specification.

    Modelling conventions.
    - A cell of a float table is a number or the missing marker: [Num q]
      with [q] a rational, or [NaN].  Every arithmetic operation rounds
      its exact result to binary64 precision (53 significant bits, to the
      nearest, ties to even: [binary64]), and [NaN] is absorbing, as in
      IEEE 754 arithmetic on finite values.  The exponent range of
      binary64 is not modelled: there is no overflow to an infinity and no
      underflow.
    - The time index of a table is strictly increasing, so a row is named
      by its rank [0 .. nrows-1]; a label slice [a:b] of [.loc] is the
      inclusive range of ranks between [a] and [b].
    - A pandas Series is the list of its (label, value) pairs; a DataFrame
      is its number of rows and the list of its columns.
    - Python exceptions are values of [exn]; fallible code lives in the
      [result] monad. *)

From Stdlib Require Import String.
From Stdlib Require Import List Arith ZArith QArith Qround Qpower Qabs Qcanon.
From Stdlib Require Import Lia Lqa Bool.
From Stdlib Require Qcabs PrimFloat FloatOps SpecFloat.
Import ListNotations.

Local Open Scope nat_scope.

(** ** Exceptions and the error monad *)

Inductive exn : Type :=
| ValueError
| ZeroDivisionError
| IndexError.

Inductive result (A : Type) : Type :=
| Ok (a : A)
| Raise (e : exn).

Arguments Ok {A} a.
Arguments Raise {A} e.

Definition bind {A B : Type} (r : result A) (k : A -> result B) : result B :=
  match r with
  | Ok a => k a
  | Raise e => Raise e
  end.

Notation "x <- r ;; k" := (bind r (fun x => k))
  (at level 61, r at next level, right associativity).

(** [try: r except IndexError: h] *)
Definition except_IndexError {A : Type} (r : result A) (h : result A) : result A :=
  match r with
  | Raise IndexError => h
  | _ => r
  end.

Fixpoint mapM {A B : Type} (f : A -> result B) (l : list A) : result (list B) :=
  match l with
  | [] => Ok []
  | x :: r =>
      y <- f x ;;
      ys <- mapM f r ;;
      Ok (y :: ys)
  end.

(** ** Binary64 rounding

    numpy and pandas compute on IEEE 754 binary64 numbers: the result of
    an operation is its exact result rounded to 53 significant bits, to the
    nearest such number, and to the one whose last bit is 0 when two are
    as near. *)

(** The integer nearest to [q], the even one of two that are as near. *)
Definition round_half_even (q : Q) : Z :=
  let f := Qfloor q in
  match (q - inject_Z f ?= 1 # 2)%Q with
  | Lt => f
  | Gt => (f + 1)%Z
  | Eq => if Z.even f then f else (f + 1)%Z
  end.

Definition pow2 (e : Z) : Q := (2 ^ e)%Q.

(** The exponent [e] of the last of the 53 significant bits of [x > 0]:
    [2^52 <= x / 2^e < 2^53]. *)
Definition ulp_exponent (x : Q) : Z :=
  let e0 := (Z.log2 (Qnum x) - Z.log2 (Zpos (Qden x)) - 53)%Z in
  if Qle_bool (pow2 (e0 + 53)) x then (e0 + 1)%Z else e0.

Definition round_pos (x : Q) : Q :=
  let e := ulp_exponent x in
  (inject_Z (round_half_even (x / pow2 e)) * pow2 e)%Q.

Definition binary64 (x : Q) : Q :=
  match Qnum x with
  | Z0 => 0%Q
  | Zpos _ => round_pos x
  | Zneg _ => (- round_pos (- x))%Q
  end.

(** ** Cells *)

Inductive cell : Type :=
| NaN
| Num (q : Qc).

Definition Qc_of_Z (z : Z) : Qc := Q2Qc (inject_Z z).
Definition Qc_of_nat (n : nat) : Qc := Qc_of_Z (Z.of_nat n).

(** The binary64 number nearest to [q]. *)
Definition rnd (q : Qc) : Qc := Q2Qc (binary64 q).

Definition isna (c : cell) : bool :=
  match c with NaN => true | Num _ => false end.

Definition notna (c : cell) : bool := negb (isna c).

Definition fadd (x y : cell) : cell :=
  match x, y with
  | Num a, Num b => Num (rnd (a + b))
  | _, _ => NaN
  end.

Definition fsub (x y : cell) : cell :=
  match x, y with
  | Num a, Num b => Num (rnd (a - b))
  | _, _ => NaN
  end.

Definition fmul (x y : cell) : cell :=
  match x, y with
  | Num a, Num b => Num (rnd (a * b))
  | _, _ => NaN
  end.

(** Float division.  numpy answers [nan] for [0/0]; a non-zero numerator
    over zero would be an infinity, which no call below produces (see
    [truediv_count]), and is mapped to [NaN] as well. *)
Definition fdiv (x y : cell) : cell :=
  match x, y with
  | Num a, Num b => if Qc_eq_bool b 0%Qc then NaN else Num (rnd (a / b))
  | _, _ => NaN
  end.

(** [x == 0] and [x >= 0] on floats: a comparison with [nan] is false. *)
Definition eq0 (c : cell) : bool :=
  match c with
  | Num q => Qc_eq_bool q 0%Qc
  | NaN => false
  end.

Definition ge0 (c : cell) : bool :=
  match c with
  | Num q => Qle_bool 0 q
  | NaN => false
  end.

Definition float_of_bool (b : bool) : cell :=
  if b then Num 1%Qc else Num 0%Qc.

(** Integers read as floats.  The integers of this program are numbers of
    rows; below [2^53] they are binary64 numbers. *)
Definition float_of_nat (n : nat) : cell := Num (Qc_of_nat n).
Definition float_of_Z (z : Z) : cell := Num (Qc_of_Z z).

(** ** Python sequences *)

(** [l[i:]] *)
Definition py_slice_from {A : Type} (i : Z) (l : list A) : list A :=
  let n := Z.of_nat (length l) in
  let s := if (i <? 0)%Z then Z.max 0 (n + i) else Z.min i n in
  skipn (Z.to_nat s) l.

(** [l[i]] *)
Definition py_index {A : Type} (l : list A) (i : Z) : result A :=
  let n := Z.of_nat (length l) in
  let k := if (i <? 0)%Z then (n + i)%Z else i in
  if ((0 <=? k) && (k <? n))%Z then
    match nth_error l (Z.to_nat k) with
    | Some x => Ok x
    | None => Raise IndexError
    end
  else Raise IndexError.

(** ** numpy *)

(** [numpy.ones(n)] *)
Definition np_ones (n : Z) : result (list cell) :=
  if (n <? 0)%Z then Raise ValueError
  else Ok (repeat (Num 1%Qc) (Z.to_nat n)).

(** Sum of products, accumulated from 0 and from the first pair to the
    last, each product and each addition rounded, as the scalar loop of
    numpy does.  A kernel that adds in another order may round another
    way: of such a sum the results below state a bound on the rounding
    error, its sign and when it is zero, and no digit beyond. *)
Fixpoint dot_from (acc : cell) (xs ws : list cell) : cell :=
  match xs, ws with
  | x :: xs', w :: ws' => dot_from (fadd acc (fmul x w)) xs' ws'
  | _, _ => acc
  end.

Definition dot (xs ws : list cell) : cell := dot_from (Num 0%Qc) xs ws.

(** [numpy.correlate(a, w, "valid")] for [len(w) <= len(a)]. *)
Definition correlate_valid (a w : list cell) : list cell :=
  map (fun k => dot (skipn k a) w) (seq 0 (length a - length w + 1)).

(** [numpy.convolve(a, v, mode="valid")]: the longer array is taken as the
    signal, an empty array is refused, and the result is the correlation
    with the reversed kernel. *)
Definition np_convolve_valid (a v : list cell) : result (list cell) :=
  let '(a, v) := if length a <? length v then (v, a) else (a, v) in
  match a, v with
  | [], _ => Raise ValueError
  | _, [] => Raise ValueError
  | _, _ => Ok (correlate_valid a (rev v))
  end.

(** ** pandas containers *)

Definition Series : Type := list (nat * cell).

Definition index (s : Series) : list nat := map fst s.
Definition values (s : Series) : list cell := map snd s.

Record Frame (A : Type) : Type := mkFrame {
  nrows : nat;
  columns : list (list A)
}.

Arguments mkFrame {A} nrows columns.
Arguments nrows {A} f.
Arguments columns {A} f.

Definition DataFrame : Type := Frame cell.

Definition frame_index {A : Type} (df : Frame A) : list nat := seq 0 (nrows df).

(** Every column of a frame has one value per row. *)
Definition wf_frame {A : Type} (df : Frame A) : Prop :=
  Forall (fun c => length c = nrows df) (columns df).

(** [df[tick]] *)
Definition column_series (c : list cell) : Series :=
  combine (seq 0 (length c)) c.

(** ** Moving average of a series *)

(** [output.loc[:] = ctmp] on a series with index [idx]. *)
Definition set_all (idx : list nat) (v : list cell) : result Series :=
  if length idx =? length v then Ok (combine idx v) else Raise ValueError.

(** [1 / n] for Python integers. *)
Definition py_inv (n : nat) : result cell :=
  match n with
  | O => Raise ZeroDivisionError
  | _ => Ok (Num (rnd (1 / Qc_of_nat n)))
  end.

Definition rolling_mean_ts (ts : Series) (duration : Z) : result Series :=
  let output_index := py_slice_from (duration - 1) (index ts) in
  convolution_filter <- np_ones duration ;;
  scale <- py_inv (length convolution_filter) ;;
  let convolution_filter := map (fmul scale) convolution_filter in
  ctmp <- np_convolve_valid (values ts) convolution_filter ;;
  set_all output_index ctmp.

(** ** Moving average of a frame *)

Fixpoint map2 {A B C : Type} (f : A -> B -> C) (l : list A) (m : list B) : list C :=
  match l, m with
  | x :: l', y :: m' => f x y :: map2 f l' m'
  | _, _ => []
  end.

Fixpoint set_at (i : nat) (v : cell) (l : list cell) : list cell :=
  match l, i with
  | [], _ => []
  | _ :: r, O => v :: r
  | x :: r, S i' => x :: set_at i' v r
  end.

(** [column.loc[labels] = vals], one (label, value) pair after the other.
    Every label written below is a row of the frame. *)
Definition scatter (kv : list (nat * cell)) (out : list cell) : list cell :=
  fold_left (fun o p => set_at (fst p) (snd p) o) kv out.

(** [DataFrame.apply(f, axis=0)]: a frame with an empty axis is returned
    as a copy and [f] is not called on its columns; otherwise the frame of
    the arrays that [f] returns, one per column. *)
Definition apply_columns (f : list cell -> result (list cell)) (df : DataFrame)
  : result DataFrame :=
  if (nrows df =? 0) || (length (columns df) =? 0) then Ok df
  else
    cs <- mapM f (columns df) ;;
    Ok (mkFrame (length (hd [] cs)) cs).

(** One assignment is left to pandas by the source: a block whose number
    of rows is not the number of selected rows, written through an *empty*
    row selection.  pandas refuses it with a ValueError: the program is
    [EmptySetitemRaises].  The results below are stated for
    [EmptySetitemIgnored] as well, a library that would skip a write
    through an empty selection. *)
Inductive empty_setitem : Type :=
| EmptySetitemIgnored
| EmptySetitemRaises.

Section WithPandas.

Variable pandas : empty_setitem.

(** [output.loc[rows] = block.values]; a table without columns has no
    cell to write and is left as it is. *)
Definition loc_set_rows (rows : list nat) (block output : DataFrame)
  : result DataFrame :=
  if length (columns output) =? 0 then Ok output
  else if length rows =? nrows block then
    Ok (mkFrame (nrows output)
          (map2 (fun v o => scatter (combine rows v) o)
                (columns block) (columns output)))
  else
    match rows, pandas with
    | [], EmptySetitemIgnored => Ok output
    | _, _ => Raise ValueError
    end.

Definition rolling_mean_df (df : DataFrame) (duration : Z) : result DataFrame :=
  let output := mkFrame (nrows df) (map (fun _ => repeat NaN (nrows df)) (columns df)) in
  ones <- np_ones duration ;;
  let kernel := map (fun x => fdiv x (float_of_Z duration)) ones in
  convolued <- apply_columns (fun c => np_convolve_valid c kernel) df ;;
  loc_set_rows (py_slice_from (duration - 1) (frame_index output)) convolued output.

End WithPandas.

(** ** Observed span of a series *)

Definition first_valid_index (s : Series) : option nat :=
  option_map fst (find (fun p => notna (snd p)) s).

Definition last_valid_index (s : Series) : option nat :=
  first_valid_index (rev s).

(** [s[a:b]] with labels: both ends are included, [None] leaves an end
    open. *)
Definition loc_slice (a b : option nat) (s : Series) : Series :=
  filter (fun p =>
            match a with Some a => a <=? fst p | None => true end
            && match b with Some b => fst p <=? b | None => true end) s.

(** [s[s.first_valid_index():s.last_valid_index()]] *)
Definition valid_span (s : Series) : Series :=
  loc_slice (first_valid_index s) (last_valid_index s) s.

(** ** Runs of missing values *)

Fixpoint cumsum_from (acc : nat) (l : list bool) : list nat :=
  match l with
  | [] => []
  | b :: r =>
      let acc' := if b then S acc else acc in
      acc' :: cumsum_from acc' r
  end.

Definition cumsum (l : list bool) : list nat := cumsum_from 0 l.

(** [s[mask]] *)
Definition select {A : Type} (mask : list bool) (l : list A) : list A :=
  map snd (filter fst (combine mask l)).

(** One group of [groupby(...).agg(['first', 'size'])]. *)
Record group : Type := mkGroup {
  g_key : nat;
  g_first : nat;
  g_size : nat
}.

Fixpoint insert_group (k lbl : nat) (gs : list group) : list group :=
  match gs with
  | [] => [mkGroup k lbl 1]
  | g :: r =>
      if k =? g_key g then mkGroup k (g_first g) (S (g_size g)) :: r
      else if k <? g_key g then mkGroup k lbl 1 :: gs
      else g :: insert_group k lbl r
  end.

(** [vals.groupby(keys).agg(['first', 'size'])]: groups in increasing key
    order, each with its first value and its number of values. *)
Definition groupby_first_size (keys vals : list nat) : list group :=
  fold_left (fun gs p => insert_group (fst p) (snd p) gs) (combine keys vals) [].

Definition find_contiguous_nan_column (n : nat) (col : list cell) : list cell :=
  let output := repeat NaN n in
  let dftmp := valid_span (column_series col) in
  let mask := map isna (values dftmp) in
  let dd := groupby_first_size (select mask (cumsum (map negb mask)))
                               (select mask (index dftmp)) in
  scatter (map (fun g => (g_first g, float_of_nat (g_size g))) dd) output.

Definition find_contiguous_nan (df : DataFrame) : DataFrame :=
  mkFrame (nrows df) (map (find_contiguous_nan_column (nrows df)) (columns df)).

(** ** Percentage of missing values *)

Definition count_true (l : list bool) : nat := length (filter (fun b => b) l).

(** [a / b] for two counts: numpy integer division into a float. *)
Definition truediv_count (a b : nat) : cell :=
  fdiv (float_of_nat a) (float_of_nat b).

Definition pc_nan_column (col : list cell) : cell :=
  let stmp := valid_span (column_series col) in
  fmul (truediv_count (count_true (map isna (values stmp))) (length stmp))
       (Num (Qc_of_nat 100)).

Definition pc_nan (df : DataFrame) : list cell :=
  map pc_nan_column (columns df).

(** ** Missing values by sliding window *)

(** [df.isna()], read as floats by numpy. *)
Definition frame_isna (df : DataFrame) : DataFrame :=
  mkFrame (nrows df) (map (map (fun c => float_of_bool (isna c))) (columns df)).

Definition frame_scale (w : Z) (df : DataFrame) : DataFrame :=
  mkFrame (nrows df) (map (map (fun x => fmul x (float_of_Z w))) (columns df)).

(** [output.loc[a:b, tick] = nan] *)
Definition loc_assign_nan (a b : nat) (col : list cell) : list cell :=
  map (fun p => if (a <=? fst p) && (fst p <=? b) then NaN else snd p)
      (column_series col).

(** Body of the loop of [nan_by_window] for one column. *)
Definition mask_outside (w : Z) (idx : list nat) (col out : list cell)
  : result (list cell) :=
  let ts := valid_span (column_series col) in
  except_IndexError
    (i0 <- py_index (index ts) (w - 1) ;;
     i1 <- py_index (index ts) (-1) ;;
     first <- py_index idx 0 ;;
     let out := loc_assign_nan first i0 out in
     last <- py_index idx (-1) ;;
     if i1 <? last then Ok (loc_assign_nan i1 last out) else Ok out)
    (Ok (repeat NaN (length out))).

Section Windows.

Variable pandas : empty_setitem.

Definition nan_by_window (df : DataFrame) (longueur_fenetre : Z) : result DataFrame :=
  output <- rolling_mean_df pandas (frame_isna df) longueur_fenetre ;;
  let output := frame_scale longueur_fenetre output in
  cols <- mapM (fun p => mask_outside longueur_fenetre (frame_index output) (fst p) (snd p))
               (combine (columns df) (columns output)) ;;
  Ok (mkFrame (nrows output) cols).

(** What [nb_valid_windows] returns: a boolean frame or one percentage per
    column. *)
Inductive windows : Type :=
| Mask (m : Frame bool)
| Percent (p : list cell).

Definition nb_valid_windows (df : DataFrame) (longueur_fenetre : Z)
  (modif_output : option string) : result windows :=
  npf <- nan_by_window df longueur_fenetre ;;
  match modif_output with
  | Some m =>
      if String.eqb m "pc" then
        Ok (Percent (map (fun c => fmul (truediv_count (count_true (map eq0 c))
                                                       (count_true (map ge0 c)))
                                        (Num (Qc_of_nat 100)))
                         (columns npf)))
      else Raise ValueError
  | None => Ok (Mask (mkFrame (nrows npf) (map (map eq0) (columns npf))))
  end.

End Windows.

(** ** Repeated values *)

(** [column.shift(1)] *)
Definition shift1 (col : list cell) : list cell :=
  match col with
  | [] => []
  | _ => NaN :: removelast col
  end.

Definition find_ffill_nan_column (col : list cell) : list bool :=
  let diff := map2 fsub col (shift1 col) in
  map eq0 diff.

Definition find_ffill_nan (df : DataFrame) : Frame bool :=
  mkFrame (nrows df) (map find_ffill_nan_column (columns df)).

(** * Specification

    Definitions that follow the words of the specification, and the
    auxiliary functions the proofs relate the code to. *)

(** Length of the run of missing values at the head of a list. *)
Fixpoint nan_prefix_length (l : list cell) : nat :=
  match l with
  | NaN :: r => S (nan_prefix_length r)
  | _ => 0
  end.

Fixpoint drop_na (l : list cell) : list cell :=
  match l with
  | NaN :: r => drop_na r
  | _ => l
  end.

(** ObservedSpan: the values from the first to the last non-missing value
    of a column, both included; empty when the column has none. *)
Definition observed_span (col : list cell) : list cell :=
  rev (drop_na (rev (drop_na col))).

Definition span_start (col : list cell) : nat := nan_prefix_length col.

Definition in_observed_span (col : list cell) (p : nat) : bool :=
  (span_start col <=? p) && (p <? span_start col + length (observed_span col)).

Definition count_missing (l : list cell) : nat := length (filter isna l).

(** Row [p] starts a maximal run of missing values: it is missing and the
    row before it, if any, is not. *)
Definition starts_run (col : list cell) (p : nat) : bool :=
  isna (nth p col (Num 0%Qc))
  && match p with
     | O => true
     | S q => notna (nth q col NaN)
     end.

(** Number of consecutive missing values from row [p] on. *)
Definition run_length (col : list cell) (p : nat) : nat :=
  nan_prefix_length (skipn p col).

(** GapRunEncoder, cell by cell. *)
Definition gap_run_spec (col : list cell) (p : nat) : cell :=
  if in_observed_span col p && starts_run col p
  then float_of_nat (run_length col p)
  else NaN.

(** Sum of the run lengths recorded in an output column. *)
Fixpoint recorded_total (out : list cell) : Qc :=
  match out with
  | [] => 0%Qc
  | NaN :: r => recorded_total r
  | Num q :: r => (q + recorded_total r)%Qc
  end.

(** Labels [k, k+1, ...] attached to the values of a list. *)
Definition labelled (k : nat) (l : list cell) : Series :=
  combine (seq k (length l)) l.

(** The (key, label) pairs that [find_contiguous_nan] groups: one per
    missing value, keyed by the number of values seen before it. *)
Fixpoint nan_pairs (c lbl : nat) (vs : list cell) : list (nat * nat) :=
  match vs with
  | [] => []
  | v :: r =>
      if isna v then (c, lbl) :: nan_pairs c (S lbl) r
      else nan_pairs (S c) (S lbl) r
  end.

(** Run-length encoding in one pass: a group at the first row of each run,
    none for the rows that continue a run ([prev_na]). *)
Fixpoint run_groups (prev_na : bool) (c lbl : nat) (vs : list cell) : list group :=
  match vs with
  | [] => []
  | v :: r =>
      if isna v then
        if prev_na then run_groups true c (S lbl) r
        else mkGroup c lbl (S (nan_prefix_length r)) :: run_groups true c (S lbl) r
      else run_groups false (S c) (S lbl) r
  end.

(** The same encoding as a column of cells. *)
Fixpoint run_cells (prev_na : bool) (vs : list cell) : list cell :=
  match vs with
  | [] => []
  | v :: r =>
      (if isna v && negb prev_na
       then float_of_nat (S (nan_prefix_length r))
       else NaN) :: run_cells (isna v) r
  end.

Definition cell_eqb (x y : cell) : bool :=
  match x, y with
  | NaN, NaN => true
  | Num a, Num b => Qeq_bool a b
  | _, _ => false
  end.

Fixpoint cells_eqb (l m : list cell) : bool :=
  match l, m with
  | [], [] => true
  | x :: l', y :: m' => cell_eqb x y && cells_eqb l' m'
  | _, _ => false
  end.


(** [col] is [a] missing values, then the span [vs], which starts and ends
    with an observed value, then [c] missing values. *)
Definition span_decomp (col : list cell) (a : nat) (vs : list cell) (c : nat) : Prop :=
  col = repeat NaN a ++ vs ++ repeat NaN c
  /\ (exists x r, vs = x :: r /\ isna x = false)
  /\ (exists l y, vs = l ++ [y] /\ isna y = false).


(** MissingPercentage: missing entries of the ObservedSpan over its length,
    times 100. *)
Definition missing_percentage (col : list cell) : Qc :=
  (Qc_of_nat (count_missing (observed_span col))
   / Qc_of_nat (length (observed_span col)) * Qc_of_nat 100)%Qc.

(** The table of the docstring of [find_contiguous_nan]. *)
Definition hundredth (num : Z) : cell := Num (Q2Qc (Qmake num 100)).

Definition docstring_c1 : list cell :=
  [hundredth 81; hundredth 177; hundredth (-50); NaN; NaN;
   hundredth (-117); NaN; hundredth (-93); hundredth 158; hundredth (-13)]%Z.

Definition docstring_c2 : list cell :=
  [NaN; NaN; NaN; hundredth 1; hundredth (-106);
   hundredth 62; hundredth 55; hundredth (-54); NaN; hundredth 111]%Z.

Definition docstring_frame : DataFrame :=
  mkFrame 10 [docstring_c1; docstring_c2].

(** MovingAverage: the arithmetic mean of the [w] values from position [i]
    on. *)
Fixpoint Qc_sum (l : list Qc) : Qc :=
  match l with
  | [] => 0%Qc
  | x :: r => (x + Qc_sum r)%Qc
  end.

Definition arithmetic_mean (l : list Qc) : Qc :=
  (Qc_sum l / Qc_of_nat (length l))%Qc.

Definition window {A : Type} (i w : nat) (l : list A) : list A :=
  firstn w (skipn i l).



(** WindowedMissingCounter, cell by cell: the number of missing values of
    the [w] rows ending at row [p] where this window lies within the
    ObservedSpan, that is from the [w]-th row of the span to its last row;
    the missing marker elsewhere. *)
Definition window_count_spec (w : nat) (col : list cell) (p : nat) : cell :=
  if (span_start col + w - 1 <=? p)
     && (p <? span_start col + length (observed_span col))
  then float_of_nat (count_missing (window (p + 1 - w) w col))
  else NaN.

(** The column that [rolling_mean_df (df.isna(), w) * w] computes when the
    window fits in the table. *)
Definition scaled_counts (w : nat) (col : list cell) : list cell :=
  map (fun x => fmul x (float_of_Z (Z.of_nat w)))
      (repeat NaN (w - 1)
       ++ correlate_valid (map (fun c => float_of_bool (isna c)) col)
                          (repeat (Num (rnd (1 / Qc_of_nat w))) w)).

(** The column that [nan_by_window] returns for [col] in a table of [n]
    rows when the window fits in the table. *)
Definition window_column (w n : nat) (col : list cell) : list cell :=
  match mask_outside (Z.of_nat w) (seq 0 n) col (scaled_counts w col) with
  | Ok o => o
  | Raise _ => []
  end.


Fixpoint columns_eqb (l m : list (list cell)) : bool :=
  match l, m with
  | [], [] => true
  | x :: l', y :: m' => cells_eqb x y && columns_eqb l' m'
  | _, _ => false
  end.

Definition returns_frame (r : result DataFrame) (n : nat) (cs : list (list cell)) : bool :=
  match r with
  | Ok f => (nrows f =? n) && columns_eqb (columns f) cs
  | Raise _ => false
  end.



(** WindowValidity: the windows of a column of counts whose count is zero,
    those whose count is defined and not negative, and the percentage of
    the former among the latter. *)
Definition zero_windows (c : list cell) : nat :=
  length (filter (cell_eqb (Num 0%Qc)) c).

Definition evaluated_windows (c : list cell) : nat :=
  length (filter (fun x => match x with
                           | Num q => Qle_bool 0 q
                           | NaN => false
                           end) c).

Definition valid_percentage (c : list cell) : cell :=
  match evaluated_windows c with
  | O => NaN
  | S _ => Num (Qc_of_nat 100 * Qc_of_nat (zero_windows c)
                / Qc_of_nat (evaluated_windows c))%Qc
  end.


(** RepeatDetector, cell by cell: row [t] has a predecessor and both hold
    the same number. *)
Definition same_as_previous (col : list cell) (t : nat) : Prop :=
  exists q t', t = S t' /\ nth t col NaN = Num q /\ nth t' col NaN = Num q.


(** The indicator of a missing value, as numpy reads [df.isna()]. *)
Definition indicator (c : cell) : Qc := if isna c then 1%Qc else 0%Qc.

(** The rows at which [nan_by_window] keeps a count, for a window of [w]
    rows on a column whose observed span is long enough: strictly after
    the [w]-th row of the span, and strictly before its last row unless
    that row is the last row of the table. *)
Definition keeps_count (w : nat) (col : list cell) (p : nat) : bool :=
  (span_start col + w - 1 <? p)
  && ((p <? span_start col + length (observed_span col) - 1)
      || (span_start col + length (observed_span col) =? length col)).


(** A run length read back from a cell, and the missing values that a
    column of recorded runs stands for: a recorded length [n] marks its own
    row and the [n-1] rows after it. *)
Definition Qc_to_nat (q : Qc) : nat := Z.to_nat (Qnum (this q)).

Fixpoint decode_runs (rest : nat) (out : list cell) : list bool :=
  match out with
  | [] => []
  | Num q :: r => true :: decode_runs (Qc_to_nat q - 1) r
  | NaN :: r =>
      match rest with
      | O => false :: decode_runs 0 r
      | S k => true :: decode_runs k r
      end
  end.


(** The numbers of a list of cells, when none is the missing marker. *)
Fixpoint numbers (l : list cell) : option (list Qc) :=
  match l with
  | [] => Some []
  | NaN :: _ => None
  | Num q :: r => option_map (cons q) (numbers r)
  end.



(** ** Rounding errors *)

Definition two52 : Q := inject_Z (2 ^ 52).
Definition two53 : Q := inject_Z (2 ^ 53).

(** Half a unit in the last place of 1: the largest relative error of one
    rounding. *)
Definition unit_roundoff : Q := 1 # (2 ^ 53).

(** The largest relative error of a result that went through [n]
    roundings: [(1 + 2^-53)^n - 1]. *)
Definition rounding_bound (n : nat) : Qc := ((1 + Q2Qc unit_roundoff) ^ n - 1)%Qc.

(** [v] is the quantity [x], of magnitude [a], within [n] roundings. *)
Definition within_rounding (n : nat) (v x a : Qc) : Prop :=
  (x - rounding_bound n * a <= v)%Qc /\ (v <= x + rounding_bound n * a)%Qc.

(** What [dot] accumulates on numbers with the constant weight [k]. *)
Fixpoint rounded_sum (k acc : Qc) (qs : list Qc) : Qc :=
  match qs with
  | [] => acc
  | q :: r => rounded_sum k (rnd (acc + rnd (q * k))) r
  end.

(** What [rolling_mean_df (df.isna(), w) * w] holds for the window [win] of
    [w] rows: the indicators of its missing values, each times [1/w],
    added up and multiplied by [w]. *)
Definition rounded_count (w : nat) (win : list cell) : Qc :=
  rnd (rounded_sum (rnd (1 / Qc_of_nat w)) 0%Qc (map indicator win) * Qc_of_nat w).

(** What the moving average of width [w] holds for a window of cells: the
    missing marker as soon as one of them is missing. *)
Definition rounded_mean (w : nat) (l : list cell) : cell :=
  match numbers l with
  | Some qs => Num (rounded_sum (rnd (1 / Qc_of_nat w)) 0%Qc qs)
  | None => NaN
  end.

(** A percentage as the code evaluates it: the quotient of the two counts,
    then its product by 100. *)
Definition rounded_percentage (a b : nat) : Qc :=
  rnd (rnd (Qc_of_nat a / Qc_of_nat b) * Qc_of_nat 100).

Definition Qc_abs (q : Qc) : Qc := Qcabs.Qcabs q.

(** Mean of the absolute values: the magnitude of the terms of a mean. *)
Definition mean_abs (l : list Qc) : Qc := arithmetic_mean (map Qc_abs l).

(** ** Primitive floats

    Rocq's primitive floats are the binary64 numbers of IEEE 754, with the
    arithmetic of the processor.  [binary64_samples] pairs operations on
    them with the same operations on cells. *)

(** The value of a finite primitive float. *)
Definition float_value (x : PrimFloat.float) : option Q :=
  match FloatOps.Prim2SF x with
  | SpecFloat.S754_zero _ => Some 0%Q
  | SpecFloat.S754_finite s m e =>
      Some (inject_Z (if s then Z.neg m else Z.pos m) * pow2 e)%Q
  | _ => None
  end.

Definition same_value (x : PrimFloat.float) (c : cell) : bool :=
  match c, float_value x with
  | Num q, Some v => Qeq_bool v q
  | NaN, None => PrimFloat.is_nan x
  | _, _ => false
  end.

Section PrimitiveFloats.

Import PrimFloat.

Let n (k : nat) : cell := float_of_nat k.

Fixpoint float_sum (k : nat) (acc t : float) : float :=
  match k with
  | O => acc
  | S k' => float_sum k' (acc + t)%float t
  end.

Definition binary64_samples : list (float * cell) :=
  [ (1 / 7, fdiv (n 1) (n 7));
    (1 / 7 * 100, fmul (fdiv (n 1) (n 7)) (n 100));
    (2 / 3 * 100, fmul (fdiv (n 2) (n 3)) (n 100));
    (200 / 3, fdiv (n 200) (n 3));
    (3 / 10 * 100, fmul (fdiv (n 3) (n 10)) (n 100));
    (0 / 0 * 100, fmul (fdiv (n 0) (n 0)) (n 100));
    (1 / 1 * 1, fmul (fdiv (n 1) (n 1)) (n 1));
    (float_sum 10 0 (1 * (1 / 10)),
     dot (repeat (n 1) 10) (repeat (fdiv (n 1) (n 10)) 10));
    (float_sum 10 0 (1 * (1 / 10)) * 10,
     fmul (dot (repeat (n 1) 10) (repeat (fdiv (n 1) (n 10)) 10)) (n 10));
    (float_sum 6 0 (1 * (1 / 6)) * 6,
     fmul (dot (repeat (n 1) 6) (repeat (fdiv (n 1) (n 6)) 6)) (n 6));
    (0 + (1 + 1 / 4503599627370496) * (1 / 2) + 1 * (1 / 2),
     dot [fadd (n 1) (fdiv (n 1) (float_of_Z 4503599627370496)); n 1]
         (repeat (fdiv (n 1) (n 2)) 2));
    (0 + 1 / 10 * (1 / 2) + 2 / 10 * (1 / 2),
     dot [fdiv (n 1) (n 10); fdiv (n 2) (n 10)] (repeat (fdiv (n 1) (n 2)) 2));
    (1 / 3 - 1 / 3, fsub (fdiv (n 1) (n 3)) (fdiv (n 1) (n 3)));
    (1 / 3 - 1 / 7, fsub (fdiv (n 1) (n 3)) (fdiv (n 1) (n 7))) ]%float.

End PrimitiveFloats.


(** * Verification *)

(** ** Binary64 rounding *)

Lemma pow2_pos (e : Z) : (0 < pow2 e)%Q.
Proof. apply Qpower_0_lt. reflexivity. Qed.

Lemma pow2_add (a b : Z) : (pow2 (a + b) == pow2 a * pow2 b)%Q.
Proof. apply Qpower_plus. discriminate. Qed.

Lemma pow2_le (a b : Z) : (a <= b)%Z -> (pow2 a <= pow2 b)%Q.
Proof. intros H. apply Qpower_le_compat_l; [exact H | discriminate]. Qed.

Lemma pow2_nonneg (k : Z) : (0 <= k)%Z -> (pow2 k == inject_Z (2 ^ k))%Q.
Proof. intros H. unfold pow2. now rewrite Zpower_Qpower. Qed.

Lemma floor_bounds (q : Q) :
  (inject_Z (Qfloor q) <= q)%Q /\ (q < inject_Z (Qfloor q) + 1)%Q.
Proof.
  split; [apply Qfloor_le|].
  pose proof (Qlt_floor q) as H. rewrite inject_Z_plus in H. exact H.
Qed.

Lemma round_half_even_close (q : Q) :
  (q - (1 # 2) <= inject_Z (round_half_even q))%Q
  /\ (inject_Z (round_half_even q) <= q + (1 # 2))%Q.
Proof.
  unfold round_half_even. destruct (floor_bounds q) as [H1 H2].
  remember (Qfloor q) as f eqn:Ef. clear Ef.
  destruct (Qcompare_spec (q - inject_Z f) (1 # 2)) as [E|E|E];
    [destruct (Z.even f)| |]; rewrite ?inject_Z_plus; change (inject_Z 1) with 1%Q;
    split; lra.
Qed.

Lemma round_half_even_Z (k : Z) : round_half_even (inject_Z k) = k.
Proof.
  unfold round_half_even. rewrite Qfloor_Z.
  assert (E : (inject_Z k - inject_Z k ?= 1 # 2)%Q = Lt).
  { apply Qlt_alt. setoid_replace (inject_Z k - inject_Z k)%Q with 0%Q by ring.
    reflexivity. }
  now rewrite E.
Qed.

Lemma round_half_even_comp (q r : Q) : (q == r)%Q -> round_half_even q = round_half_even r.
Proof.
  intros E. unfold round_half_even. rewrite (Qfloor_comp _ _ E).
  assert (E' : (q - inject_Z (Qfloor r) == r - inject_Z (Qfloor r))%Q) by now rewrite E.
  now rewrite (Qcompare_comp _ _ E' _ _ (Qeq_refl _)).
Qed.

Lemma round_half_even_mono (q r : Q) :
  (q <= r)%Q -> (round_half_even q <= round_half_even r)%Z.
Proof.
  intros H. pose proof (Qfloor_resp_le _ _ H) as Hf.
  destruct (floor_bounds q) as [Hq1 Hq2]. destruct (floor_bounds r) as [Hr1 Hr2].
  unfold round_half_even.
  remember (Qfloor q) as f eqn:Ef. remember (Qfloor r) as g eqn:Eg. clear Ef Eg.
  destruct (Z.eq_dec f g) as [E|N].
  - subst g.
    destruct (Qcompare_spec (q - inject_Z f) (1 # 2)) as [E1|E1|E1];
      destruct (Qcompare_spec (r - inject_Z f) (1 # 2)) as [E2|E2|E2];
      try destruct (Z.even f); try lia; exfalso; lra.
  - assert (f + 1 <= g)%Z by lia.
    destruct (Qcompare_spec (q - inject_Z f) (1 # 2)) as [E1|E1|E1];
      destruct (Qcompare_spec (r - inject_Z g) (1 # 2)) as [E2|E2|E2];
      try destruct (Z.even f); try destruct (Z.even g); lia.
Qed.

Lemma Qdiv_le_cross (a b c d : Q) :
  (0 < b)%Q -> (0 < d)%Q -> (a * d <= c * b)%Q -> (a / b <= c / d)%Q.
Proof.
  intros Hb Hd H. apply Qle_shift_div_r; [exact Hb|].
  setoid_replace (c / d * b)%Q with (c * b / d)%Q by (field; lra).
  apply Qle_shift_div_l; assumption.
Qed.

Lemma Qdiv_lt_cross (a b c d : Q) :
  (0 < b)%Q -> (0 < d)%Q -> (a * d < c * b)%Q -> (a / b < c / d)%Q.
Proof.
  intros Hb Hd H. apply Qlt_shift_div_r; [exact Hb|].
  setoid_replace (c / d * b)%Q with (c * b / d)%Q by (field; lra).
  apply Qlt_shift_div_l; assumption.
Qed.

Lemma inject_Z_pos (z : Z) : (0 < z)%Z -> (0 < inject_Z z)%Q.
Proof. intros H. change 0%Q with (inject_Z 0). now rewrite <- Zlt_Qlt. Qed.

Lemma pow2_sub (a b : Z) :
  (0 <= a)%Z -> (0 <= b)%Z -> (pow2 (a - b) == inject_Z (2 ^ a) / inject_Z (2 ^ b))%Q.
Proof.
  intros Ha Hb. unfold pow2. rewrite Qpower_minus by discriminate.
  rewrite !Zpower_Qpower by assumption. reflexivity.
Qed.

Lemma ulp_exponent_spec (x : Q) :
  (0 < x)%Q ->
  (pow2 (ulp_exponent x + 52) <= x)%Q /\ (x < pow2 (ulp_exponent x + 53))%Q.
Proof.
  intros Hx. destruct x as [n d].
  assert (Hn : (0 < n)%Z).
  { unfold Qlt in Hx. simpl in Hx. lia. }
  unfold ulp_exponent. cbn [Qnum Qden].
  pose proof (Z.log2_spec n Hn) as [Ha1 Ha2].
  pose proof (Z.log2_spec (Z.pos d) (Pos2Z.is_pos d)) as [Hb1 Hb2].
  pose proof (Z.log2_nonneg n) as Ha0.
  pose proof (Z.log2_nonneg (Z.pos d)) as Hb0.
  remember (Z.log2 n) as a eqn:Ea. remember (Z.log2 (Z.pos d)) as b eqn:Eb.
  clear Ea Eb.
  assert (Hpa : (0 < 2 ^ a)%Z) by (apply Z.pow_pos_nonneg; lia).
  assert (Hpb : (0 < 2 ^ b)%Z) by (apply Z.pow_pos_nonneg; lia).
  assert (Hlo : (pow2 (a - b - 53 + 52) <= n # d)%Q).
  { replace (a - b - 53 + 52)%Z with (a - Z.succ b)%Z by lia.
    rewrite pow2_sub by lia. rewrite (Qmake_Qdiv n d).
    apply Qdiv_le_cross; [apply inject_Z_pos; lia | apply inject_Z_pos; lia|].
    rewrite <- !inject_Z_mult, <- Zle_Qle. nia. }
  assert (Hhi : (n # d < pow2 (a - b - 53 + 1 + 53))%Q).
  { replace (a - b - 53 + 1 + 53)%Z with (Z.succ a - b)%Z by lia.
    rewrite pow2_sub by lia. rewrite (Qmake_Qdiv n d).
    apply Qdiv_lt_cross; [apply inject_Z_pos; lia | apply inject_Z_pos; lia|].
    rewrite <- !inject_Z_mult, <- Zlt_Qlt. nia. }
  destruct (Qle_bool (pow2 (a - b - 53 + 53)) (n # d)) eqn:E.
  - apply Qle_bool_iff in E. split; [|exact Hhi].
    now replace (a - b - 53 + 1 + 52)%Z with (a - b - 53 + 53)%Z by lia.
  - split; [exact Hlo|].
    apply Qnot_le_lt. intros H. apply Qle_bool_iff in H. congruence.
Qed.

Lemma ulp_exponent_unique (x : Q) (e : Z) :
  (pow2 (e + 52) <= x)%Q -> (x < pow2 (e + 53))%Q -> ulp_exponent x = e.
Proof.
  intros H1 H2.
  assert (Hx : (0 < x)%Q) by (pose proof (pow2_pos (e + 52)); lra).
  destruct (ulp_exponent_spec x Hx) as [H3 H4].
  remember (ulp_exponent x) as e' eqn:E. clear E.
  destruct (Z.lt_trichotomy e e') as [L|[L|L]]; [|now symmetry|].
  - pose proof (pow2_le (e + 53) (e' + 52) ltac:(lia)). lra.
  - pose proof (pow2_le (e' + 53) (e + 52) ltac:(lia)). lra.
Qed.

Lemma ulp_exponent_comp (x y : Q) : (0 < x)%Q -> (x == y)%Q -> ulp_exponent x = ulp_exponent y.
Proof.
  intros Hx E. destruct (ulp_exponent_spec x Hx) as [H1 H2].
  symmetry. apply ulp_exponent_unique; rewrite <- E; assumption.
Qed.

Lemma ulp_exponent_mono (x y : Q) :
  (0 < x)%Q -> (x <= y)%Q -> (ulp_exponent x <= ulp_exponent y)%Z.
Proof.
  intros Hx H. destruct (ulp_exponent_spec x Hx) as [H1 H2].
  destruct (ulp_exponent_spec y ltac:(lra)) as [H3 H4].
  destruct (Z_le_gt_dec (ulp_exponent x) (ulp_exponent y)) as [L|L]; [exact L|].
  pose proof (pow2_le (ulp_exponent y + 53) (ulp_exponent x + 52) ltac:(lia)). lra.
Qed.


Lemma pow2_52 (e : Z) : (pow2 (e + 52) == two52 * pow2 e)%Q.
Proof. rewrite pow2_add, (pow2_nonneg 52) by lia. unfold two52. ring. Qed.

Lemma pow2_53 (e : Z) : (pow2 (e + 53) == two53 * pow2 e)%Q.
Proof. rewrite pow2_add, (pow2_nonneg 53) by lia. unfold two53. ring. Qed.

Lemma scaled_bounds (x : Q) :
  (0 < x)%Q ->
  let s := (x / pow2 (ulp_exponent x))%Q in
  (two52 <= s)%Q /\ (s < two53)%Q
  /\ (2 ^ 52 <= round_half_even s <= 2 ^ 53)%Z.
Proof.
  intros Hx s. destruct (ulp_exponent_spec x Hx) as [H1 H2].
  rewrite pow2_52 in H1. rewrite pow2_53 in H2.
  pose proof (pow2_pos (ulp_exponent x)) as HP.
  assert (S1 : (two52 <= s)%Q) by (apply Qle_shift_div_l; assumption).
  assert (S2 : (s < two53)%Q) by (apply Qlt_shift_div_r; assumption).
  split; [exact S1|]. split; [exact S2|].
  rewrite <- (round_half_even_Z (2 ^ 52)), <- (round_half_even_Z (2 ^ 53)).
  split; apply round_half_even_mono; [exact S1 | apply Qlt_le_weak, S2].
Qed.

Lemma round_pos_range (x : Q) :
  (0 < x)%Q ->
  (pow2 (ulp_exponent x + 52) <= round_pos x)%Q
  /\ (round_pos x <= pow2 (ulp_exponent x + 53))%Q.
Proof.
  intros Hx. destruct (scaled_bounds x Hx) as (_ & _ & M1 & M2).
  unfold round_pos. rewrite pow2_52, pow2_53.
  pose proof (pow2_pos (ulp_exponent x)) as HP.
  split; apply Qmult_le_compat_r; try lra; unfold two52, two53; now rewrite <- Zle_Qle.
Qed.

Lemma round_pos_pos (x : Q) : (0 < x)%Q -> (0 < round_pos x)%Q.
Proof.
  intros Hx. destruct (round_pos_range x Hx) as [H _].
  pose proof (pow2_pos (ulp_exponent x + 52)). lra.
Qed.

Lemma round_pos_close (x : Q) :
  (0 < x)%Q ->
  (x - (1 # 2) * pow2 (ulp_exponent x) <= round_pos x)%Q
  /\ (round_pos x <= x + (1 # 2) * pow2 (ulp_exponent x))%Q.
Proof.
  intros Hx. unfold round_pos.
  pose proof (pow2_pos (ulp_exponent x)) as HP.
  remember (pow2 (ulp_exponent x)) as P eqn:EP. clear EP.
  destruct (round_half_even_close (x / P)) as [C1 C2].
  remember (inject_Z (round_half_even (x / P))) as m eqn:Em. clear Em.
  assert (E : (x == x / P * P)%Q) by (field; lra).
  assert (D1 : ((x / P - (1 # 2)) * P <= m * P)%Q) by (apply Qmult_le_compat_r; lra).
  assert (D2 : (m * P <= (x / P + (1 # 2)) * P)%Q) by (apply Qmult_le_compat_r; lra).
  remember (x / P)%Q as s eqn:Es. clear Es.
  split; rewrite E at 1; lra.
Qed.


Lemma round_pos_error (x : Q) :
  (0 < x)%Q ->
  (x - unit_roundoff * x <= round_pos x)%Q /\ (round_pos x <= x + unit_roundoff * x)%Q.
Proof.
  intros Hx. destruct (round_pos_close x Hx) as [C1 C2].
  destruct (ulp_exponent_spec x Hx) as [H1 _]. rewrite pow2_52 in H1.
  pose proof (pow2_pos (ulp_exponent x)) as HP.
  remember (pow2 (ulp_exponent x)) as P eqn:EP. clear EP.
  unfold two52 in H1. unfold unit_roundoff.
  change (inject_Z (2 ^ 52)) with (4503599627370496 # 1)%Q in H1.
  change (1 # 2 ^ 53)%Q with (1 # 9007199254740992)%Q.
  split; lra.
Qed.

Lemma round_pos_comp (x y : Q) : (0 < x)%Q -> (x == y)%Q -> (round_pos x == round_pos y)%Q.
Proof.
  intros Hx E. unfold round_pos. rewrite <- (ulp_exponent_comp x y Hx E).
  assert (E' : (x / pow2 (ulp_exponent x) == y / pow2 (ulp_exponent x))%Q)
    by (apply Qmult_comp; [exact E | reflexivity]).
  now rewrite (round_half_even_comp _ _ E').
Qed.

Lemma round_pos_mono (x y : Q) :
  (0 < x)%Q -> (x <= y)%Q -> (round_pos x <= round_pos y)%Q.
Proof.
  intros Hx H. assert (Hy : (0 < y)%Q) by lra.
  pose proof (ulp_exponent_mono x y Hx H) as He.
  destruct (Z.eq_dec (ulp_exponent x) (ulp_exponent y)) as [E|N].
  - unfold round_pos. rewrite <- E.
    pose proof (pow2_pos (ulp_exponent x)) as HP.
    apply Qmult_le_compat_r; [|lra].
    rewrite <- Zle_Qle. apply round_half_even_mono.
    apply Qmult_le_compat_r; [exact H|]. apply Qlt_le_weak, Qinv_lt_0_compat, HP.
  - destruct (round_pos_range x Hx) as [_ R1]. destruct (round_pos_range y Hy) as [R2 _].
    pose proof (pow2_le (ulp_exponent x + 53) (ulp_exponent y + 52) ltac:(lia)). lra.
Qed.

Lemma round_pos_idem (x : Q) :
  (0 < x)%Q -> (round_pos (round_pos x) == round_pos x)%Q.
Proof.
  intros Hx. destruct (scaled_bounds x Hx) as (_ & _ & M1 & M2).
  pose proof (pow2_pos (ulp_exponent x)) as HP.
  pose proof (round_pos_pos x Hx) as Hr.
  destruct (round_pos_range x Hx) as [R1 R2].
  destruct (Z.eq_dec (round_half_even (x / pow2 (ulp_exponent x))) (2 ^ 53)) as [E|N].
  - assert (Er : (round_pos x == pow2 (ulp_exponent x + 1 + 52))%Q).
    { unfold round_pos. rewrite E. fold two53. rewrite <- pow2_53.
      now replace (ulp_exponent x + 1 + 52)%Z with (ulp_exponent x + 53)%Z by lia. }
    assert (Ee : ulp_exponent (round_pos x) = (ulp_exponent x + 1)%Z).
    { apply ulp_exponent_unique; rewrite Er; [apply Qle_refl|].
      rewrite (pow2_52 (ulp_exponent x + 1)).
      rewrite (pow2_53 (ulp_exponent x + 1)).
      pose proof (pow2_pos (ulp_exponent x + 1)).
      apply Qmult_lt_compat_r; [assumption|]. unfold two52, two53.
      rewrite <- Zlt_Qlt. lia. }
    unfold round_pos at 1. rewrite Ee.
    assert (Es : (round_pos x / pow2 (ulp_exponent x + 1) == inject_Z (2 ^ 52))%Q).
    { rewrite Er, pow2_52. unfold two52.
      pose proof (pow2_pos (ulp_exponent x + 1)). field. lra. }
    rewrite (round_half_even_comp _ _ Es), round_half_even_Z.
    fold two52. rewrite <- pow2_52. now rewrite Er.
  - assert (Ee : ulp_exponent (round_pos x) = ulp_exponent x).
    { apply ulp_exponent_unique; [exact R1|].
      unfold round_pos. rewrite pow2_53.
      apply Qmult_lt_compat_r; [assumption|]. unfold two53.
      rewrite <- Zlt_Qlt. lia. }
    unfold round_pos at 1. rewrite Ee.
    assert (Es : (round_pos x / pow2 (ulp_exponent x)
                  == inject_Z (round_half_even (x / pow2 (ulp_exponent x))))%Q).
    { unfold round_pos. field. lra. }
    rewrite (round_half_even_comp _ _ Es), round_half_even_Z. reflexivity.
Qed.

(** Sign cases of [binary64]. *)
Lemma binary64_pos (x : Q) : (0 < x)%Q -> binary64 x = round_pos x.
Proof.
  destruct x as [[|n|n] d]; unfold Qlt; simpl; intros H; try lia. reflexivity.
Qed.

Lemma binary64_neg (x : Q) : (x < 0)%Q -> binary64 x = (- round_pos (- x))%Q.
Proof.
  destruct x as [[|n|n] d]; unfold Qlt; simpl; intros H; try lia. reflexivity.
Qed.

Lemma binary64_zero (x : Q) : (x == 0)%Q -> binary64 x = 0%Q.
Proof.
  destruct x as [[|n|n] d]; unfold Qeq; simpl; intros H; try lia. reflexivity.
Qed.

Lemma Q_sign_cases (x : Q) : (x < 0)%Q \/ (x == 0)%Q \/ (0 < x)%Q.
Proof.
  destruct (Q_dec x 0) as [[H|H]|H]; auto.
Qed.

Lemma binary64_comp (x y : Q) : (x == y)%Q -> (binary64 x == binary64 y)%Q.
Proof.
  intros E. destruct (Q_sign_cases x) as [H|[H|H]].
  - rewrite (binary64_neg x H), (binary64_neg y) by lra.
    apply Qopp_comp, round_pos_comp; lra.
  - rewrite (binary64_zero x H), (binary64_zero y) by lra. reflexivity.
  - rewrite (binary64_pos x H), (binary64_pos y) by lra.
    now apply round_pos_comp.
Qed.

Lemma binary64_opp (x : Q) : (binary64 (- x) == - binary64 x)%Q.
Proof.
  destruct (Q_sign_cases x) as [H|[H|H]].
  - rewrite (binary64_neg x H), (binary64_pos (- x)) by lra. ring.
  - rewrite (binary64_zero x H), (binary64_zero (- x)) by lra. reflexivity.
  - rewrite (binary64_pos x H), (binary64_neg (- x)) by lra.
    apply Qopp_comp, round_pos_comp; [lra | ring].
Qed.

Lemma binary64_pos_lt (x : Q) : (0 < x)%Q -> (0 < binary64 x)%Q.
Proof. intros H. rewrite (binary64_pos x H). now apply round_pos_pos. Qed.

Lemma binary64_neg_lt (x : Q) : (x < 0)%Q -> (binary64 x < 0)%Q.
Proof.
  intros H. rewrite (binary64_neg x H).
  pose proof (round_pos_pos (- x) ltac:(lra)). lra.
Qed.

Lemma binary64_mono (x y : Q) : (x <= y)%Q -> (binary64 x <= binary64 y)%Q.
Proof.
  intros H.
  destruct (Q_sign_cases x) as [Hx|[Hx|Hx]]; destruct (Q_sign_cases y) as [Hy|[Hy|Hy]];
    try (exfalso; lra).
  - rewrite (binary64_neg x Hx), (binary64_neg y Hy).
    pose proof (round_pos_mono (- y) (- x) ltac:(lra) ltac:(lra)). lra.
  - rewrite (binary64_zero y Hy). apply Qlt_le_weak, binary64_neg_lt, Hx.
  - pose proof (binary64_neg_lt x Hx). pose proof (binary64_pos_lt y Hy). lra.
  - rewrite (binary64_zero x Hx), (binary64_zero y Hy). apply Qle_refl.
  - rewrite (binary64_zero x Hx). apply Qlt_le_weak, binary64_pos_lt, Hy.
  - rewrite (binary64_pos x Hx), (binary64_pos y Hy). now apply round_pos_mono.
Qed.

Lemma binary64_idem (x : Q) : (binary64 (binary64 x) == binary64 x)%Q.
Proof.
  destruct (Q_sign_cases x) as [H|[H|H]].
  - rewrite (binary64_neg x H). rewrite binary64_opp.
    pose proof (round_pos_pos (- x) ltac:(lra)) as Hr.
    rewrite (binary64_pos _ Hr). apply Qopp_comp, round_pos_idem. lra.
  - rewrite (binary64_zero x H). reflexivity.
  - rewrite (binary64_pos x H).
    rewrite (binary64_pos _ (round_pos_pos x H)). now apply round_pos_idem.
Qed.

Lemma binary64_error (x : Q) :
  (Qabs (binary64 x - x) <= unit_roundoff * Qabs x)%Q.
Proof.
  destruct (Q_sign_cases x) as [H|[H|H]].
  - rewrite (binary64_neg x H). destruct (round_pos_error (- x) ltac:(lra)) as [E1 E2].
    rewrite (Qabs_neg x) by lra. apply Qabs_Qle_condition.
    unfold unit_roundoff in *. split; lra.
  - rewrite (binary64_zero x H), H. discriminate.
  - rewrite (binary64_pos x H). destruct (round_pos_error x H) as [E1 E2].
    rewrite (Qabs_pos x) by lra. apply Qabs_Qle_condition.
    unfold unit_roundoff in *. split; lra.
Qed.

Lemma binary64_eq0 (x : Q) : (binary64 x == 0)%Q -> (x == 0)%Q.
Proof.
  intros E. destruct (Q_sign_cases x) as [H|[H|H]]; [|exact H|].
  - pose proof (binary64_neg_lt x H). lra.
  - pose proof (binary64_pos_lt x H). lra.
Qed.

(** ** Rationals and cells *)

Lemma Qc_of_nat_add (a b : nat) :
  Qc_of_nat (a + b) = (Qc_of_nat a + Qc_of_nat b)%Qc.
Proof.
  apply Qc_is_canon. unfold Qc_of_nat, Qc_of_Z, Qcplus, Q2Qc. cbn [this].
  rewrite !Qred_correct. rewrite Nat2Z.inj_add, inject_Z_plus. reflexivity.
Qed.

Lemma Qc_of_nat_0 : Qc_of_nat 0 = 0%Qc.
Proof. apply Qc_is_canon. reflexivity. Qed.

Lemma Qc_of_nat_1 : Qc_of_nat 1 = 1%Qc.
Proof. apply Qc_is_canon. reflexivity. Qed.

Lemma Qc_of_nat_S (a : nat) : Qc_of_nat (S a) = (1 + Qc_of_nat a)%Qc.
Proof. rewrite <- Qc_of_nat_1, <- Qc_of_nat_add. reflexivity. Qed.

Lemma Qc_of_nat_nonneg (a : nat) : (0 <= Qc_of_nat a)%Qc.
Proof.
  unfold Qcle, Qc_of_nat, Qc_of_Z, Q2Qc. cbn [this]. rewrite !Qred_correct.
  unfold Qle. simpl. lia.
Qed.

Lemma Qc_of_nat_eq0 (a : nat) : Qc_of_nat a = 0%Qc -> a = 0.
Proof.
  intros H. apply (f_equal this) in H. unfold Qc_of_nat, Qc_of_Z, Q2Qc in H.
  cbn [this] in H.
  assert (E : Qred (inject_Z (Z.of_nat a)) == Qred 0) by (rewrite H; reflexivity).
  rewrite !Qred_correct in E. unfold Qeq in E. simpl in E. lia.
Qed.

Lemma Qc_of_Z_of_nat (z : Z) : (0 <= z)%Z -> Qc_of_nat (Z.to_nat z) = Qc_of_Z z.
Proof. intros H. unfold Qc_of_nat. rewrite Z2Nat.id by exact H. reflexivity. Qed.

Lemma Qc_eq_bool_true (a b : Qc) : Qc_eq_bool a b = true <-> a = b.
Proof.
  split.
  - apply Qc_eq_bool_correct.
  - intros ->. unfold Qc_eq_bool. destruct (Qc_eq_dec b b); congruence.
Qed.

Lemma Qc_eq_bool_false (a b : Qc) : Qc_eq_bool a b = false <-> a <> b.
Proof.
  split.
  - intros H E. apply Qc_eq_bool_true in E. congruence.
  - intros H. destruct (Qc_eq_bool a b) eqn:E; [|reflexivity].
    apply Qc_eq_bool_true in E. contradiction.
Qed.

Lemma cell_eqb_eq (x y : cell) : cell_eqb x y = true <-> x = y.
Proof.
  destruct x as [|a], y as [|b]; simpl; split; try congruence; intros H.
  - f_equal. apply Qc_is_canon, Qeq_bool_eq, H.
  - injection H as ->. apply Qeq_bool_refl.
Qed.

Lemma cells_eqb_eq (l m : list cell) : cells_eqb l m = true <-> l = m.
Proof.
  revert m. induction l as [|x l IH]; intros [|y m]; simpl; split; try congruence.
  - intros H. apply andb_true_iff in H as [H1 H2].
    apply cell_eqb_eq in H1. apply IH in H2. congruence.
  - intros H. injection H as -> ->. apply andb_true_iff. split.
    + apply cell_eqb_eq. reflexivity.
    + apply IH. reflexivity.
Qed.

(** ** Rounding of cells *)

Lemma this_Q2Qc (q : Q) : (this (Q2Qc q) == q)%Q.
Proof. unfold Q2Qc. cbn [this]. apply Qred_correct. Qed.

Lemma this_plus (x y : Qc) : (this (x + y)%Qc == this x + this y)%Q.
Proof. apply this_Q2Qc. Qed.

Lemma this_mult (x y : Qc) : (this (x * y)%Qc == this x * this y)%Q.
Proof. apply this_Q2Qc. Qed.

Lemma this_opp (x : Qc) : (this (- x)%Qc == - this x)%Q.
Proof. apply this_Q2Qc. Qed.

Lemma this_minus (x y : Qc) : (this (x - y)%Qc == this x - this y)%Q.
Proof. unfold Qcminus. rewrite this_plus, this_opp. reflexivity. Qed.

Lemma this_inv (x : Qc) : (this (/ x)%Qc == / this x)%Q.
Proof. apply this_Q2Qc. Qed.

Lemma this_div (x y : Qc) : (this (x / y)%Qc == this x / this y)%Q.
Proof. unfold Qcdiv. rewrite this_mult, this_inv. reflexivity. Qed.

Lemma this_of_nat (k : nat) : (this (Qc_of_nat k) == inject_Z (Z.of_nat k))%Q.
Proof. apply this_Q2Qc. Qed.

Lemma this_rnd (q : Qc) : (this (rnd q) == binary64 q)%Q.
Proof. apply this_Q2Qc. Qed.

Lemma this_abs (q : Qc) : this (Qc_abs q) = Qabs q.
Proof. reflexivity. Qed.

Lemma Qc_eq_this (x y : Qc) : (this x == this y)%Q -> x = y.
Proof. apply Qc_is_canon. Qed.

#[local] Instance binary64_Proper : Proper (Qeq ==> Qeq) binary64.
Proof. intros x y E. now apply binary64_comp. Qed.

Lemma rnd_0 : rnd 0%Qc = 0%Qc.
Proof. apply Qc_is_canon. reflexivity. Qed.

Lemma rnd_1 : rnd 1%Qc = 1%Qc.
Proof. apply Qc_is_canon. vm_compute. reflexivity. Qed.

Lemma rnd_100 : rnd (Qc_of_nat 100) = Qc_of_nat 100.
Proof. apply Qc_is_canon. vm_compute. reflexivity. Qed.

Lemma rnd_mono (x y : Qc) : (x <= y)%Qc -> (rnd x <= rnd y)%Qc.
Proof.
  unfold Qcle. intros H. rewrite !this_rnd. now apply binary64_mono.
Qed.

Lemma rnd_idem (x : Qc) : rnd (rnd x) = rnd x.
Proof.
  apply Qc_eq_this. rewrite !this_rnd. apply binary64_idem.
Qed.

Lemma rnd_nonneg (x : Qc) : (0 <= x)%Qc -> (0 <= rnd x)%Qc.
Proof. intros H. rewrite <- rnd_0. now apply rnd_mono. Qed.

Lemma rnd_pos (x : Qc) : (0 < x)%Qc -> (0 < rnd x)%Qc.
Proof.
  unfold Qclt. intros H. rewrite this_rnd. now apply binary64_pos_lt.
Qed.

Lemma rnd_eq0 (x : Qc) : rnd x = 0%Qc -> x = 0%Qc.
Proof.
  intros H. apply Qc_eq_this. apply binary64_eq0.
  rewrite <- this_rnd, H. reflexivity.
Qed.

(** One rounding, relative to the magnitude of its argument. *)
Lemma rnd_error (x : Qc) :
  (Qabs (this (rnd x) - this x) <= unit_roundoff * Qabs (this x))%Q.
Proof. rewrite this_rnd. apply binary64_error. Qed.

(** [binary64] gives what the processor gives: on each sample the
    primitive floats and the cells hold the same number. *)
Lemma binary64_agrees_with_primitive_floats :
  forallb (fun p => same_value (fst p) (snd p)) binary64_samples = true.
Proof. vm_compute. reflexivity. Qed.

(** ** Accumulated rounding errors *)

Ltac unfold_u :=
  unfold unit_roundoff in *;
  change (1 # 2 ^ 53)%Q with (1 # 9007199254740992)%Q in *.

Lemma binary64_near (y x : Q) :
  (Qabs (binary64 y - x)
   <= (1 + unit_roundoff) * Qabs (y - x) + unit_roundoff * Qabs x)%Q.
Proof.
  pose proof (binary64_error y) as H1.
  assert (H2 : (Qabs (binary64 y - x) <= Qabs (binary64 y - y) + Qabs (y - x))%Q).
  { setoid_replace (binary64 y - x)%Q with ((binary64 y - y) + (y - x))%Q by ring.
    apply Qabs_triangle. }
  assert (H3 : (Qabs y <= Qabs (y - x) + Qabs x)%Q).
  { setoid_replace y with ((y - x) + x)%Q at 1 by ring. apply Qabs_triangle. }
  pose proof (Qabs_nonneg (y - x)) as H4.
  remember (Qabs (binary64 y - x)) as g. remember (Qabs (binary64 y - y)) as d1.
  remember (Qabs (y - x)) as d2. remember (Qabs y) as ay. remember (Qabs x) as ax.
  unfold_u. lra.
Qed.

(** The product by the rounded weight [k] of the exact weight [iw]. *)
Lemma product_near (x k iw : Q) :
  (0 <= iw)%Q ->
  (Qabs (k - iw) <= unit_roundoff * iw)%Q ->
  (Qabs (binary64 (x * k) - x * iw)
   <= ((1 + unit_roundoff) * (1 + unit_roundoff) - 1) * (Qabs x * iw))%Q.
Proof.
  intros Hiw Hk. pose proof (binary64_near (x * k) (x * iw)) as H.
  assert (H1 : (Qabs (x * k - x * iw) <= unit_roundoff * (Qabs x * iw))%Q).
  { setoid_replace (x * k - x * iw)%Q with (x * (k - iw))%Q by ring.
    rewrite Qabs_Qmult, (Qmult_comm (Qabs x)).
    setoid_replace (unit_roundoff * (Qabs x * iw))%Q
      with (unit_roundoff * iw * Qabs x)%Q by ring.
    apply Qmult_le_compat_r; [exact Hk | apply Qabs_nonneg]. }
  assert (H2 : (Qabs (x * iw) == Qabs x * iw)%Q).
  { rewrite Qabs_Qmult, (Qabs_pos iw) by exact Hiw. reflexivity. }
  rewrite H2 in H.
  assert (H3 : (0 <= Qabs x * iw)%Q) by (apply Qmult_le_0_compat; [apply Qabs_nonneg | exact Hiw]).
  remember (Qabs (binary64 (x * k) - x * iw)) as g. remember (Qabs (x * k - x * iw)) as d.
  remember (Qabs x * iw)%Q as a.
  unfold_u. lra.
Qed.

Lemma this_rounding_bound (n : nat) :
  (this (rounding_bound n) == this ((1 + Q2Qc unit_roundoff) ^ n)%Qc - 1)%Q.
Proof. unfold rounding_bound. rewrite this_minus. reflexivity. Qed.

Lemma this_rounding_bound_S (n : nat) :
  (this (rounding_bound (S n))
   == (1 + unit_roundoff) * (this (rounding_bound n) + 1) - 1)%Q.
Proof.
  rewrite !this_rounding_bound. cbn [Qcpower].
  rewrite this_mult, this_plus, (this_Q2Qc unit_roundoff). change (this 1%Qc) with 1%Q. ring.
Qed.

Lemma rounding_bound_0 : (this (rounding_bound 0) == 0)%Q.
Proof. reflexivity. Qed.

Lemma rounding_bound_nonneg (n : nat) : (0 <= this (rounding_bound n))%Q.
Proof.
  induction n as [|n IH]; [rewrite rounding_bound_0; apply Qle_refl|].
  rewrite this_rounding_bound_S. unfold_u. lra.
Qed.

Lemma rounding_bound_le (n m : nat) :
  n <= m -> (this (rounding_bound n) <= this (rounding_bound m))%Q.
Proof.
  induction 1 as [|m _ IH]; [apply Qle_refl|].
  rewrite this_rounding_bound_S. pose proof (rounding_bound_nonneg m). unfold_u. lra.
Qed.

Lemma rounding_bound_2 :
  (this (rounding_bound 2) == (1 + unit_roundoff) * (1 + unit_roundoff) - 1)%Q.
Proof. rewrite !this_rounding_bound_S, rounding_bound_0. ring. Qed.

Lemma this_Qc_sum_cons (q : Qc) (r : list Qc) :
  (this (Qc_sum (q :: r)) == this q + this (Qc_sum r))%Q.
Proof. cbn [Qc_sum]. apply this_plus. Qed.

(** The sum of the products by the rounded weight [k] of the exact weight
    [iw], accumulated from [acc], against the exact sum: each term goes
    through the rounding of the weight, of its product and of the
    additions that follow. *)
Lemma rounded_sum_error (k : Qc) (iw : Q) :
  (0 <= iw)%Q ->
  (Qabs (this k - iw) <= unit_roundoff * iw)%Q ->
  forall (qs : list Qc) (acc : Qc) (S A : Q) (n : nat),
    (Qabs (this acc - S) <= this (rounding_bound (n + 2)) * A)%Q ->
    (Qabs S <= A)%Q ->
    (Qabs (this (rounded_sum k acc qs) - (S + this (Qc_sum qs) * iw))
     <= this (rounding_bound (n + length qs + 2))
        * (A + this (Qc_sum (map Qc_abs qs)) * iw))%Q.
Proof.
  intros Hiw Hk qs. induction qs as [|q r IH]; intros acc S A n Hacc HS.
  - cbn [rounded_sum Qc_sum map length]. rewrite Nat.add_0_r.
    change (this 0%Qc) with 0%Q.
    setoid_replace (S + 0 * iw)%Q with S by ring.
    setoid_replace (A + 0 * iw)%Q with A by ring. exact Hacc.
  - cbn [rounded_sum map length].
    replace (n + Datatypes.S (length r) + 2)%nat with (Datatypes.S n + length r + 2)%nat by lia.
    rewrite !this_Qc_sum_cons, this_abs.
    setoid_replace (S + (this q + this (Qc_sum r)) * iw)%Q
      with ((S + this q * iw) + this (Qc_sum r) * iw)%Q by ring.
    setoid_replace (A + (Qabs q + this (Qc_sum (map Qc_abs r))) * iw)%Q
      with ((A + Qabs q * iw) + this (Qc_sum (map Qc_abs r)) * iw)%Q by ring.
    assert (Ha : (0 <= Qabs q * iw)%Q)
      by (apply Qmult_le_0_compat; [apply Qabs_nonneg | exact Hiw]).
    assert (HA : (0 <= A)%Q) by (pose proof (Qabs_nonneg S); lra).
    apply IH.
    + rewrite this_rnd, this_plus, this_rnd, this_mult.
      pose proof (binary64_near (this acc + binary64 (this q * this k))
                                (S + this q * iw)) as H1.
      assert (H2 : (Qabs (this acc + binary64 (this q * this k) - (S + this q * iw))
                    <= Qabs (this acc - S)
                       + Qabs (binary64 (this q * this k) - this q * iw))%Q).
      { setoid_replace (this acc + binary64 (this q * this k) - (S + this q * iw))%Q
          with ((this acc - S) + (binary64 (this q * this k) - this q * iw))%Q by ring.
        apply Qabs_triangle. }
      pose proof (product_near (this q) (this k) iw Hiw Hk) as H3.
      assert (H4 : (Qabs (S + this q * iw) <= A + Qabs q * iw)%Q).
      { eapply Qle_trans; [apply Qabs_triangle|].
        rewrite (Qabs_Qmult (this q) iw), (Qabs_pos iw) by exact Hiw. lra. }
      pose proof (rounding_bound_le 2 (n + 2) ltac:(lia)) as H5.
      rewrite rounding_bound_2 in H5.
      replace (Datatypes.S n + 2)%nat with (Datatypes.S (n + 2)) by lia.
      rewrite this_rounding_bound_S.
      assert (H6 : (((1 + unit_roundoff) * (1 + unit_roundoff) - 1) * (Qabs q * iw)
                    <= this (rounding_bound (n + 2)) * (Qabs q * iw))%Q)
        by (apply Qmult_le_compat_r; assumption).
      remember (this (rounding_bound (n + 2))) as R eqn:ER.
      setoid_replace (((1 + unit_roundoff) * (R + 1) - 1) * (A + Qabs q * iw))%Q
        with ((1 + unit_roundoff) * (R * A + R * (Qabs q * iw) + A + Qabs q * iw)
              - (A + Qabs q * iw))%Q by ring.
      remember (R * A)%Q as RA. remember (R * (Qabs q * iw))%Q as Ra.
      remember (Qabs q * iw)%Q as a.
      remember (Qabs (this acc - S)) as e.
      remember (Qabs (binary64 (this q * this k) - this q * iw)) as ep.
      remember (Qabs (this acc + binary64 (this q * this k) - (S + this q * iw))) as ey.
      remember (Qabs (S + this q * iw)) as s'.
      remember (Qabs (binary64 (this acc + binary64 (this q * this k)) - (S + this q * iw))) as g.
      unfold_u. lra.
    + eapply Qle_trans; [apply Qabs_triangle|].
      rewrite (Qabs_Qmult (this q) iw), (Qabs_pos iw) by exact Hiw. lra.
Qed.

Lemma this_inv_nat (w : nat) :
  (this (1 / Qc_of_nat w)%Qc == 1 / inject_Z (Z.of_nat w))%Q.
Proof. rewrite this_div, this_of_nat. reflexivity. Qed.

Lemma inv_nat_nonneg (w : nat) : (0 <= this (1 / Qc_of_nat w)%Qc)%Q.
Proof.
  rewrite this_inv_nat. destruct w as [|w]; [discriminate|].
  apply Qle_shift_div_l; [apply inject_Z_pos; lia | discriminate].
Qed.

Lemma weight_error (w : nat) :
  (Qabs (this (rnd (1 / Qc_of_nat w)) - this (1 / Qc_of_nat w)%Qc)
   <= unit_roundoff * this (1 / Qc_of_nat w)%Qc)%Q.
Proof.
  pose proof (rnd_error (1 / Qc_of_nat w)%Qc) as H.
  now rewrite (Qabs_pos (this (1 / Qc_of_nat w)%Qc)) in H by apply inv_nat_nonneg.
Qed.

Lemma this_arithmetic_mean (qs : list Qc) :
  (this (arithmetic_mean qs) == this (Qc_sum qs) * this (1 / Qc_of_nat (length qs))%Qc)%Q.
Proof.
  unfold arithmetic_mean. rewrite !this_div. change (this 1%Qc) with 1%Q.
  unfold Qdiv. ring.
Qed.

(** The moving average of [w] numbers is their arithmetic mean within
    [w + 2] roundings. *)
Lemma rounded_sum_within (w : nat) (qs : list Qc) :
  length qs = w ->
  within_rounding (w + 2) (rounded_sum (rnd (1 / Qc_of_nat w)) 0%Qc qs)
                  (arithmetic_mean qs) (mean_abs qs).
Proof.
  intros Hlen.
  pose proof (rounded_sum_error (rnd (1 / Qc_of_nat w)) (this (1 / Qc_of_nat w)%Qc)
                (inv_nat_nonneg w) (weight_error w) qs 0%Qc 0%Q 0%Q 0) as E.
  cbn [Nat.add] in E. rewrite Hlen in E.
  assert (E0 : (Qabs (this 0%Qc - 0) <= this (rounding_bound 2) * 0)%Q).
  { setoid_replace (this (rounding_bound 2) * 0)%Q with 0%Q by ring. discriminate. }
  specialize (E E0 ltac:(discriminate)).
  apply Qabs_Qle_condition in E.
  unfold within_rounding, mean_abs, Qcle.
  rewrite this_minus, this_plus, this_mult, !this_arithmetic_mean, length_map, Hlen.
  remember (this (rounded_sum (rnd (1 / Qc_of_nat w)) 0%Qc qs)) as v.
  remember (this (rounding_bound (w + 2))) as R.
  remember (this (Qc_sum qs) * this (1 / Qc_of_nat w)%Qc)%Q as m.
  remember (this (Qc_sum (map Qc_abs qs)) * this (1 / Qc_of_nat w)%Qc)%Q as a.
  split; lra.
Qed.

(** ** Sums of non-negative terms *)

Lemma Qc_plus_nonneg (a b : Qc) : (0 <= a)%Qc -> (0 <= b)%Qc -> (0 <= a + b)%Qc.
Proof.
  unfold Qcle. rewrite this_plus. change (this 0%Qc) with 0%Q. intros. lra.
Qed.

Lemma Qc_plus_eq0 (a b : Qc) :
  (0 <= a)%Qc -> (0 <= b)%Qc -> (a + b)%Qc = 0%Qc -> a = 0%Qc /\ b = 0%Qc.
Proof.
  unfold Qcle. change (this 0%Qc) with 0%Q. intros Ha Hb E.
  apply (f_equal this) in E. change (this 0%Qc) with 0%Q in E.
  pose proof (this_plus a b) as P. rewrite E in P.
  split; apply Qc_eq_this; change (this 0%Qc) with 0%Q; lra.
Qed.

Lemma Qc_mult_nonneg (a b : Qc) : (0 <= a)%Qc -> (0 <= b)%Qc -> (0 <= a * b)%Qc.
Proof.
  unfold Qcle. rewrite this_mult. change (this 0%Qc) with 0%Q.
  apply Qmult_le_0_compat.
Qed.

Lemma Qc_mult_eq0_l (a b : Qc) : (0 < b)%Qc -> (a * b)%Qc = 0%Qc -> a = 0%Qc.
Proof.
  intros Hb E. destruct (Qcmult_integral _ _ E) as [H|H]; [exact H|].
  subst b. exfalso. apply (Qclt_not_le _ _ Hb), Qcle_refl.
Qed.

Lemma Qc_of_nat_pos (w : nat) : 1 <= w -> (0 < Qc_of_nat w)%Qc.
Proof.
  intros H. unfold Qclt. rewrite this_of_nat. apply inject_Z_pos. lia.
Qed.

Lemma inv_nat_pos (w : nat) : 1 <= w -> (0 < 1 / Qc_of_nat w)%Qc.
Proof.
  intros H. unfold Qclt. rewrite this_inv_nat. change (this 0%Qc) with 0%Q.
  apply Qlt_shift_div_l; [apply inject_Z_pos; lia | reflexivity].
Qed.

Lemma rounded_sum_nonneg (k acc : Qc) (qs : list Qc) :
  (0 <= k)%Qc -> (0 <= acc)%Qc -> Forall (fun q => 0 <= q)%Qc qs ->
  (0 <= rounded_sum k acc qs)%Qc.
Proof.
  intros Hk. revert acc. induction qs as [|q r IH]; intros acc Hacc Hqs; [exact Hacc|].
  cbn [rounded_sum]. apply IH; [|now apply Forall_inv_tail in Hqs].
  apply rnd_nonneg, Qc_plus_nonneg; [exact Hacc|].
  apply rnd_nonneg, Qc_mult_nonneg; [now apply Forall_inv in Hqs | exact Hk].
Qed.

(** A sum of non-negative terms, rounded at each step, is zero only when
    every term is. *)
Lemma rounded_sum_eq0 (k acc : Qc) (qs : list Qc) :
  (0 < k)%Qc -> (0 <= acc)%Qc -> Forall (fun q => 0 <= q)%Qc qs ->
  rounded_sum k acc qs = 0%Qc ->
  acc = 0%Qc /\ Forall (fun q => q = 0%Qc) qs.
Proof.
  intros Hk. revert acc. induction qs as [|q r IH]; intros acc Hacc Hqs E.
  - split; [exact E | constructor].
  - cbn [rounded_sum] in E.
    pose proof (Forall_inv Hqs) as Hq. apply Forall_inv_tail in Hqs.
    assert (Hp : (0 <= rnd (q * k))%Qc)
      by (apply rnd_nonneg, Qc_mult_nonneg; [exact Hq | now apply Qclt_le_weak]).
    destruct (IH _ (rnd_nonneg _ (Qc_plus_nonneg _ _ Hacc Hp)) Hqs E) as [E1 E2].
    apply rnd_eq0 in E1. destruct (Qc_plus_eq0 _ _ Hacc Hp E1) as [E3 E4].
    split; [exact E3|]. constructor; [|exact E2].
    apply rnd_eq0 in E4. now apply (Qc_mult_eq0_l q k).
Qed.

Lemma rounded_sum_zeros (k : Qc) (qs : list Qc) :
  Forall (fun q => q = 0%Qc) qs -> rounded_sum k 0%Qc qs = 0%Qc.
Proof.
  induction qs as [|q r IH]; intros H; [reflexivity|].
  cbn [rounded_sum]. rewrite (Forall_inv H), Qcmult_0_l, rnd_0, Qcplus_0_l, rnd_0.
  apply IH. now apply Forall_inv_tail in H.
Qed.

Lemma indicator_nonneg (l : list cell) : Forall (fun q => 0 <= q)%Qc (map indicator l).
Proof.
  apply Forall_map, Forall_forall. intros c _. unfold indicator.
  destruct (isna c); discriminate.
Qed.

Lemma indicator_zero (l : list cell) :
  Forall (fun q => q = 0%Qc) (map indicator l) <-> count_missing l = 0.
Proof.
  unfold count_missing. induction l as [|c l IH]; [split; [reflexivity | constructor]|].
  cbn [map filter]. unfold indicator at 1. destruct (isna c).
  - split; [|discriminate]. intros H. apply Forall_inv in H. discriminate.
  - rewrite <- IH. split; intros H; [now apply Forall_inv_tail in H | now constructor].
Qed.

(** ** The counts of [nan_by_window] *)

Lemma rounded_count_nonneg (w : nat) (win : list cell) : (0 <= rounded_count w win)%Qc.
Proof.
  unfold rounded_count. apply rnd_nonneg, Qc_mult_nonneg; [|apply Qc_of_nat_nonneg].
  apply rounded_sum_nonneg; [| apply Qcle_refl | apply indicator_nonneg].
  apply rnd_nonneg. destruct w as [|w]; [discriminate|].
  apply Qclt_le_weak, inv_nat_pos. lia.
Qed.

(** The count is 0 exactly when the window holds no missing value. *)
Lemma rounded_count_eq0 (w : nat) (win : list cell) :
  1 <= w -> (rounded_count w win = 0%Qc <-> count_missing win = 0).
Proof.
  intros Hw. unfold rounded_count. split.
  - intros E. apply rnd_eq0 in E.
    apply Qc_mult_eq0_l in E; [|now apply Qc_of_nat_pos].
    apply rounded_sum_eq0 in E;
      [| apply rnd_pos, inv_nat_pos, Hw | apply Qcle_refl | apply indicator_nonneg].
    now apply indicator_zero.
  - intros E. apply indicator_zero in E.
    now rewrite rounded_sum_zeros, Qcmult_0_l, rnd_0.
Qed.

Lemma Qcabs_indicator (l : list cell) : map Qc_abs (map indicator l) = map indicator l.
Proof.
  rewrite map_map. apply map_ext. intros c. unfold indicator.
  destruct (isna c); apply Qc_is_canon; reflexivity.
Qed.

Lemma Qc_sum_indicator (l : list cell) :
  Qc_sum (map indicator l) = Qc_of_nat (count_missing l).
Proof.
  unfold count_missing. induction l as [|x l IH]; simpl.
  - symmetry. apply Qc_of_nat_0.
  - rewrite IH. unfold indicator. destruct (isna x).
    + cbn [length]. now rewrite Qc_of_nat_S.
    + apply Qcplus_0_l.
Qed.

(** The count is the number of missing values of the window within
    [w + 3] roundings. *)
Lemma rounded_count_within (w : nat) (win : list cell) :
  1 <= w -> length win = w ->
  within_rounding (w + 3) (rounded_count w win)
                  (Qc_of_nat (count_missing win)) (Qc_of_nat (count_missing win)).
Proof.
  intros Hw Hlen.
  unfold within_rounding, Qcle. rewrite this_minus, this_plus, this_mult.
  replace (w + 3) with (Datatypes.S (w + 2)) by lia.
  rewrite this_rounding_bound_S.
  pose proof (rounded_sum_within w (map indicator win)
                ltac:(now rewrite length_map)) as [D1 D2].
  unfold mean_abs in D1, D2. rewrite Qcabs_indicator in D1, D2.
  unfold Qcle in D1, D2.
  rewrite this_minus, this_mult in D1. rewrite this_plus, this_mult in D2.
  rewrite !this_arithmetic_mean, length_map, Hlen, Qc_sum_indicator in D1, D2.
  rewrite this_inv_nat in D1, D2.
  pose proof (this_of_nat (count_missing win)) as EC.
  assert (HC : (0 <= this (Qc_of_nat (count_missing win)))%Q).
  { rewrite EC. change 0%Q with (inject_Z 0). rewrite <- Zle_Qle. lia. }
  assert (HW : (0 < inject_Z (Z.of_nat w))%Q) by (apply inject_Z_pos; lia).
  remember (this (Qc_of_nat (count_missing win))) as C eqn:EqC. clear EC EqC.
  remember (inject_Z (Z.of_nat w)) as W eqn:EW.
  remember (this (rounded_sum (rnd (1 / Qc_of_nat w)) 0%Qc (map indicator win))) as d eqn:Ed.
  pose proof (rounding_bound_nonneg (w + 2)) as HR.
  remember (this (rounding_bound (w + 2))) as R eqn:ER.
  assert (Em : (C * (1 / W) * W == C)%Q) by (field; lra).
  assert (Y1 : (C - R * C <= d * W)%Q).
  { rewrite <- Em at 1 2.
    setoid_replace (C * (1 / W) * W - R * (C * (1 / W) * W))%Q
      with ((C * (1 / W) - R * (C * (1 / W))) * W)%Q by ring.
    apply Qmult_le_compat_r; lra. }
  assert (Y2 : (d * W <= C + R * C)%Q).
  { rewrite <- Em at 1 2.
    setoid_replace (C * (1 / W) * W + R * (C * (1 / W) * W))%Q
      with ((C * (1 / W) + R * (C * (1 / W))) * W)%Q by ring.
    apply Qmult_le_compat_r; lra. }
  assert (Ev : (this (rounded_count w win) == binary64 (d * W))%Q).
  { unfold rounded_count. rewrite this_rnd, this_mult, this_of_nat, <- Ed, <- EW.
    reflexivity. }
  pose proof (binary64_near (d * W) C) as N. rewrite <- Ev in N.
  rewrite (Qabs_pos C) in N by exact HC.
  assert (N1 : (Qabs (d * W - C) <= R * C)%Q) by (apply Qabs_Qle_condition; split; lra).
  assert (N2 : (Qabs (this (rounded_count w win) - C)
                <= ((1 + unit_roundoff) * (R + 1) - 1) * C)%Q).
  { setoid_replace (((1 + unit_roundoff) * (R + 1) - 1) * C)%Q
      with ((1 + unit_roundoff) * (R * C) + unit_roundoff * C)%Q by ring.
    remember (Qabs (d * W - C)) as e. remember (R * C)%Q as RC.
    remember (Qabs (this (rounded_count w win) - C)) as g. unfold_u. lra. }
  apply Qabs_Qle_condition in N2.
  remember (this (rounded_count w win)) as v.
  remember (((1 + unit_roundoff) * (R + 1) - 1) * C)%Q as B.
  split; lra.
Qed.

(** ** Percentages *)

Lemma ratio_range (a b : nat) :
  a <= b -> 1 <= b ->
  (0 <= Qc_of_nat a / Qc_of_nat b)%Qc /\ (Qc_of_nat a / Qc_of_nat b <= 1)%Qc.
Proof.
  intros Hab Hb. unfold Qcle. rewrite this_div, !this_of_nat.
  change (this 0%Qc) with 0%Q. change (this 1%Qc) with 1%Q.
  assert (HB : (0 < inject_Z (Z.of_nat b))%Q) by (apply inject_Z_pos; lia).
  split.
  - apply Qle_shift_div_l; [exact HB|]. rewrite Qmult_0_l.
    change 0%Q with (inject_Z 0). rewrite <- Zle_Qle. lia.
  - apply Qle_shift_div_r; [exact HB|]. rewrite Qmult_1_l, <- Zle_Qle. lia.
Qed.

Lemma Qc_100_nonneg : (0 <= Qc_of_nat 100)%Qc.
Proof. apply Qc_of_nat_nonneg. Qed.

(** A percentage of the code lies between 0 and 100. *)
Lemma rounded_percentage_range (a b : nat) :
  a <= b -> 1 <= b ->
  (0 <= rounded_percentage a b)%Qc /\ (rounded_percentage a b <= Qc_of_nat 100)%Qc.
Proof.
  intros Hab Hb. destruct (ratio_range a b Hab Hb) as [H0 H1].
  apply rnd_nonneg in H0 as H0'. apply rnd_mono in H1. rewrite rnd_1 in H1.
  unfold rounded_percentage. split.
  - apply rnd_nonneg, Qc_mult_nonneg; [exact H0' | apply Qc_100_nonneg].
  - rewrite <- rnd_100 at 2. apply rnd_mono.
    rewrite <- (Qcmult_1_l (Qc_of_nat 100)) at 2.
    apply Qcmult_le_compat_r; [exact H1 | apply Qc_100_nonneg].
Qed.

(** It is 0 exactly when the first count is 0. *)
Lemma rounded_percentage_eq0 (a b : nat) :
  1 <= b -> (rounded_percentage a b = 0%Qc <-> a = 0).
Proof.
  intros Hb. unfold rounded_percentage. split.
  - intros E. apply rnd_eq0 in E.
    apply Qc_mult_eq0_l in E; [|apply Qc_of_nat_pos; lia].
    apply rnd_eq0 in E. unfold Qcdiv in E.
    apply Qc_mult_eq0_l in E; [now apply Qc_of_nat_eq0|].
    pose proof (inv_nat_pos b Hb) as P. unfold Qcdiv in P.
    now rewrite Qcmult_1_l in P.
  - intros ->. rewrite Qc_of_nat_0. unfold Qcdiv.
    rewrite Qcmult_0_l. now rewrite ?rnd_0, ?Qcmult_0_l, ?rnd_0.
Qed.

(** It is 100 when the two counts are equal. *)
Lemma rounded_percentage_full (b : nat) :
  1 <= b -> rounded_percentage b b = Qc_of_nat 100.
Proof.
  intros Hb. unfold rounded_percentage.
  assert (E : (Qc_of_nat b / Qc_of_nat b)%Qc = 1%Qc).
  { field. intros E. apply Qc_of_nat_eq0 in E. lia. }
  now rewrite E, rnd_1, Qcmult_1_l, rnd_100.
Qed.

(** It is the exact percentage within 2 roundings. *)
Lemma rounded_percentage_within (a b : nat) :
  1 <= b ->
  within_rounding 2 (rounded_percentage a b)
                  (Qc_of_nat a / Qc_of_nat b * Qc_of_nat 100)
                  (Qc_of_nat a / Qc_of_nat b * Qc_of_nat 100).
Proof.
  intros Hb.
  assert (Hq : (0 <= this (Qc_of_nat a / Qc_of_nat b)%Qc)%Q).
  { rewrite this_div, !this_of_nat.
    apply Qle_shift_div_l; [apply inject_Z_pos; lia|]. rewrite Qmult_0_l.
    change 0%Q with (inject_Z 0). rewrite <- Zle_Qle. lia. }
  pose proof (rnd_error (Qc_of_nat a / Qc_of_nat b)%Qc) as E1.
  rewrite (Qabs_pos _ Hq) in E1.
  remember (Qc_of_nat a / Qc_of_nat b)%Qc as q eqn:Eq.
  assert (Eh : (this (Qc_of_nat 100) == 100)%Q) by (rewrite this_of_nat; reflexivity).
  pose proof (binary64_near (this (rnd q) * 100) (this q * 100)) as N.
  assert (Ev : (this (rounded_percentage a b) == binary64 (this (rnd q) * 100))%Q).
  { unfold rounded_percentage. rewrite <- Eq, this_rnd, this_mult, Eh. reflexivity. }
  rewrite <- Ev in N.
  assert (N1 : (Qabs (this (rnd q) * 100 - this q * 100) <= unit_roundoff * (this q * 100))%Q).
  { setoid_replace (this (rnd q) * 100 - this q * 100)%Q
      with ((this (rnd q) - this q) * 100)%Q by ring.
    rewrite Qabs_Qmult. change (Qabs 100) with 100%Q.
    setoid_replace (unit_roundoff * (this q * 100))%Q
      with (unit_roundoff * this q * 100)%Q by ring.
    apply Qmult_le_compat_r; [exact E1 | discriminate]. }
  rewrite (Qabs_pos (this q * 100)) in N by lra.
  unfold within_rounding, Qcle. rewrite this_minus, this_plus, !this_mult, Eh.
  rewrite rounding_bound_2.
  assert (N2 : (Qabs (this (rounded_percentage a b) - this q * 100)
                <= ((1 + unit_roundoff) * (1 + unit_roundoff) - 1) * (this q * 100))%Q).
  { remember (Qabs (this (rnd q) * 100 - this q * 100)) as e.
    remember (Qabs (this (rounded_percentage a b) - this q * 100)) as g.
    remember (this q * 100)%Q as x. unfold_u. lra. }
  apply Qabs_Qle_condition in N2.
  remember (this (rounded_percentage a b)) as v.
  remember (((1 + unit_roundoff) * (1 + unit_roundoff) - 1) * (this q * 100))%Q as B.
  split; lra.
Qed.

(** What the percentage expression of the code gives. *)
Lemma percent_of_counts (z e : nat) :
  fmul (truediv_count z e) (Num (Qc_of_nat 100))
  = match e with
    | O => NaN
    | S _ => Num (rounded_percentage z e)
    end.
Proof.
  unfold truediv_count, float_of_nat, fdiv.
  destruct e as [|e].
  - rewrite Qc_of_nat_0. reflexivity.
  - replace (Qc_eq_bool (Qc_of_nat (S e)) 0%Qc) with false; [reflexivity|].
    symmetry. apply Qc_eq_bool_false. intros E. apply Qc_of_nat_eq0 in E. lia.
Qed.

(** ** Labelled lists, [find] and [filter] *)

Lemma labelled_cons (k : nat) (x : cell) (l : list cell) :
  labelled k (x :: l) = (k, x) :: labelled (S k) l.
Proof. reflexivity. Qed.

Lemma labelled_app (k : nat) (l m : list cell) :
  labelled k (l ++ m) = labelled k l ++ labelled (k + length l) m.
Proof.
  revert k. induction l as [|x l IH]; intros k.
  - simpl. rewrite Nat.add_0_r. reflexivity.
  - simpl app. rewrite !labelled_cons, IH. simpl.
    rewrite Nat.add_succ_r. reflexivity.
Qed.

Lemma index_labelled (k : nat) (l : list cell) :
  index (labelled k l) = seq k (length l).
Proof.
  revert k. induction l as [|x l IH]; intros k; [reflexivity|].
  rewrite labelled_cons. simpl. f_equal. apply IH.
Qed.

Lemma values_labelled (k : nat) (l : list cell) : values (labelled k l) = l.
Proof.
  revert k. induction l as [|x l IH]; intros k; [reflexivity|].
  rewrite labelled_cons. simpl. f_equal. apply IH.
Qed.

Lemma length_labelled (k : nat) (l : list cell) : length (labelled k l) = length l.
Proof.
  unfold labelled. rewrite length_combine, length_seq. apply Nat.min_id.
Qed.

Lemma In_labelled (k : nat) (l : list cell) (p : nat * cell) :
  In p (labelled k l) -> k <= fst p < k + length l /\ In (snd p) l.
Proof.
  revert k. induction l as [|x l IH]; intros k H; [contradiction|].
  rewrite labelled_cons in H. destruct H as [<-|H].
  - simpl. split; [lia | now left].
  - apply IH in H. simpl. split; [lia | now right].
Qed.

Lemma find_app_skip {A : Type} (f : A -> bool) (l m : list A) :
  (forall z, In z l -> f z = false) -> find f (l ++ m) = find f m.
Proof.
  induction l as [|x l IH]; intros H; [reflexivity|].
  simpl. rewrite (H x) by now left. apply IH. intros z Hz. apply H. now right.
Qed.

Lemma find_all_false {A : Type} (f : A -> bool) (l : list A) :
  (forall z, In z l -> f z = false) -> find f l = None.
Proof.
  intros H. rewrite <- (app_nil_r l). rewrite find_app_skip by exact H. reflexivity.
Qed.

Lemma filter_all_false {A : Type} (f : A -> bool) (l : list A) :
  (forall z, In z l -> f z = false) -> filter f l = [].
Proof.
  induction l as [|x l IH]; intros H; [reflexivity|].
  simpl. rewrite (H x) by now left. apply IH. intros z Hz. apply H. now right.
Qed.

Lemma filter_all_true {A : Type} (f : A -> bool) (l : list A) :
  (forall z, In z l -> f z = true) -> filter f l = l.
Proof.
  induction l as [|x l IH]; intros H; [reflexivity|].
  simpl. rewrite (H x) by now left. f_equal. apply IH. intros z Hz. apply H. now right.
Qed.

Lemma In_repeat_eq {A : Type} (x y : A) (n : nat) : In y (repeat x n) -> y = x.
Proof. intros H. apply repeat_spec in H. exact H. Qed.

Lemma labelled_nan_notna (k n : nat) (p : nat * cell) :
  In p (labelled k (repeat NaN n)) -> notna (snd p) = false.
Proof.
  intros H. apply In_labelled in H as [_ H]. apply In_repeat_eq in H.
  rewrite H. reflexivity.
Qed.

Lemma rev_repeat_nan (n : nat) : rev (repeat NaN n) = repeat NaN n.
Proof.
  induction n as [|n IH]; [reflexivity|].
  simpl. rewrite IH. change [NaN] with (repeat NaN 1).
  rewrite <- repeat_app. rewrite Nat.add_1_r. reflexivity.
Qed.

(** ** The span the code cuts out of a column *)

Lemma first_valid_index_some (k a : nat) (x : cell) (r : list cell) :
  isna x = false ->
  first_valid_index (labelled k (repeat NaN a ++ x :: r)) = Some (k + a).
Proof.
  intros Hx. unfold first_valid_index.
  rewrite labelled_app, find_app_skip by (intros z; apply labelled_nan_notna).
  rewrite repeat_length, labelled_cons. simpl. unfold notna. rewrite Hx. reflexivity.
Qed.

Lemma last_valid_index_some (k c : nat) (l : list cell) (y : cell) :
  isna y = false ->
  last_valid_index (labelled k (l ++ y :: repeat NaN c)) = Some (k + length l).
Proof.
  intros Hy. unfold last_valid_index, first_valid_index.
  rewrite labelled_app, labelled_cons, rev_app_distr. simpl rev.
  rewrite <- app_assoc, find_app_skip.
  - simpl. unfold notna. rewrite Hy. reflexivity.
  - intros z Hz. apply in_rev in Hz. revert Hz. apply labelled_nan_notna.
Qed.

Lemma valid_index_none (n : nat) :
  first_valid_index (column_series (repeat NaN n)) = None
  /\ last_valid_index (column_series (repeat NaN n)) = None.
Proof.
  unfold last_valid_index, first_valid_index.
  change (column_series (repeat NaN n)) with (labelled 0 (repeat NaN n)). split.
  - rewrite find_all_false; [reflexivity|]. intros z. apply labelled_nan_notna.
  - rewrite find_all_false; [reflexivity|]. intros z Hz. apply in_rev in Hz.
    revert Hz. apply labelled_nan_notna.
Qed.

Lemma loc_slice_middle (a : nat) (pre vs post : list cell) :
  length pre = a -> vs <> [] ->
  loc_slice (Some a) (Some (a + length vs - 1)) (labelled 0 (pre ++ vs ++ post))
  = labelled a vs.
Proof.
  intros Ha Hvs. unfold loc_slice.
  assert (Hlen : 0 < length vs) by (destruct vs; [congruence | simpl; lia]).
  rewrite !labelled_app, !filter_app. simpl Nat.add. rewrite Ha.
  rewrite filter_all_false, filter_all_true, filter_all_false.
  - rewrite app_nil_r. reflexivity.
  - intros z Hz. apply In_labelled in Hz as [Hz _].
    apply andb_false_iff. right. apply Nat.leb_gt. lia.
  - intros z Hz. apply In_labelled in Hz as [Hz _].
    apply andb_true_iff. split; apply Nat.leb_le; lia.
  - intros z Hz. apply In_labelled in Hz as [Hz _].
    apply andb_false_iff. left. apply Nat.leb_gt. lia.
Qed.

Lemma loc_slice_open (s : Series) : loc_slice None None s = s.
Proof. unfold loc_slice. apply filter_all_true. reflexivity. Qed.

Lemma drop_na_split (l : list cell) :
  l = repeat NaN (nan_prefix_length l) ++ drop_na l.
Proof.
  induction l as [|[|q] l IH]; try reflexivity.
  simpl. f_equal. exact IH.
Qed.

Lemma drop_na_head (l : list cell) :
  drop_na l = [] \/ exists x r, drop_na l = x :: r /\ isna x = false.
Proof.
  induction l as [|[|q] l IH]; simpl; auto.
  right. exists (Num q), l. auto.
Qed.

Lemma drop_na_repeat (n : nat) (l : list cell) :
  drop_na (repeat NaN n ++ l) = drop_na l.
Proof. induction n as [|n IH]; [reflexivity | exact IH]. Qed.

Lemma existsb_notna_repeat (n : nat) : existsb notna (repeat NaN n) = false.
Proof. induction n as [|n IH]; [reflexivity | exact IH]. Qed.

Lemma all_nan_repeat (l : list cell) :
  existsb notna l = false -> l = repeat NaN (length l).
Proof.
  induction l as [|[|q] l IH]; simpl; intros H; try congruence.
  f_equal. apply IH, H.
Qed.

Lemma observed_span_all_nan (l : list cell) :
  existsb notna l = false -> observed_span l = [].
Proof.
  intros H. unfold observed_span. rewrite (all_nan_repeat l H).
  rewrite <- (app_nil_r (repeat NaN (length l))), drop_na_repeat. reflexivity.
Qed.

Lemma observed_span_decomp (col : list cell) :
  existsb notna col = true ->
  span_decomp col (span_start col) (observed_span col)
              (nan_prefix_length (rev (drop_na col))).
Proof.
  intros Hex. unfold span_start, observed_span.
  set (d := drop_na col).
  set (c := nan_prefix_length (rev d)).
  assert (Hd : d = rev (drop_na (rev d)) ++ repeat NaN c).
  { rewrite <- (rev_involutive d) at 1.
    rewrite (drop_na_split (rev d)) at 1. fold c.
    rewrite rev_app_distr, rev_repeat_nan. reflexivity. }
  assert (Hcol : col = repeat NaN (nan_prefix_length col) ++ d) by apply drop_na_split.
  assert (Hdx : exists x r, d = x :: r /\ isna x = false).
  { destruct (drop_na_head col) as [E|E]; [|exact E].
    fold d in E. rewrite E, app_nil_r in Hcol. rewrite Hcol in Hex.
    rewrite existsb_notna_repeat in Hex. discriminate. }
  destruct Hdx as (x & r & Hx & Hnx).
  assert (Hlast : exists l y, rev (drop_na (rev d)) = l ++ [y] /\ isna y = false).
  { destruct (drop_na_head (rev d)) as [E|(y & r' & E & Hy)].
    - rewrite E in Hd. simpl in Hd. rewrite Hx in Hd.
      destruct c; simpl in Hd; [discriminate|]. injection Hd as -> _. discriminate.
    - rewrite E. simpl. exists (rev r'), y. auto. }
  split; [|split].
  - rewrite <- Hd. exact Hcol.
  - destruct Hlast as (l & y & Hl & Hy). rewrite Hl in Hd |- *.
    destruct l as [|z l].
    + exists y, []. auto.
    + exists z, (l ++ [y]). split; [reflexivity|].
      rewrite Hx in Hd. simpl in Hd. injection Hd as -> _. exact Hnx.
  - exact Hlast.
Qed.

Lemma span_decomp_length (col : list cell) (a c : nat) (vs : list cell) :
  span_decomp col a vs c -> length col = a + length vs + c /\ 0 < length vs.
Proof.
  intros (Hcol & (x & r & Hx & _) & _). rewrite Hcol, !length_app, !repeat_length.
  rewrite Hx. simpl. lia.
Qed.

Lemma valid_span_decomp (col : list cell) (a c : nat) (vs : list cell) :
  span_decomp col a vs c -> valid_span (column_series col) = labelled a vs.
Proof.
  intros (Hcol & (x & r & Hx & Hnx) & (l & y & Hl & Hny)).
  unfold valid_span. change (column_series col) with (labelled 0 col).
  assert (F : first_valid_index (labelled 0 col) = Some a).
  { rewrite Hcol, Hx. simpl app. apply (first_valid_index_some 0 a x _ Hnx). }
  assert (L : last_valid_index (labelled 0 col) = Some (a + length vs - 1)).
  { rewrite Hcol, Hl, <- app_assoc. simpl app. rewrite app_assoc.
    rewrite (last_valid_index_some 0 c _ y Hny).
    rewrite !length_app, repeat_length. simpl. f_equal. lia. }
  rewrite F, L, Hcol. apply loc_slice_middle.
  - apply repeat_length.
  - rewrite Hx. discriminate.
Qed.

Lemma valid_span_all_nan (n : nat) :
  valid_span (column_series (repeat NaN n)) = labelled 0 (repeat NaN n).
Proof.
  unfold valid_span. destruct (valid_index_none n) as [-> ->].
  apply loc_slice_open.
Qed.

(** ** Grouping the missing values of a span *)

Lemma select_cons_true {A : Type} (m : list bool) (x : A) (l : list A) :
  select (true :: m) (x :: l) = x :: select m l.
Proof. reflexivity. Qed.

Lemma select_cons_false {A : Type} (m : list bool) (x : A) (l : list A) :
  select (false :: m) (x :: l) = select m l.
Proof. reflexivity. Qed.

Lemma select_nan_pairs (vs : list cell) (c lbl : nat) :
  combine (select (map isna vs) (cumsum_from c (map negb (map isna vs))))
          (select (map isna vs) (seq lbl (length vs)))
  = nan_pairs c lbl vs.
Proof.
  revert c lbl. induction vs as [|v vs IH]; intros c lbl; [reflexivity|].
  simpl map. simpl length. simpl seq. simpl cumsum_from. simpl nan_pairs.
  destruct (isna v); simpl negb; cbv iota.
  - rewrite !select_cons_true. simpl. f_equal. apply IH.
  - rewrite !select_cons_false. apply IH.
Qed.

Lemma insert_group_above (k lbl : nat) (acc : list group) :
  (forall g, In g acc -> g_key g < k) ->
  insert_group k lbl acc = acc ++ [mkGroup k lbl 1].
Proof.
  induction acc as [|g acc IH]; intros H; [reflexivity|].
  assert (Hg : g_key g < k) by (apply H; now left).
  simpl. destruct (Nat.eqb_spec k (g_key g)) as [E|_]; [lia|].
  destruct (Nat.ltb_spec k (g_key g)) as [E|_]; [lia|].
  f_equal. apply IH. intros g' Hg'. apply H. now right.
Qed.

Lemma insert_group_last (k lbl f m : nat) (acc : list group) :
  (forall g, In g acc -> g_key g < k) ->
  insert_group k lbl (acc ++ [mkGroup k f m]) = acc ++ [mkGroup k f (S m)].
Proof.
  induction acc as [|g acc IH]; intros H.
  - simpl. rewrite Nat.eqb_refl. reflexivity.
  - assert (Hg : g_key g < k) by (apply H; now left).
    simpl. destruct (Nat.eqb_spec k (g_key g)) as [E|_]; [lia|].
    destruct (Nat.ltb_spec k (g_key g)) as [E|_]; [lia|].
    f_equal. apply IH. intros g' Hg'. apply H. now right.
Qed.

(** The insertion-based grouping of [nan_pairs] is the one-pass run-length
    encoding, with or without a run left open by the rows before. *)
Lemma fold_insert_run_groups (vs : list cell) :
  forall (c lbl : nat) (acc : list group),
    (forall g, In g acc -> g_key g < c) ->
    fold_left (fun gs p => insert_group (fst p) (snd p) gs) (nan_pairs c lbl vs) acc
    = acc ++ run_groups false c lbl vs
    /\ forall f m,
        fold_left (fun gs p => insert_group (fst p) (snd p) gs)
                  (nan_pairs c lbl vs) (acc ++ [mkGroup c f m])
        = acc ++ mkGroup c f (m + nan_prefix_length vs) :: run_groups true c lbl vs.
Proof.
  induction vs as [|v vs IH]; intros c lbl acc Hacc.
  - simpl. split; [now rewrite app_nil_r|]. intros f m. now rewrite Nat.add_0_r.
  - destruct v as [|q]; simpl nan_pairs; simpl run_groups; simpl nan_prefix_length.
    + destruct (IH c (S lbl) acc Hacc) as [_ IH2]. split.
      * simpl fold_left. rewrite insert_group_above by exact Hacc. apply IH2.
      * intros f m. simpl fold_left. rewrite insert_group_last by exact Hacc.
        rewrite IH2. rewrite Nat.add_succ_r. reflexivity.
    + split.
      * apply IH. intros g Hg. apply Hacc in Hg. lia.
      * intros f m. rewrite Nat.add_0_r.
        destruct (IH (S c) (S lbl) (acc ++ [mkGroup c f m])) as [IH1 _].
        { intros g Hg. apply in_app_or in Hg as [Hg|[<-|[]]].
          - apply Hacc in Hg. lia.
          - simpl. lia. }
        rewrite IH1, <- app_assoc. reflexivity.
Qed.

Lemma groupby_nan_pairs (vs : list cell) (lbl : nat) :
  groupby_first_size
    (select (map isna vs) (cumsum (map negb (map isna vs))))
    (select (map isna vs) (seq lbl (length vs)))
  = run_groups false 0 lbl vs.
Proof.
  unfold groupby_first_size, cumsum. rewrite select_nan_pairs.
  destruct (fold_insert_run_groups vs 0 lbl []) as [H _]; [intros g []|].
  exact H.
Qed.

(** ** Writing the groups into the output column *)

Lemma set_at_app (v x : cell) (pre r : list cell) :
  set_at (length pre) v (pre ++ x :: r) = pre ++ v :: r.
Proof. induction pre as [|y pre IH]; simpl; [reflexivity | now rewrite IH]. Qed.

Lemma scatter_run_groups (vs : list cell) :
  forall (b : bool) (c : nat) (pre post : list cell),
    scatter (map (fun g => (g_first g, float_of_nat (g_size g)))
                 (run_groups b c (length pre) vs))
            (pre ++ repeat NaN (length vs) ++ post)
    = pre ++ run_cells b vs ++ post.
Proof.
  induction vs as [|v vs IH]; intros b c pre post; [reflexivity|].
  assert (Hstep : forall (x : cell) b' c',
             scatter (map (fun g => (g_first g, float_of_nat (g_size g)))
                          (run_groups b' c' (S (length pre)) vs))
                     (pre ++ x :: repeat NaN (length vs) ++ post)
             = pre ++ x :: run_cells b' vs ++ post).
  { intros x b' c'. specialize (IH b' c' (pre ++ [x]) post).
    rewrite length_app, Nat.add_1_r, <- !app_assoc in IH. exact IH. }
  simpl run_groups. simpl run_cells. simpl length. simpl repeat.
  destruct v as [|q]; simpl isna; cbv iota.
  - destruct b; simpl negb; simpl andb; cbv iota.
    + apply Hstep.
    + simpl map. unfold scatter. simpl fold_left.
      rewrite set_at_app. apply Hstep.
  - apply Hstep.
Qed.

Lemma find_contiguous_nan_column_span (col : list cell) (a c : nat) (vs : list cell) :
  valid_span (column_series col) = labelled a vs ->
  find_contiguous_nan_column (a + length vs + c) col
  = repeat NaN a ++ run_cells false vs ++ repeat NaN c.
Proof.
  intros Hspan. unfold find_contiguous_nan_column. rewrite Hspan.
  rewrite values_labelled, index_labelled, groupby_nan_pairs.
  rewrite <- Nat.add_assoc, !repeat_app.
  rewrite <- (repeat_length NaN a) at 1. apply scatter_run_groups.
Qed.

(** ** Runs, cell by cell *)

Lemma nth_run_cells (vs : list cell) :
  forall (b : bool) (i : nat),
    i < length vs ->
    nth i (run_cells b vs) NaN
    = if isna (nth i vs (Num 0%Qc))
         && negb (match i with O => b | S j => isna (nth j vs NaN) end)
      then float_of_nat (S (nan_prefix_length (skipn (S i) vs)))
      else NaN.
Proof.
  induction vs as [|v vs IH]; intros b i Hi; [simpl in Hi; lia|].
  destruct i as [|i]; [reflexivity|].
  simpl in Hi. simpl run_cells. cbn [nth]. rewrite IH by lia.
  destruct i as [|i]; reflexivity.
Qed.

Lemma nan_prefix_length_app (l m : list cell) :
  existsb notna l = true -> nan_prefix_length (l ++ m) = nan_prefix_length l.
Proof.
  induction l as [|[|q] l IH]; simpl; intros H; try congruence.
  f_equal. apply IH, H.
Qed.

Lemma nan_prefix_length_repeat (n : nat) (x : cell) (l : list cell) :
  isna x = false -> nan_prefix_length (repeat NaN n ++ x :: l) = n.
Proof.
  intros Hx. induction n as [|n IH]; simpl.
  - destruct x; [discriminate | reflexivity].
  - f_equal. exact IH.
Qed.

Lemma existsb_notna_skipn (l : list cell) (y : cell) (k : nat) :
  isna y = false -> k <= length l -> existsb notna (skipn k (l ++ [y])) = true.
Proof.
  intros Hy. revert k. induction l as [|x l IH]; intros k Hk.
  - simpl in Hk. replace k with 0 by lia. simpl. unfold notna. now rewrite Hy.
  - destruct k as [|k].
    + simpl. apply orb_true_iff. right.
      apply (IH 0). lia.
    + simpl. apply IH. simpl in Hk. lia.
Qed.

Lemma nth_last_app (l : list cell) (y d : cell) : nth (length l) (l ++ [y]) d = y.
Proof. rewrite app_nth2, Nat.sub_diag by lia. reflexivity. Qed.

Lemma span_decomp_spec (col : list cell) (a c : nat) (vs : list cell) :
  span_decomp col a vs c -> span_start col = a /\ observed_span col = vs.
Proof.
  intros (Hcol & (x & r & Hx & Hnx) & (l & y & Hl & Hny)).
  unfold span_start, observed_span. split.
  - rewrite Hcol, Hx. simpl app. now apply nan_prefix_length_repeat.
  - rewrite Hcol, drop_na_repeat.
    assert (D : drop_na (vs ++ repeat NaN c) = vs ++ repeat NaN c).
    { rewrite Hx. simpl. destruct x; [discriminate | reflexivity]. }
    rewrite D, rev_app_distr, rev_repeat_nan, drop_na_repeat.
    rewrite Hl, rev_app_distr. simpl.
    destruct y; [discriminate|]. simpl. now rewrite rev_involutive.
Qed.

(** The output column of [find_contiguous_nan] on a column with an observed
    value, cell by cell. *)
Lemma find_contiguous_nan_column_cells (col : list cell) :
  existsb notna col = true ->
  length (find_contiguous_nan_column (length col) col) = length col
  /\ forall p, p < length col ->
       nth p (find_contiguous_nan_column (length col) col) NaN = gap_run_spec col p.
Proof.
  intros Hex. pose proof (observed_span_decomp col Hex) as D.
  set (a := span_start col) in *. set (vs := observed_span col) in *.
  set (c := nan_prefix_length (rev (drop_na col))) in *.
  destruct (span_decomp_length _ _ _ _ D) as [Hlen Hpos].
  pose proof (valid_span_decomp _ _ _ _ D) as Hspan.
  rewrite Hlen, (find_contiguous_nan_column_span col a c vs Hspan).
  split.
  { rewrite !length_app, !repeat_length.
    assert (L : forall b l, length (run_cells b l) = length l).
    { intros b l. revert b. induction l as [|x l IH]; intros b; simpl; auto. }
    rewrite L. lia. }
  intros p Hp. unfold gap_run_spec, in_observed_span. fold a. fold vs.
  destruct D as (Hcol & (x & r & Hx & Hnx) & (l & y & Hl & Hny)).
  destruct (Nat.ltb_spec p a) as [Hpa|Hpa].
  { rewrite app_nth1 by (rewrite repeat_length; lia).
    rewrite nth_repeat. destruct (Nat.leb_spec a p); [lia | reflexivity]. }
  rewrite app_nth2 by (rewrite repeat_length; lia). rewrite repeat_length.
  destruct (Nat.leb_spec a p) as [_|]; [|lia].
  destruct (Nat.ltb_spec p (a + length vs)) as [Hpv|Hpv].
  2:{ assert (Lr : forall b l', length (run_cells b l') = length l').
      { intros b l'. revert b. induction l' as [|z l' IH]; intros b; simpl; auto. }
      rewrite app_nth2 by (rewrite Lr; lia). rewrite nth_repeat. reflexivity. }
  assert (Lr : forall b l', length (run_cells b l') = length l').
  { intros b l'. revert b. induction l' as [|z l' IH]; intros b; simpl; auto. }
  rewrite app_nth1 by (rewrite Lr; lia).
  rewrite nth_run_cells by lia. simpl andb.
  assert (Hnth : forall q d, a <= q < a + length vs -> nth q col d = nth (q - a) vs d).
  { intros q d Hq. rewrite Hcol. rewrite app_nth2 by (rewrite repeat_length; lia).
    rewrite repeat_length. apply app_nth1. lia. }
  unfold starts_run. rewrite Hnth by lia.
  destruct (p - a) as [|i] eqn:Ei.
  - (* first row of the span: an observed value *)
    rewrite Hx. simpl. rewrite Hnx. reflexivity.
  - assert (Ep : p = S (a + i)) by lia. subst p.
    rewrite Hnth by lia. replace (a + i - a) with i by lia. unfold notna.
    destruct (isna (nth (S i) vs (Num 0%Qc))) eqn:Ena; [|reflexivity].
    destruct (isna (nth i vs NaN)); [reflexivity|]. cbn [negb andb].
    apply (f_equal float_of_nat). unfold run_length.
    (* the run ends inside the span, whose last value is observed *)
    assert (Hi : S i < length l).
    { rewrite Hl, length_app in Hpv. simpl in Hpv.
      assert (S i <> length l); [|lia].
      intros E. rewrite Hl, E, nth_last_app in Ena. congruence. }
    assert (Hskip : skipn (S (a + i)) col = skipn (S i) vs ++ repeat NaN c).
    { rewrite Hcol. rewrite skipn_app, repeat_length.
      rewrite skipn_all2 by (rewrite repeat_length; lia). rewrite app_nil_l.
      replace (S (a + i) - a) with (S i) by lia.
      rewrite skipn_app. f_equal.
      replace (S i - length vs) with 0; [reflexivity|].
      rewrite Hl, length_app. change (length [y]) with 1. lia. }
    rewrite Hskip.
    assert (Hsk : skipn (S i) vs = nth (S i) vs (Num 0%Qc) :: skipn (S (S i)) vs).
    { assert (G : forall (k : nat) (w : list cell) d,
                 k < length w -> skipn k w = nth k w d :: skipn (S k) w).
      { intros k. induction k as [|k IHk]; intros [|z w] d Hk; simpl in Hk; try lia.
        - reflexivity.
        - simpl. apply IHk. lia. }
      apply G. rewrite Hl, length_app. simpl. lia. }
    rewrite Hsk. destruct (nth (S i) vs (Num 0%Qc)); [|discriminate].
    cbn [app nan_prefix_length]. f_equal. symmetry. apply nan_prefix_length_app.
    rewrite Hl. apply existsb_notna_skipn; [exact Hny | lia].
Qed.

(** ** Totals and percentages *)

Lemma recorded_total_app (l m : list cell) :
  recorded_total (l ++ m) = (recorded_total l + recorded_total m)%Qc.
Proof.
  induction l as [|[|q] l IH]; simpl.
  - now rewrite Qcplus_0_l.
  - exact IH.
  - rewrite IH. apply Qcplus_assoc.
Qed.

Lemma recorded_total_nan (n : nat) : recorded_total (repeat NaN n) = 0%Qc.
Proof. induction n as [|n IH]; [reflexivity | exact IH]. Qed.

Lemma nan_prefix_le_count (l : list cell) : nan_prefix_length l <= count_missing l.
Proof.
  unfold count_missing. induction l as [|[|q] l IH]; simpl; lia.
Qed.

Lemma recorded_total_run_cells (vs : list cell) (b : bool) :
  recorded_total (run_cells b vs)
  = Qc_of_nat (count_missing vs - (if b then nan_prefix_length vs else 0)).
Proof.
  revert b. induction vs as [|[|q] vs IH]; intros b.
  - simpl. destruct b; symmetry; apply Qc_of_nat_0.
  - pose proof (nan_prefix_le_count vs) as Hle.
    simpl run_cells. change (count_missing (NaN :: vs)) with (S (count_missing vs)).
    change (nan_prefix_length (NaN :: vs)) with (S (nan_prefix_length vs)).
    destruct b; cbn [isna negb andb].
    + simpl recorded_total. rewrite IH. apply f_equal. lia.
    + unfold float_of_nat. simpl recorded_total. rewrite IH, <- Qc_of_nat_add.
      apply f_equal. lia.
  - simpl run_cells. simpl recorded_total. rewrite IH.
    change (count_missing (Num q :: vs)) with (count_missing vs).
    apply f_equal. destruct b; simpl; lia.
Qed.

Lemma find_contiguous_nan_column_total (col : list cell) :
  existsb notna col = true ->
  recorded_total (find_contiguous_nan_column (length col) col)
  = Qc_of_nat (count_missing (observed_span col)).
Proof.
  intros Hex. pose proof (observed_span_decomp col Hex) as D.
  destruct (span_decomp_length _ _ _ _ D) as [Hlen _].
  rewrite Hlen, (find_contiguous_nan_column_span col _ _ _ (valid_span_decomp _ _ _ _ D)).
  rewrite !recorded_total_app, !recorded_total_nan, recorded_total_run_cells.
  rewrite Qcplus_0_l, Qcplus_0_r, Nat.sub_0_r. reflexivity.
Qed.

Lemma count_true_isna (l : list cell) : count_true (map isna l) = count_missing l.
Proof.
  unfold count_true, count_missing.
  induction l as [|x l IH]; [reflexivity|].
  simpl. destruct (isna x); simpl; now rewrite IH.
Qed.

Lemma count_missing_le (l : list cell) : count_missing l <= length l.
Proof. apply filter_length_le. Qed.

Lemma observed_span_nonempty (col : list cell) :
  observed_span col <> [] -> existsb notna col = true.
Proof.
  intros H. destruct (existsb notna col) eqn:E; [reflexivity|].
  now apply observed_span_all_nan in E.
Qed.

Lemma pc_nan_column_spec (col : list cell) :
  observed_span col <> [] ->
  pc_nan_column col
  = Num (rounded_percentage (count_missing (observed_span col))
                            (length (observed_span col))).
Proof.
  intros Hne. pose proof (observed_span_decomp col (observed_span_nonempty col Hne)) as D.
  unfold pc_nan_column. rewrite (valid_span_decomp _ _ _ _ D).
  rewrite values_labelled, length_labelled, count_true_isna, percent_of_counts.
  destruct (observed_span col); [congruence | reflexivity].
Qed.

(** ** Claims on [find_contiguous_nan] and [pc_nan] *)

Lemma wf_frame_column {A : Type} (df : Frame A) (j : nat) (col : list A) :
  wf_frame df -> nth_error (columns df) j = Some col -> length col = nrows df.
Proof.
  intros Hwf Hj. apply nth_error_In in Hj.
  unfold wf_frame in Hwf. rewrite Forall_forall in Hwf. now apply Hwf.
Qed.

(** C2, amended: for every table and every column of it with at least one
    non-missing value, [find_contiguous_nan] returns a table of the same
    shape whose column holds the missing marker outside the ObservedSpan and
    at the rows of the span that do not start a maximal run of missing
    values, and the length of the run at each row that starts one. *)
Theorem find_contiguous_nan_runs (df : DataFrame) (j : nat) (col : list cell) :
  wf_frame df ->
  nth_error (columns df) j = Some col ->
  existsb notna col = true ->
  nrows (find_contiguous_nan df) = nrows df
  /\ length (columns (find_contiguous_nan df)) = length (columns df)
  /\ exists out,
       nth_error (columns (find_contiguous_nan df)) j = Some out
       /\ length out = nrows df
       /\ forall p, p < nrows df -> nth p out NaN = gap_run_spec col p.
Proof.
  intros Hwf Hj Hex. pose proof (wf_frame_column df j col Hwf Hj) as Hlen.
  unfold find_contiguous_nan. simpl. split; [reflexivity|].
  split; [apply length_map|].
  exists (find_contiguous_nan_column (nrows df) col).
  rewrite nth_error_map, Hj, <- Hlen. split; [reflexivity|].
  apply find_contiguous_nan_column_cells, Hex.
Qed.

Lemma find_contiguous_nan_runs_witness :
  wf_frame docstring_frame
  /\ nth_error (columns docstring_frame) 0 = Some docstring_c1
  /\ existsb notna docstring_c1 = true
  /\ exists out,
       nth_error (columns (find_contiguous_nan docstring_frame)) 0 = Some out
       /\ length out = 10
       /\ forall p, p < 10 -> nth p out NaN = gap_run_spec docstring_c1 p.
Proof.
  assert (Hwf : wf_frame docstring_frame) by (repeat constructor).
  split; [exact Hwf|]. split; [reflexivity|]. split; [reflexivity|].
  exact (proj2 (proj2 (find_contiguous_nan_runs docstring_frame 0 docstring_c1
                         Hwf eq_refl eq_refl))).
Defined.

(** C2 fails on a column without any observed value: its ObservedSpan is
    empty, yet the code records one run as long as the column at row 0. *)
Lemma find_contiguous_nan_all_missing_column :
  wf_frame (mkFrame 2 [[NaN; NaN]])
  /\ columns (find_contiguous_nan (mkFrame 2 [[NaN; NaN]])) = [[float_of_nat 2; NaN]]
  /\ observed_span [NaN; NaN] = []
  /\ gap_run_spec [NaN; NaN] 0 = NaN
  /\ float_of_nat 2 <> gap_run_spec [NaN; NaN] 0.
Proof.
  split; [repeat constructor|]. split.
  { reflexivity. }
  split; [reflexivity|]. split; [reflexivity|]. discriminate.
Qed.

(** C7, amended: for every table and every column of it with at least one
    non-missing value, the run lengths that [find_contiguous_nan] records in
    the column add up to the number of missing entries of the column's
    ObservedSpan. *)
Theorem find_contiguous_nan_total (df : DataFrame) (j : nat) (col : list cell) :
  wf_frame df ->
  nth_error (columns df) j = Some col ->
  existsb notna col = true ->
  exists out,
    nth_error (columns (find_contiguous_nan df)) j = Some out
    /\ recorded_total out = Qc_of_nat (count_missing (observed_span col)).
Proof.
  intros Hwf Hj Hex. pose proof (wf_frame_column df j col Hwf Hj) as Hlen.
  exists (find_contiguous_nan_column (nrows df) col).
  unfold find_contiguous_nan. simpl. rewrite nth_error_map, Hj, <- Hlen.
  split; [reflexivity|]. apply find_contiguous_nan_column_total, Hex.
Qed.

Lemma find_contiguous_nan_total_witness :
  wf_frame docstring_frame
  /\ nth_error (columns docstring_frame) 1 = Some docstring_c2
  /\ existsb notna docstring_c2 = true
  /\ exists out,
       nth_error (columns (find_contiguous_nan docstring_frame)) 1 = Some out
       /\ recorded_total out = Qc_of_nat (count_missing (observed_span docstring_c2)).
Proof.
  assert (Hwf : wf_frame docstring_frame) by (repeat constructor).
  split; [exact Hwf|]. split; [reflexivity|]. split; [reflexivity|].
  exact (find_contiguous_nan_total docstring_frame 1 docstring_c2 Hwf eq_refl eq_refl).
Defined.

(** C7 fails on a column without any observed value: the recorded lengths
    add up to the length of the column, the ObservedSpan has no entry. *)
Lemma find_contiguous_nan_total_all_missing :
  recorded_total (nth 0 (columns (find_contiguous_nan (mkFrame 2 [[NaN; NaN]]))) [])
  = Qc_of_nat 2
  /\ count_missing (observed_span [NaN; NaN]) = 0
  /\ Qc_of_nat 2 <> Qc_of_nat 0.
Proof.
  split; [apply Qc_is_canon; vm_compute; reflexivity|].
  split; [reflexivity|].
  apply Qc_eq_bool_false. vm_compute. reflexivity.
Qed.

(** C8, amended: for every table and every column of it whose ObservedSpan
    is not empty, [pc_nan] returns the quotient of the number of missing
    entries of the span by the length of the span, times 100, as binary64
    arithmetic evaluates it: the quotient is rounded, and so is its product
    by 100.  The result is the exact percentage within two roundings, it
    lies between 0 and 100 and it is 0 exactly when the span has no missing
    entry. *)
Theorem pc_nan_percentage (df : DataFrame) (j : nat) (col : list cell) :
  nth_error (columns df) j = Some col ->
  observed_span col <> [] ->
  exists q,
    nth_error (pc_nan df) j = Some (Num q)
    /\ q = rnd (rnd (Qc_of_nat (count_missing (observed_span col))
                     / Qc_of_nat (length (observed_span col)))
                * Qc_of_nat 100)
    /\ within_rounding 2 q (missing_percentage col) (missing_percentage col)
    /\ (0 <= q)%Qc
    /\ (q <= Qc_of_nat 100)%Qc
    /\ (q = 0%Qc <-> count_missing (observed_span col) = 0).
Proof.
  intros Hj Hne.
  assert (Hpos : 1 <= length (observed_span col)).
  { destruct (observed_span col); [congruence | simpl; lia]. }
  exists (rounded_percentage (count_missing (observed_span col))
                             (length (observed_span col))).
  split.
  { unfold pc_nan. rewrite nth_error_map, Hj. simpl. f_equal.
    apply pc_nan_column_spec, Hne. }
  split; [reflexivity|].
  split; [now apply rounded_percentage_within|].
  destruct (rounded_percentage_range _ _ (count_missing_le (observed_span col)) Hpos)
    as [H0 H1].
  split; [exact H0|]. split; [exact H1|].
  now apply rounded_percentage_eq0.
Qed.

Lemma pc_nan_percentage_witness :
  nth_error (columns docstring_frame) 1 = Some docstring_c2
  /\ observed_span docstring_c2 <> []
  /\ exists q,
       nth_error (pc_nan docstring_frame) 1 = Some (Num q)
       /\ within_rounding 2 q (missing_percentage docstring_c2)
                          (missing_percentage docstring_c2)
       /\ (0 <= q)%Qc /\ (q <= Qc_of_nat 100)%Qc.
Proof.
  assert (Hne : observed_span docstring_c2 <> []) by (vm_compute; discriminate).
  split; [reflexivity|]. split; [exact Hne|].
  destruct (pc_nan_percentage docstring_frame 1 docstring_c2 eq_refl Hne)
    as (q & H1 & _ & H2 & H3 & H4 & _).
  exists q. split; [exact H1|]. split; [exact H2|]. split; assumption.
Defined.

(** C8 fails as stated: the second column of the docstring table has one
    missing entry among the seven of its span; [pc_nan] returns the
    binary64 number 14.285714285714285..., which is not 100/7, nor the
    binary64 number nearest to 100/7. *)
Lemma pc_nan_one_seventh :
  count_missing (observed_span docstring_c2) = 1
  /\ length (observed_span docstring_c2) = 7
  /\ missing_percentage docstring_c2 = Q2Qc (100 # 7)
  /\ nth_error (pc_nan docstring_frame) 1
     = Some (Num (Q2Qc (2010535547933257 # 140737488355328)))
  /\ Q2Qc (2010535547933257 # 140737488355328) <> Q2Qc (100 # 7)
  /\ Q2Qc (2010535547933257 # 140737488355328) <> rnd (Q2Qc (100 # 7)).
Proof.
  split; [reflexivity|]. split; [reflexivity|].
  split; [apply Qc_is_canon; vm_compute; reflexivity|].
  split.
  { assert (E : cells_eqb (skipn 1 (pc_nan docstring_frame))
                          [Num (Q2Qc (2010535547933257 # 140737488355328))]
                = true) by (vm_compute; reflexivity).
    apply cells_eqb_eq in E. rewrite <- (firstn_skipn 1 (pc_nan docstring_frame)), E.
    reflexivity. }
  split; apply Qc_eq_bool_false; vm_compute; reflexivity.
Qed.

(** ** Moving average *)

Lemma py_slice_from_nat {A : Type} (k : nat) (l : list A) :
  py_slice_from (Z.of_nat k) l = skipn k l.
Proof.
  unfold py_slice_from.
  destruct (Z.ltb_spec (Z.of_nat k) 0) as [H|_]; [lia|].
  destruct (Nat.le_gt_cases k (length l)) as [H|H].
  - f_equal. lia.
  - rewrite !skipn_all2 by lia. reflexivity.
Qed.

Lemma py_slice_from_pred {A : Type} (w : nat) (l : list A) :
  1 <= w -> py_slice_from (Z.of_nat w - 1) l = skipn (w - 1) l.
Proof.
  intros H. replace (Z.of_nat w - 1)%Z with (Z.of_nat (w - 1)) by lia.
  apply py_slice_from_nat.
Qed.

Lemma np_ones_nat (w : nat) : np_ones (Z.of_nat w) = Ok (repeat (Num 1%Qc) w).
Proof.
  unfold np_ones. destruct (Z.ltb_spec (Z.of_nat w) 0) as [H|_]; [lia|].
  now rewrite Nat2Z.id.
Qed.

Lemma np_convolve_valid_ok (a v : list cell) :
  v <> [] -> length v <= length a ->
  np_convolve_valid a v = Ok (correlate_valid a (rev v)).
Proof.
  intros Hv Hle. unfold np_convolve_valid.
  destruct (Nat.ltb_spec (length a) (length v)) as [H|_]; [lia|].
  destruct a as [|x a]; [destruct v; [congruence | simpl in Hle; lia]|].
  destruct v; [congruence | reflexivity].
Qed.

Lemma numbers_map_Num (qs : list Qc) : numbers (map Num qs) = Some qs.
Proof. induction qs as [|q r IH]; simpl; [reflexivity | now rewrite IH]. Qed.

Lemma window_map {A B : Type} (f : A -> B) (i w : nat) (l : list A) :
  window i w (map f l) = map f (window i w l).
Proof. unfold window. now rewrite skipn_map, firstn_map. Qed.

(** The sum of products with a constant weight, on cells. *)
Lemma dot_from_window (k : Qc) (n : nat) :
  forall (xs : list cell) (acc : cell),
    n <= length xs ->
    dot_from acc xs (repeat (Num k) n)
    = match acc, numbers (firstn n xs) with
      | Num a, Some qs => Num (rounded_sum k a qs)
      | _, _ => NaN
      end.
Proof.
  induction n as [|n IH]; intros xs acc Hn.
  - cbn [repeat firstn numbers rounded_sum]. destruct xs, acc; reflexivity.
  - destruct xs as [|x xs]; [simpl in Hn; lia|].
    cbn [repeat dot_from firstn]. rewrite IH by (simpl in Hn; lia).
    destruct acc as [|a]; [reflexivity|].
    destruct x as [|q]; [cbn [fmul fadd numbers]; reflexivity|].
    cbn [fmul fadd numbers]. destruct (numbers (firstn n xs)); reflexivity.
Qed.

Lemma correlate_window (w : nat) (c : list cell) :
  w <= length c ->
  correlate_valid c (repeat (Num (rnd (1 / Qc_of_nat w))) w)
  = map (fun i => rounded_mean w (window i w c)) (seq 0 (length c - w + 1)).
Proof.
  intros Hw. unfold correlate_valid. rewrite repeat_length.
  apply map_ext_in. intros i Hi. apply in_seq in Hi.
  unfold dot. rewrite dot_from_window by (rewrite length_skipn; lia).
  reflexivity.
Qed.

Lemma correlate_constant (w : nat) (xs : list Qc) :
  w <= length xs ->
  correlate_valid (map Num xs) (repeat (Num (rnd (1 / Qc_of_nat w))) w)
  = map (fun i => Num (rounded_sum (rnd (1 / Qc_of_nat w)) 0%Qc (window i w xs)))
        (seq 0 (length xs - w + 1)).
Proof.
  intros Hw. rewrite correlate_window, length_map by (rewrite length_map; lia).
  apply map_ext. intros i. unfold rounded_mean.
  now rewrite window_map, numbers_map_Num.
Qed.

Lemma length_window {A : Type} (i w : nat) (l : list A) :
  i + w <= length l -> length (window i w l) = w.
Proof.
  intros H. unfold window. rewrite length_firstn, length_skipn. lia.
Qed.

Lemma values_combine (idx : list nat) (v : list cell) :
  length idx = length v -> values (combine idx v) = v /\ index (combine idx v) = idx.
Proof.
  revert v. induction idx as [|t idx IH]; intros [|x v] H; simpl in H; try lia.
  - split; reflexivity.
  - injection H as H. destruct (IH v H) as [H1 H2]. simpl. now rewrite H1, H2.
Qed.

(** The kernel of [rolling_mean_ts]: [1/len(filter) * filter]. *)
Lemma scaled_ones (w : nat) :
  map (fmul (Num (rnd (1 / Qc_of_nat w)))) (repeat (Num 1%Qc) w)
  = repeat (Num (rnd (1 / Qc_of_nat w))) w.
Proof. rewrite map_repeat. cbn [fmul]. now rewrite Qcmult_1_r, rnd_idem. Qed.

Lemma length_index_values (ts : Series) : length (index ts) = length (values ts).
Proof. unfold index, values. now rewrite !length_map. Qed.

(** [rolling_mean_ts] with a window that fits in the series. *)
Lemma rolling_mean_ts_window_fits (ts : Series) (w : nat) :
  1 <= w <= length ts ->
  rolling_mean_ts ts (Z.of_nat w)
  = Ok (combine (skipn (w - 1) (index ts))
                (map (fun i => rounded_mean w (window i w (values ts)))
                     (seq 0 (length ts - w + 1)))).
Proof.
  intros Hw. unfold rolling_mean_ts.
  rewrite np_ones_nat. cbn [bind]. rewrite repeat_length.
  destruct w as [|w']; [lia|]. set (w := S w') in *.
  assert (Hinv : py_inv w = Ok (Num (rnd (1 / Qc_of_nat w)))) by reflexivity.
  rewrite Hinv. cbn [bind]. rewrite scaled_ones.
  assert (Hlv : length (values ts) = length ts) by apply length_map.
  rewrite np_convolve_valid_ok.
  2:{ unfold w. simpl. discriminate. }
  2:{ rewrite repeat_length, Hlv. lia. }
  cbn [bind]. rewrite rev_repeat, correlate_window by lia.
  unfold set_all. rewrite py_slice_from_pred by lia.
  rewrite length_skipn, length_map, length_seq, length_index_values, Hlv.
  replace (length ts - (w - 1) =? length ts - w + 1) with true
    by (symmetry; apply Nat.eqb_eq; lia).
  reflexivity.
Qed.


Lemma mapM_ok {A B : Type} (f : A -> result B) (g : A -> B) (l : list A) :
  (forall x, In x l -> f x = Ok (g x)) -> mapM f l = Ok (map g l).
Proof.
  induction l as [|x l IH]; intros H; [reflexivity|].
  simpl. rewrite (H x) by now left. cbn [bind].
  rewrite IH by (intros y Hy; apply H; now right). reflexivity.
Qed.

Lemma map2_map {A B C D : Type} (h : B -> C -> D) (f : A -> B) (g : A -> C)
      (l : list A) :
  map2 h (map f l) (map g l) = map (fun x => h (f x) (g x)) l.
Proof. induction l as [|x l IH]; simpl; [reflexivity | now rewrite IH]. Qed.

Lemma scatter_seq (v : list cell) :
  forall pre old post : list cell,
    length old = length v ->
    scatter (combine (seq (length pre) (length v)) v) (pre ++ old ++ post)
    = pre ++ v ++ post.
Proof.
  induction v as [|x v IH]; intros pre old post Hlen.
  - destruct old; [reflexivity | discriminate].
  - destruct old as [|o old]; [discriminate|]. injection Hlen as Hlen.
    simpl length. simpl seq. simpl combine. unfold scatter. simpl fold_left.
    simpl app. rewrite set_at_app.
    specialize (IH (pre ++ [x]) old post Hlen).
    rewrite length_app, Nat.add_1_r, <- !app_assoc in IH. exact IH.
Qed.

Lemma length_correlate_valid (a w : list cell) :
  length (correlate_valid a w) = length a - length w + 1.
Proof. unfold correlate_valid. now rewrite length_map, length_seq. Qed.

Lemma Qc_of_nat_neq0 (w : nat) : 1 <= w -> Qc_eq_bool (Qc_of_nat w) 0%Qc = false.
Proof.
  intros H. apply Qc_eq_bool_false. intros E. apply Qc_of_nat_eq0 in E. lia.
Qed.

Lemma unit_kernel (w : nat) :
  1 <= w ->
  map (fun x => fdiv x (float_of_Z (Z.of_nat w))) (repeat (Num 1%Qc) w)
  = repeat (Num (rnd (1 / Qc_of_nat w))) w.
Proof.
  intros Hw. rewrite map_repeat. f_equal.
  unfold float_of_Z, fdiv. fold (Qc_of_nat w). now rewrite Qc_of_nat_neq0 by lia.
Qed.

(** [rolling_mean_df] with a window that fits in the frame: every column
    is [w-1] missing markers followed by its valid convolution with the
    constant kernel [1/w]. *)
Lemma rolling_mean_df_fits (pandas : empty_setitem) (df : DataFrame) (w : nat) :
  wf_frame df -> 1 <= w <= nrows df ->
  rolling_mean_df pandas df (Z.of_nat w)
  = Ok (mkFrame (nrows df)
          (map (fun c => repeat NaN (w - 1)
                         ++ correlate_valid c (repeat (Num (rnd (1 / Qc_of_nat w))) w))
               (columns df))).
Proof.
  intros Hwf Hw. unfold rolling_mean_df.
  rewrite np_ones_nat. cbn [bind]. rewrite unit_kernel by lia.
  set (kernel := repeat (Num (rnd (1 / Qc_of_nat w))) w).
  assert (Hker : length kernel = w) by apply repeat_length.
  unfold apply_columns.
  replace (nrows df =? 0) with false by (symmetry; apply Nat.eqb_neq; lia).
  destruct (columns df) as [|c0 cs] eqn:Ecols; [reflexivity|].
  rewrite <- Ecols.
  assert (Hne : columns df <> []) by (rewrite Ecols; discriminate).
  replace (length (columns df) =? 0) with false
    by (rewrite Ecols; reflexivity).
  cbn [orb].
  rewrite (mapM_ok _ (fun c => correlate_valid c kernel)).
  2:{ intros c Hc. unfold wf_frame in Hwf. rewrite Forall_forall in Hwf.
      rewrite np_convolve_valid_ok.
      - unfold kernel. now rewrite rev_repeat.
      - intros E. rewrite E in Hker. simpl in Hker. lia.
      - rewrite Hker, (Hwf c Hc). lia. }
  cbn [bind]. unfold loc_set_rows, frame_index. cbn [nrows columns].
  rewrite length_map.
  replace (length (columns df) =? 0) with false
    by (rewrite Ecols; reflexivity).
  rewrite py_slice_from_pred, skipn_seq by lia. simpl Nat.add.
  assert (Hhd : length (hd [] (map (fun c => correlate_valid c kernel) (columns df)))
                = nrows df - w + 1).
  { rewrite Ecols. simpl. rewrite length_correlate_valid, Hker.
    unfold wf_frame in Hwf. rewrite Ecols in Hwf.
    apply Forall_inv in Hwf. lia. }
  rewrite Hhd, length_seq.
  replace (nrows df - (w - 1) =? nrows df - w + 1) with true
    by (symmetry; apply Nat.eqb_eq; lia).
  f_equal. f_equal. rewrite map2_map. apply map_ext_in. intros c Hc.
  unfold wf_frame in Hwf. rewrite Forall_forall in Hwf.
  pose proof (length_correlate_valid c kernel) as Hlc.
  rewrite Hker, (Hwf c Hc) in Hlc.
  replace (nrows df - (w - 1)) with (length (correlate_valid c kernel)) by lia.
  replace (repeat NaN (nrows df))
    with (repeat NaN (w - 1) ++ repeat NaN (nrows df - w + 1) ++ []).
  2:{ rewrite app_nil_r, <- repeat_app. f_equal. lia. }
  rewrite <- (repeat_length NaN (w - 1)) at 1.
  rewrite scatter_seq by (rewrite repeat_length; lia).
  now rewrite app_nil_r.
Qed.

Lemma nth_map_seq {A : Type} (f : nat -> A) (a n i : nat) (d : A) :
  i < n -> nth i (map f (seq a n)) d = f (a + i).
Proof.
  intros Hi. rewrite (nth_indep _ d (f 0)) by (now rewrite length_map, length_seq).
  rewrite map_nth, seq_nth by exact Hi. reflexivity.
Qed.






(** ** A window longer than the data *)

Lemma np_convolve_valid_swap (a v : list cell) :
  length a < length v ->
  np_convolve_valid a v
  = match a with
    | [] => Raise ValueError
    | _ => Ok (correlate_valid v (rev a))
    end.
Proof.
  intros H. unfold np_convolve_valid.
  destruct (Nat.ltb_spec (length a) (length v)) as [_|H']; [|lia].
  destruct v as [|y v]; [simpl in H; lia|].
  destruct a; reflexivity.
Qed.

Lemma rolling_mean_ts_too_long (ts : Series) (w : nat) :
  length ts < w -> rolling_mean_ts ts (Z.of_nat w) = Raise ValueError.
Proof.
  intros H. unfold rolling_mean_ts.
  rewrite np_ones_nat. cbn [bind]. rewrite repeat_length.
  assert (Hinv : py_inv w = Ok (Num (rnd (1 / Qc_of_nat w))))
    by (destruct w; [lia | reflexivity]).
  rewrite Hinv. cbn [bind]. rewrite map_repeat.
  assert (Hlv : length (values ts) = length ts) by apply length_map.
  rewrite np_convolve_valid_swap by (rewrite repeat_length; lia).
  destruct (values ts) as [|x vs] eqn:E; [reflexivity|].
  cbn [bind]. unfold set_all.
  rewrite py_slice_from_pred by lia.
  rewrite skipn_all2 by (unfold index; rewrite length_map; lia).
  rewrite length_correlate_valid, repeat_length, length_rev.
  simpl length at 1.
  destruct (Nat.eqb_spec 0 (w - length (x :: vs) + 1)) as [H0|_]; [lia | reflexivity].
Qed.

Lemma rolling_mean_df_too_long (pandas : empty_setitem) (df : DataFrame) (w : nat) :
  wf_frame df -> columns df <> [] -> 1 <= nrows df < w ->
  rolling_mean_df pandas df (Z.of_nat w)
  = match pandas with
    | EmptySetitemIgnored =>
        Ok (mkFrame (nrows df) (map (fun _ => repeat NaN (nrows df)) (columns df)))
    | EmptySetitemRaises => Raise ValueError
    end.
Proof.
  intros Hwf Hne Hw. unfold rolling_mean_df.
  rewrite np_ones_nat. cbn [bind]. rewrite map_repeat.
  set (kernel := repeat _ w).
  assert (Hker : length kernel = w) by apply repeat_length.
  unfold apply_columns.
  replace (nrows df =? 0) with false by (symmetry; apply Nat.eqb_neq; lia).
  replace (length (columns df) =? 0) with false.
  2:{ symmetry. apply Nat.eqb_neq. destruct (columns df); [congruence | simpl; lia]. }
  cbn [orb].
  rewrite (mapM_ok _ (fun c => correlate_valid kernel (rev c))).
  2:{ intros c Hc. unfold wf_frame in Hwf. rewrite Forall_forall in Hwf.
      rewrite np_convolve_valid_swap by (rewrite Hker, (Hwf c Hc); lia).
      destruct c; [|reflexivity]. specialize (Hwf _ Hc). simpl in Hwf. lia. }
  cbn [bind]. unfold loc_set_rows, frame_index. cbn [nrows columns].
  rewrite length_map.
  replace (length (columns df) =? 0) with false.
  2:{ symmetry. apply Nat.eqb_neq. destruct (columns df); [congruence | simpl; lia]. }
  rewrite py_slice_from_pred by lia.
  rewrite skipn_all2 by (rewrite length_seq; lia).
  assert (Hhd : length (hd [] (map (fun c => correlate_valid kernel (rev c)) (columns df)))
                = w - nrows df + 1).
  { destruct (columns df) as [|c0 cs] eqn:E; [congruence|].
    simpl. rewrite length_correlate_valid, Hker, length_rev.
    unfold wf_frame in Hwf. rewrite E in Hwf. apply Forall_inv in Hwf. lia. }
  rewrite Hhd. simpl length.
  destruct (Nat.eqb_spec 0 (w - nrows df + 1)) as [H0|_]; [lia|].
  destruct pandas; reflexivity.
Qed.

(** C6, amended: for a column of length N >= 1 and a window length w > N,
    numpy's valid convolution returns w-N+1 values, not an empty result;
    [rolling_mean_ts] cannot store them under its empty index and fails
    with ValueError (as it does for N = 0); [rolling_mean_df] fails with
    ValueError too, or returns the all-missing table where pandas skips a
    write through an empty row selection. *)
Theorem moving_average_window_too_long (ts : Series) (df : DataFrame) (w : nat) :
  length ts < w ->
  wf_frame df ->
  columns df <> [] ->
  1 <= nrows df < w ->
  rolling_mean_ts ts (Z.of_nat w) = Raise ValueError
  /\ (ts <> [] ->
      forall kernel, length kernel = w ->
        exists ctmp, np_convolve_valid (values ts) kernel = Ok ctmp
                     /\ length ctmp = w - length ts + 1)
  /\ rolling_mean_df EmptySetitemRaises df (Z.of_nat w) = Raise ValueError
  /\ rolling_mean_df EmptySetitemIgnored df (Z.of_nat w)
     = Ok (mkFrame (nrows df) (map (fun _ => repeat NaN (nrows df)) (columns df))).
Proof.
  intros Hts Hwf Hne Hw. split; [now apply rolling_mean_ts_too_long|].
  split.
  { intros Hnil kernel Hk.
    assert (Hlv : length (values ts) = length ts) by apply length_map.
    rewrite np_convolve_valid_swap by lia.
    destruct (values ts) as [|x vs] eqn:E.
    - destruct ts; [congruence | discriminate].
    - eexists. split; [reflexivity|].
      rewrite length_correlate_valid, length_rev. lia. }
  split.
  - apply (rolling_mean_df_too_long EmptySetitemRaises df w Hwf Hne Hw).
  - apply (rolling_mean_df_too_long EmptySetitemIgnored df w Hwf Hne Hw).
Qed.

Lemma moving_average_window_too_long_witness :
  let ts := column_series [float_of_nat 1; float_of_nat 2] in
  let df := mkFrame 2 [[float_of_nat 1; float_of_nat 2]] in
  rolling_mean_ts ts 3 = Raise ValueError
  /\ (ts <> [] ->
      forall kernel, length kernel = 3 ->
        exists ctmp, np_convolve_valid (values ts) kernel = Ok ctmp
                     /\ length ctmp = 3 - length ts + 1)
  /\ rolling_mean_df EmptySetitemRaises df 3 = Raise ValueError
  /\ rolling_mean_df EmptySetitemIgnored df 3
     = Ok (mkFrame 2 [[NaN; NaN]]).
Proof.
  intros ts df.
  apply (moving_average_window_too_long ts df 3).
  - simpl. lia.
  - repeat constructor.
  - discriminate.
  - simpl. lia.
Defined.

(** C6 fails as stated: a window of 2 on a series of 1 value makes the
    convolution return 2 values, and [rolling_mean_ts] raises. *)
Lemma rolling_mean_ts_window_2_on_1_value :
  rolling_mean_ts [(0, float_of_nat 1)] 2 = Raise ValueError
  /\ exists a b,
       np_convolve_valid [float_of_nat 1] [float_of_nat 1; float_of_nat 1] = Ok [a; b].
Proof.
  split; [reflexivity|]. eexists. eexists. reflexivity.
Qed.

(** ** Missing values by window *)

Lemma py_index_raises {A : Type} (l : list A) (i : Z) (e : exn) :
  py_index l i = Raise e -> e = IndexError.
Proof.
  unfold py_index.
  destruct (_ && _)%bool; [destruct (nth_error _ _)|]; congruence.
Qed.

Lemma py_index_beyond {A : Type} (l : list A) (i : Z) :
  (Z.of_nat (length l) <= i)%Z -> py_index l i = Raise IndexError.
Proof.
  intros H. unfold py_index.
  destruct (Z.ltb_spec i 0) as [H0|_]; [lia|].
  destruct (Z.ltb_spec i (Z.of_nat (length l))) as [H1|_]; [lia|].
  now rewrite andb_false_r.
Qed.

Lemma length_column_series (col : list cell) : length (column_series col) = length col.
Proof. apply (length_labelled 0). Qed.

Lemma length_loc_assign_nan (a b : nat) (col : list cell) :
  length (loc_assign_nan a b col) = length col.
Proof. unfold loc_assign_nan. now rewrite length_map, length_column_series. Qed.

(** The loop body of [nan_by_window] never raises: every IndexError is
    caught. *)
Lemma mask_outside_total (w : Z) (idx : list nat) (col out : list cell) :
  exists o, mask_outside w idx col out = Ok o /\ length o = length out.
Proof.
  unfold mask_outside.
  destruct (py_index (index (valid_span (column_series col))) (w - 1)) as [i0|e] eqn:E0.
  2:{ apply py_index_raises in E0. subst e. cbn.
      eexists. split; [reflexivity | apply repeat_length]. }
  cbn [bind].
  destruct (py_index (index (valid_span (column_series col))) (-1)) as [i1|e] eqn:E1.
  2:{ apply py_index_raises in E1. subst e. cbn.
      eexists. split; [reflexivity | apply repeat_length]. }
  cbn [bind].
  destruct (py_index idx 0) as [first|e] eqn:E2.
  2:{ apply py_index_raises in E2. subst e. cbn.
      eexists. split; [reflexivity | apply repeat_length]. }
  cbn [bind].
  destruct (py_index idx (-1)) as [last|e] eqn:E3.
  2:{ apply py_index_raises in E3. subst e. cbn.
      eexists. split; [reflexivity | apply repeat_length]. }
  cbn [bind]. destruct (i1 <? last); cbn; eexists; (split; [reflexivity|]);
    now rewrite !length_loc_assign_nan.
Qed.

Lemma mask_outside_window_column (w n : nat) (col : list cell) :
  mask_outside (Z.of_nat w) (seq 0 n) col (scaled_counts w col)
  = Ok (window_column w n col).
Proof.
  unfold window_column.
  destruct (mask_outside_total (Z.of_nat w) (seq 0 n) col (scaled_counts w col))
    as (o & -> & _).
  reflexivity.
Qed.

Lemma mapM_combine_map {A B C : Type} (F : A -> B -> result C) (h : A -> B)
      (l : list A) :
  mapM (fun p => F (fst p) (snd p)) (combine l (map h l))
  = mapM (fun c => F c (h c)) l.
Proof. induction l as [|x l IH]; simpl; [reflexivity | now rewrite IH]. Qed.

Lemma wf_frame_isna (df : DataFrame) : wf_frame df -> wf_frame (frame_isna df).
Proof.
  unfold wf_frame, frame_isna. cbn [nrows columns]. intros H.
  apply Forall_map. revert H. apply Forall_impl. intros c Hc. now rewrite length_map.
Qed.

(** [nan_by_window] with a window that fits in the table: it does not
    raise, and each output column is computed from the input column at the
    same place. *)
Lemma nan_by_window_fits (pandas : empty_setitem) (df : DataFrame) (w : nat) :
  wf_frame df -> 1 <= w <= nrows df ->
  nan_by_window pandas df (Z.of_nat w)
  = Ok (mkFrame (nrows df) (map (window_column w (nrows df)) (columns df))).
Proof.
  intros Hwf Hw. unfold nan_by_window.
  rewrite rolling_mean_df_fits.
  - cbn [bind frame_scale frame_isna nrows columns frame_index].
    rewrite !map_map. rewrite (mapM_combine_map
      (fun c o => mask_outside (Z.of_nat w) (seq 0 (nrows df)) c o)
      (scaled_counts w)).
    rewrite (mapM_ok _ (window_column w (nrows df))); [reflexivity|].
    intros c _. apply mask_outside_window_column.
  - apply wf_frame_isna, Hwf.
  - exact Hw.
Qed.

Lemma window_column_short_span (w n : nat) (col : list cell) :
  existsb notna col = true ->
  length (observed_span col) < w ->
  window_column w n col = repeat NaN (length (scaled_counts w col)).
Proof.
  intros Hex Hshort. pose proof (observed_span_decomp col Hex) as D.
  unfold window_column, mask_outside.
  rewrite (valid_span_decomp _ _ _ _ D), index_labelled.
  rewrite py_index_beyond by (rewrite length_seq; lia).
  reflexivity.
Qed.

Lemma length_scaled_counts (w : nat) (col : list cell) :
  1 <= w <= length col -> length (scaled_counts w col) = length col.
Proof.
  intros H. unfold scaled_counts.
  rewrite length_map, length_app, repeat_length, length_correlate_valid.
  rewrite length_map, repeat_length. lia.
Qed.

(** ** The cells of [nan_by_window] *)

Lemma float_of_bool_indicator (col : list cell) :
  map (fun c => float_of_bool (isna c)) col = map Num (map indicator col).
Proof.
  rewrite map_map. apply map_ext. intros c. unfold indicator.
  now destruct (isna c).
Qed.

(** A cell of [rolling_mean_df (df.isna(), w) * w] is the missing marker
    in the first [w-1] rows and the count of its window below. *)
Lemma scaled_counts_cells (w : nat) (col : list cell) :
  1 <= w <= length col ->
  scaled_counts w col
  = repeat NaN (w - 1)
    ++ map (fun i => Num (rounded_count w (window i w col)))
           (seq 0 (length col - w + 1)).
Proof.
  intros Hw. unfold scaled_counts.
  rewrite float_of_bool_indicator, correlate_constant by (rewrite length_map; lia).
  rewrite map_app, map_repeat, map_map, length_map. cbn [fmul]. f_equal.
  apply map_ext. intros i. unfold float_of_Z. cbn [fmul]. f_equal.
  change (Qc_of_Z (Z.of_nat w)) with (Qc_of_nat w).
  unfold rounded_count. now rewrite window_map.
Qed.

Lemma nth_labelled (k p : nat) (l : list cell) (d : nat * cell) :
  p < length l -> nth p (labelled k l) d = (k + p, nth p l (snd d)).
Proof.
  revert k p. induction l as [|x l IH]; intros k p Hp; [simpl in Hp; lia|].
  rewrite labelled_cons. destruct p as [|p].
  - simpl. now rewrite Nat.add_0_r.
  - cbn [nth]. rewrite IH by (simpl in Hp; lia). now rewrite Nat.add_succ_r.
Qed.

Lemma nth_loc_assign_nan (a b p : nat) (col : list cell) (d : cell) :
  p < length col ->
  nth p (loc_assign_nan a b col) d
  = if (a <=? p) && (p <=? b) then NaN else nth p col d.
Proof.
  intros Hp. unfold loc_assign_nan.
  set (f := fun q : nat * cell => if (a <=? fst q) && (fst q <=? b) then NaN else snd q).
  rewrite (nth_indep _ d (f (0, d)))
    by (rewrite length_map, length_column_series; exact Hp).
  rewrite map_nth. change (column_series col) with (labelled 0 col).
  rewrite nth_labelled by exact Hp. reflexivity.
Qed.

Lemma py_index_seq (a m i : nat) :
  i < m -> py_index (seq a m) (Z.of_nat i) = Ok (a + i).
Proof.
  intros Hi. unfold py_index. rewrite length_seq.
  destruct (Z.ltb_spec (Z.of_nat i) 0) as [H|_]; [lia|].
  destruct (Z.leb_spec 0 (Z.of_nat i)) as [_|H]; [|lia].
  destruct (Z.ltb_spec (Z.of_nat i) (Z.of_nat m)) as [_|H]; [|lia].
  cbn [andb]. rewrite Nat2Z.id, nth_error_seq.
  destruct (Nat.ltb_spec i m) as [_|H]; [reflexivity | lia].
Qed.

Lemma py_index_seq_last (a m : nat) :
  1 <= m -> py_index (seq a m) (-1) = Ok (a + (m - 1)).
Proof.
  intros Hm. unfold py_index. rewrite length_seq.
  change (-1 <? 0)%Z with true. cbv iota.
  replace (Z.of_nat m + -1)%Z with (Z.of_nat (m - 1)) by lia.
  destruct (Z.leb_spec 0 (Z.of_nat (m - 1))) as [_|H]; [|lia].
  destruct (Z.ltb_spec (Z.of_nat (m - 1)) (Z.of_nat m)) as [_|H]; [|lia].
  cbn [andb]. rewrite Nat2Z.id, nth_error_seq.
  destruct (Nat.ltb_spec (m - 1) m) as [_|H]; [reflexivity | lia].
Qed.

(** What [nan_by_window] returns for a column whose observed span holds at
    least one window: the number of missing values of the window ending
    at the row, at the rows of [keeps_count], and the missing marker at every
    other row. *)
Lemma window_column_cells (w : nat) (col : list cell) :
  existsb notna col = true ->
  1 <= w <= length (observed_span col) ->
  forall p, p < length col ->
    nth p (window_column w (length col) col) NaN
    = if keeps_count w col p
      then Num (rounded_count w (window (p + 1 - w) w col))
      else NaN.
Proof.
  intros Hex Hw p Hp. pose proof (observed_span_decomp col Hex) as D.
  destruct (span_decomp_length _ _ _ _ D) as [Hlen Hpos].
  unfold keeps_count.
  set (a := span_start col) in *. set (vs := observed_span col) in *.
  set (c := nan_prefix_length (rev (drop_na col))) in *.
  assert (Hsc : length (scaled_counts w col) = length col)
    by (apply length_scaled_counts; lia).
  unfold window_column, mask_outside.
  rewrite (valid_span_decomp _ _ _ _ D), index_labelled.
  replace (Z.of_nat w - 1)%Z with (Z.of_nat (w - 1)) by lia.
  rewrite py_index_seq by lia. cbn [bind].
  rewrite py_index_seq_last by lia. cbn [bind].
  assert (H0 : py_index (seq 0 (length col)) 0 = Ok 0)
    by (apply (py_index_seq 0 (length col) 0); lia).
  rewrite H0. cbn [bind].
  rewrite py_index_seq_last by lia. cbn [bind except_IndexError].
  assert (Hraw : nth p (scaled_counts w col) NaN
                 = if w - 1 <=? p
                   then Num (rounded_count w (window (p + 1 - w) w col))
                   else NaN).
  { rewrite scaled_counts_cells by lia.
    destruct (Nat.leb_spec (w - 1) p) as [Hge|Hlt].
    - rewrite app_nth2 by (rewrite repeat_length; lia). rewrite repeat_length.
      rewrite nth_map_seq by lia. simpl Nat.add. do 3 f_equal. lia.
    - rewrite app_nth1 by (rewrite repeat_length; lia). apply nth_repeat. }
  destruct (Nat.ltb_spec (a + (length vs - 1)) (0 + (length col - 1))) as [Hin|Hend].
  - cbn [except_IndexError].
    rewrite nth_loc_assign_nan by (rewrite length_loc_assign_nan; lia).
    rewrite nth_loc_assign_nan by lia. rewrite Hraw.
    replace (a + length vs =? length col) with false
      by (symmetry; apply Nat.eqb_neq; lia).
    rewrite orb_false_r.
    destruct (Nat.leb_spec (a + (length vs - 1)) p),
             (Nat.leb_spec p (0 + (length col - 1))),
             (Nat.leb_spec 0 p), (Nat.leb_spec p (a + (w - 1))),
             (Nat.ltb_spec (a + w - 1) p), (Nat.ltb_spec p (a + length vs - 1)),
             (Nat.leb_spec (w - 1) p);
      cbn [andb]; try reflexivity; lia.
  - cbn [except_IndexError].
    rewrite nth_loc_assign_nan by lia. rewrite Hraw.
    replace (a + length vs =? length col) with true
      by (symmetry; apply Nat.eqb_eq; lia).
    rewrite orb_true_r, andb_true_r.
    destruct (Nat.leb_spec 0 p), (Nat.leb_spec p (a + (w - 1))),
             (Nat.ltb_spec (a + w - 1) p), (Nat.leb_spec (w - 1) p);
      cbn [andb]; try reflexivity; lia.
Qed.

(** Where [nan_by_window] keeps a count, the window lies within the
    ObservedSpan, and the count is the one of the specification within
    rounding: 0 exactly when the specification gives 0. *)
Lemma window_column_agrees (w : nat) (col : list cell) (p : nat) :
  existsb notna col = true ->
  1 <= w <= length (observed_span col) ->
  p < length col ->
  keeps_count w col p = true ->
  exists q,
    nth p (window_column w (length col) col) NaN = Num q
    /\ window_count_spec w col p
       = float_of_nat (count_missing (window (p + 1 - w) w col))
    /\ within_rounding (w + 3) q
                       (Qc_of_nat (count_missing (window (p + 1 - w) w col)))
                       (Qc_of_nat (count_missing (window (p + 1 - w) w col)))
    /\ (q = 0%Qc <-> count_missing (window (p + 1 - w) w col) = 0).
Proof.
  intros Hex Hw Hp Hk. rewrite window_column_cells, Hk by assumption.
  pose proof (observed_span_decomp col Hex) as D.
  destruct (span_decomp_length _ _ _ _ D) as [Hlen _].
  unfold keeps_count in Hk.
  apply andb_true_iff in Hk as [H1 H2]. apply Nat.ltb_lt in H1.
  eexists. split; [reflexivity|]. split.
  - unfold window_count_spec.
    replace (span_start col + w - 1 <=? p) with true
      by (symmetry; apply Nat.leb_le; lia).
    replace (p <? span_start col + length (observed_span col)) with true;
      [reflexivity|].
    symmetry. apply Nat.ltb_lt. apply orb_true_iff in H2 as [H2|H2].
    + apply Nat.ltb_lt in H2. lia.
    + apply Nat.eqb_eq in H2. lia.
  - split; [|apply rounded_count_eq0; lia].
    apply rounded_count_within; [lia|]. apply length_window. lia.
Qed.

Lemma columns_eqb_eq (l m : list (list cell)) : columns_eqb l m = true -> l = m.
Proof.
  revert m. induction l as [|x l IH]; intros [|y m]; simpl; try congruence.
  intros H. apply andb_true_iff in H as [H1 H2].
  apply cells_eqb_eq in H1. apply IH in H2. congruence.
Qed.

Lemma returns_frame_eq (r : result DataFrame) (n : nat) (cs : list (list cell)) :
  returns_frame r n cs = true -> r = Ok (mkFrame n cs).
Proof.
  destruct r as [[n' cs']|e]; simpl; [|discriminate].
  intros H. apply andb_true_iff in H as [H1 H2].
  apply Nat.eqb_eq in H1. apply columns_eqb_eq in H2. subst. reflexivity.
Qed.

(** ** Claims on [nan_by_window] *)

(** C1 (the code departs from it): on a fully observed column of three rows
    and a window of one row, every row is the end of a window that lies
    within the ObservedSpan and the count is 0 at each; [nan_by_window]
    returns the missing marker at the first of them, the [w]-th row of the
    span.  On a column whose last observed row is not the last row of the
    table, it also returns the missing marker at the last observed row. *)
Theorem nan_by_window_masks_span_ends (pandas : empty_setitem) :
  let n (k : nat) := float_of_nat k in
  nan_by_window pandas (mkFrame 3 [[n 1; n 2; n 3]]) 1
  = Ok (mkFrame 3 [[NaN; n 0; n 0]])
  /\ map (window_count_spec 1 [n 1; n 2; n 3]) (seq 0 3) = [n 0; n 0; n 0]
  /\ nan_by_window pandas (mkFrame 4 [[n 1; NaN; n 1; NaN]]) 1
     = Ok (mkFrame 4 [[NaN; n 1; NaN; NaN]])
  /\ map (window_count_spec 1 [n 1; NaN; n 1; NaN]) (seq 0 4) = [n 0; n 1; n 0; NaN].
Proof.
  intros n. split; [|split; [|split]].
  - apply returns_frame_eq. destruct pandas; vm_compute; reflexivity.
  - apply cells_eqb_eq. vm_compute. reflexivity.
  - apply returns_frame_eq. destruct pandas; vm_compute; reflexivity.
  - apply cells_eqb_eq. vm_compute. reflexivity.
Qed.

(** C3, amended: with a window length between 1 and the number of rows,
    [nan_by_window] does not raise; it computes each output column from
    the input column at the same place alone, as [pc_nan] and
    [find_contiguous_nan] do, so that no column changes the output of
    another; and a column that has a non-missing value and an ObservedSpan
    shorter than the window gets the missing marker in every cell. *)
Theorem undefined_statistic_per_column (pandas : empty_setitem) (df : DataFrame)
        (w j : nat) (col : list cell) :
  wf_frame df ->
  1 <= w <= nrows df ->
  nth_error (columns df) j = Some col ->
  (exists out o,
      nan_by_window pandas df (Z.of_nat w) = Ok out
      /\ nth_error (columns out) j = Some o
      /\ nan_by_window pandas (mkFrame (nrows df) [col]) (Z.of_nat w)
         = Ok (mkFrame (nrows df) [o])
      /\ (existsb notna col = true -> length (observed_span col) < w ->
          o = repeat NaN (nrows df)))
  /\ (exists c, nth_error (pc_nan df) j = Some c
                /\ pc_nan (mkFrame (nrows df) [col]) = [c])
  /\ (exists o, nth_error (columns (find_contiguous_nan df)) j = Some o
                /\ columns (find_contiguous_nan (mkFrame (nrows df) [col])) = [o]).
Proof.
  intros Hwf Hw Hj. pose proof (wf_frame_column df j col Hwf Hj) as Hlen.
  assert (Hne : columns df <> []).
  { intros E. rewrite E in Hj. destruct j; discriminate. }
  split; [|split].
  - exists (mkFrame (nrows df) (map (window_column w (nrows df)) (columns df))).
    exists (window_column w (nrows df) col).
    split; [now apply nan_by_window_fits|].
    split; [cbn [columns]; now rewrite nth_error_map, Hj|].
    split.
    + rewrite nan_by_window_fits; [reflexivity | | exact Hw].
      constructor; [exact Hlen | constructor].
    + intros Hex Hshort. rewrite window_column_short_span by assumption.
      rewrite length_scaled_counts by lia. now rewrite Hlen.
  - exists (pc_nan_column col). unfold pc_nan. cbn [columns].
    now rewrite nth_error_map, Hj.
  - exists (find_contiguous_nan_column (nrows df) col).
    unfold find_contiguous_nan. cbn [columns nrows].
    now rewrite nth_error_map, Hj.
Qed.

Lemma undefined_statistic_per_column_witness :
  let short := [NaN; float_of_nat 7; NaN; NaN] in
  let df := mkFrame 4 [[float_of_nat 1; NaN; float_of_nat 2; float_of_nat 3]; short] in
  exists out o,
    nan_by_window EmptySetitemRaises df 2 = Ok out
    /\ nth_error (columns out) 1 = Some o
    /\ nan_by_window EmptySetitemRaises (mkFrame 4 [short]) 2 = Ok (mkFrame 4 [o])
    /\ o = repeat NaN 4.
Proof.
  intros short df.
  assert (Hwf : wf_frame df) by (repeat constructor).
  assert (Hw : 1 <= 2 <= nrows df) by (simpl; lia).
  destruct (undefined_statistic_per_column EmptySetitemRaises df 2 1 short Hwf Hw eq_refl)
    as [(out & o & H1 & H2 & H3 & H4) _].
  exists out, o. split; [exact H1|]. split; [exact H2|]. split; [exact H3|].
  apply H4; [reflexivity | simpl; lia].
Defined.

(** C3 fails on a column without any non-missing value: the code takes the
    whole column as its span, so that [pc_nan] answers 100,
    [find_contiguous_nan] records one run at row 0 and [nan_by_window]
    counts the missing values of the windows. *)
Lemma all_missing_column_is_counted :
  let df := mkFrame 3 [[NaN; NaN; NaN]] in
  observed_span [NaN; NaN; NaN] = []
  /\ pc_nan df = [float_of_nat 100]
  /\ columns (find_contiguous_nan df) = [[float_of_nat 3; NaN; NaN]]
  /\ nan_by_window EmptySetitemRaises df 1
     = Ok (mkFrame 3 [[NaN; float_of_nat 1; float_of_nat 1]])
  /\ nan_by_window EmptySetitemIgnored df 1
     = Ok (mkFrame 3 [[NaN; float_of_nat 1; float_of_nat 1]])
  /\ float_of_nat 100 <> NaN /\ float_of_nat 3 <> NaN /\ float_of_nat 1 <> NaN.
Proof.
  intros df. split; [reflexivity|].
  split; [apply cells_eqb_eq; vm_compute; reflexivity|].
  split; [apply columns_eqb_eq; vm_compute; reflexivity|].
  split; [apply returns_frame_eq; vm_compute; reflexivity|].
  split; [apply returns_frame_eq; vm_compute; reflexivity|].
  split; [|split]; discriminate.
Qed.

(** ** Claims on [nb_valid_windows] *)

Lemma eq0_iff (x : cell) : eq0 x = true <-> x = Num 0%Qc.
Proof.
  destruct x as [|q]; simpl; [split; discriminate|].
  rewrite Qc_eq_bool_true. split; [now intros -> | congruence].
Qed.

Lemma count_true_eq0 (c : list cell) : count_true (map eq0 c) = zero_windows c.
Proof.
  unfold count_true, zero_windows. induction c as [|x c IH]; [reflexivity|].
  assert (E : cell_eqb (Num 0%Qc) x = eq0 x).
  { destruct (eq0 x) eqn:E0.
    - apply eq0_iff in E0. subst x. now apply cell_eqb_eq.
    - destruct (cell_eqb (Num 0%Qc) x) eqn:E1; [|reflexivity].
      apply cell_eqb_eq in E1. subst x. discriminate. }
  cbn [map filter]. rewrite E. destruct (eq0 x); cbn [length]; now rewrite IH.
Qed.

Lemma count_true_ge0 (c : list cell) : count_true (map ge0 c) = evaluated_windows c.
Proof.
  unfold count_true, evaluated_windows. induction c as [|x c IH]; [reflexivity|].
  simpl. destruct x as [|q]; simpl; [exact IH|].
  destruct (Qle_bool 0 q); simpl; now rewrite IH.
Qed.

Lemma zero_le_evaluated (c : list cell) : zero_windows c <= evaluated_windows c.
Proof.
  unfold zero_windows, evaluated_windows.
  induction c as [|x c IH]; [simpl; lia|].
  cbn [filter]. destruct (cell_eqb (Num 0%Qc) x) eqn:E.
  - apply cell_eqb_eq in E. subst x.
    change (Qle_bool 0 (this 0%Qc)) with true. cbn [length]. lia.
  - destruct x as [|q]; [exact IH|].
    destruct (Qle_bool 0 q); cbn [length]; lia.
Qed.

Lemma valid_percentage_exact (c : list cell) :
  1 <= evaluated_windows c ->
  valid_percentage c
  = Num (Qc_of_nat (zero_windows c) / Qc_of_nat (evaluated_windows c) * Qc_of_nat 100).
Proof.
  intros H. unfold valid_percentage.
  destruct (evaluated_windows c) as [|e] eqn:E; [lia|].
  f_equal. field. intros E0. apply Qc_of_nat_eq0 in E0. lia.
Qed.

(** C4, amended: where [nan_by_window] returns a table of counts,
    [nb_valid_windows] in the boolean mode returns a table of the same shape
    that is True exactly at the cells whose count is 0, hence False at a
    positive count and at a missing count; in the percentage mode it returns
    for each column the quotient of the number of windows with count 0 by
    the number of windows with a defined, non-negative count, times 100, as
    binary64 arithmetic evaluates it (the quotient is rounded, and so is its
    product by 100): the missing marker when there is no such window,
    otherwise the exact percentage within two roundings, a number between 0
    and 100 that is 0 exactly when no window has count 0 and 100 when all
    the evaluated windows have. *)
Theorem nb_valid_windows_modes (pandas : empty_setitem) (df : DataFrame) (w : Z)
        (npf : DataFrame) :
  nan_by_window pandas df w = Ok npf ->
  (exists m,
      nb_valid_windows pandas df w None = Ok (Mask m)
      /\ nrows m = nrows npf
      /\ length (columns m) = length (columns npf)
      /\ forall j c,
           nth_error (columns npf) j = Some c ->
           exists mc,
             nth_error (columns m) j = Some mc
             /\ length mc = length c
             /\ forall i, i < length c ->
                  (nth i mc false = true <-> nth i c NaN = Num 0%Qc)
                  /\ (nth i c NaN = NaN -> nth i mc false = false))
  /\ (exists p,
        nb_valid_windows pandas df w (Some "pc"%string) = Ok (Percent p)
        /\ length p = length (columns npf)
        /\ forall j c,
             nth_error (columns npf) j = Some c ->
             exists v,
               nth_error p j = Some v
               /\ (evaluated_windows c = 0 -> v = NaN /\ valid_percentage c = NaN)
               /\ (1 <= evaluated_windows c ->
                   exists q x,
                     v = Num q
                     /\ valid_percentage c = Num x
                     /\ q = rnd (rnd (Qc_of_nat (zero_windows c)
                                      / Qc_of_nat (evaluated_windows c))
                                 * Qc_of_nat 100)
                     /\ within_rounding 2 q x x
                     /\ (0 <= q)%Qc
                     /\ (q <= Qc_of_nat 100)%Qc
                     /\ (q = 0%Qc <-> zero_windows c = 0)
                     /\ (zero_windows c = evaluated_windows c -> q = Qc_of_nat 100))).
Proof.
  intros Hnpf. unfold nb_valid_windows. rewrite Hnpf. cbn [bind]. split.
  - eexists. split; [reflexivity|]. cbn [nrows columns].
    split; [reflexivity|]. split; [apply length_map|].
    intros j c Hj. exists (map eq0 c). rewrite nth_error_map, Hj.
    split; [reflexivity|]. split; [apply length_map|].
    intros i Hi. change false with (eq0 NaN). rewrite map_nth.
    split; [apply eq0_iff|]. now intros ->.
  - simpl String.eqb. cbv iota. eexists. split; [reflexivity|].
    split; [apply length_map|].
    intros j c Hj. rewrite nth_error_map, Hj. cbn [option_map].
    rewrite count_true_eq0, count_true_ge0, percent_of_counts.
    eexists. split; [reflexivity|]. split.
    + intros E. unfold valid_percentage. rewrite E. split; reflexivity.
    + intros He. destruct (evaluated_windows c) as [|e] eqn:E; [lia|].
      rewrite <- E in *.
      exists (rounded_percentage (zero_windows c) (evaluated_windows c)).
      eexists. split; [reflexivity|].
      split; [now apply valid_percentage_exact|].
      split; [reflexivity|].
      split; [now apply rounded_percentage_within|].
      destruct (rounded_percentage_range _ _ (zero_le_evaluated c) He) as [H0 H1].
      split; [exact H0|]. split; [exact H1|].
      split; [now apply rounded_percentage_eq0|].
      intros ->. now apply rounded_percentage_full.
Qed.

Lemma nb_valid_windows_raises (pandas : empty_setitem) (df : DataFrame) (w : Z)
      (m : option string) (e : exn) :
  nan_by_window pandas df w = Raise e -> nb_valid_windows pandas df w m = Raise e.
Proof. intros H. unfold nb_valid_windows. now rewrite H. Qed.

Lemma nb_valid_windows_modes_witness :
  let n (k : nat) := float_of_nat k in
  let df := mkFrame 6 [[NaN; n 2; NaN; n 3; n 4; n 5]] in
  let npf := mkFrame 6 [[NaN; NaN; NaN; n 1; n 0; n 0]] in
  nan_by_window EmptySetitemRaises df 2 = Ok npf
  /\ nb_valid_windows EmptySetitemRaises df 2 None
     = Ok (Mask (mkFrame 6 [[false; false; false; false; true; true]]))
  /\ exists p q x,
       nb_valid_windows EmptySetitemRaises df 2 (Some "pc"%string) = Ok (Percent p)
       /\ nth_error p 0 = Some (Num q)
       /\ valid_percentage [NaN; NaN; NaN; n 1; n 0; n 0] = Num x
       /\ within_rounding 2 q x x
       /\ (0 <= q)%Qc
       /\ (q <= Qc_of_nat 100)%Qc.
Proof.
  intros n df npf.
  assert (H : nan_by_window EmptySetitemRaises df 2 = Ok npf)
    by (apply returns_frame_eq; vm_compute; reflexivity).
  split; [exact H|].
  destruct (nb_valid_windows_modes EmptySetitemRaises df 2 npf H)
    as [_ (p & Hp & _ & Hcol)].
  split.
  - unfold nb_valid_windows. rewrite H. reflexivity.
  - destruct (Hcol 0 _ eq_refl) as (v & Hv & _ & H1).
    assert (He : 1 <= evaluated_windows [NaN; NaN; NaN; n 1; n 0; n 0])
      by (vm_compute; lia).
    destruct (H1 He) as (q & x & Ev & Ex & _ & Hw & Hlo & Hhi & _).
    exists p, q, x. rewrite <- Ev.
    split; [exact Hp|]. split; [exact Hv|]. split; [exact Ex|].
    split; [exact Hw|]. split; assumption.
Defined.

(** C4 fails as stated in the percentage mode: with two windows of count 0
    among three evaluated windows, [nb_valid_windows] returns the binary64
    number 66.66666666666666..., which is not 200/3, nor the binary64
    number nearest to 200/3. *)
Lemma nb_valid_windows_two_thirds :
  let n (k : nat) := float_of_nat k in
  let df := mkFrame 6 [[NaN; n 2; NaN; n 3; n 4; n 5]] in
  let counts := [NaN; NaN; NaN; n 1; n 0; n 0] in
  nan_by_window EmptySetitemRaises df 2 = Ok (mkFrame 6 [counts])
  /\ zero_windows counts = 2
  /\ evaluated_windows counts = 3
  /\ valid_percentage counts = Num (Q2Qc (200 # 3))
  /\ nb_valid_windows EmptySetitemRaises df 2 (Some "pc"%string)
     = Ok (Percent [Num (Q2Qc (2345624805922133 # 35184372088832))])
  /\ Q2Qc (2345624805922133 # 35184372088832) <> Q2Qc (200 # 3)
  /\ Q2Qc (2345624805922133 # 35184372088832) <> rnd (Q2Qc (200 # 3)).
Proof.
  intros n df counts.
  assert (H : nan_by_window EmptySetitemRaises df 2 = Ok (mkFrame 6 [counts]))
    by (apply returns_frame_eq; vm_compute; reflexivity).
  split; [exact H|]. split; [reflexivity|]. split; [reflexivity|].
  split; [apply cell_eqb_eq; vm_compute; reflexivity|].
  split.
  { unfold nb_valid_windows. rewrite H. cbn [bind]. simpl String.eqb. cbv iota.
    do 2 f_equal. apply cells_eqb_eq. vm_compute. reflexivity. }
  split; apply Qc_eq_bool_false; vm_compute; reflexivity.
Qed.

(** ** Invalid arguments *)

Lemma mapM_raises {A B : Type} (f : A -> result B) (l : list A) (e : exn) (P : exn -> Prop) :
  (forall x e', f x = Raise e' -> P e') -> mapM f l = Raise e -> P e.
Proof.
  intros Hf. induction l as [|x l IH]; simpl; [discriminate|].
  destruct (f x) as [y|e'] eqn:E; cbn [bind].
  - destruct (mapM f l) as [ys|e'']; cbn [bind]; [discriminate|].
    intros H. injection H as <-. now apply IH.
  - intros H. injection H as <-. now apply (Hf x).
Qed.

Lemma mapM_total {A B : Type} (f : A -> result B) (l : list A) :
  (forall x, exists y, f x = Ok y) -> exists ys, mapM f l = Ok ys.
Proof.
  intros Hf. induction l as [|x l [ys IH]]; simpl; [now exists []|].
  destruct (Hf x) as [y ->]. rewrite IH. cbn. now eexists.
Qed.

Lemma np_convolve_valid_raises (a v : list cell) (e : exn) :
  np_convolve_valid a v = Raise e -> e = ValueError.
Proof.
  unfold np_convolve_valid.
  destruct (length a <? length v); [destruct v, a | destruct a, v]; congruence.
Qed.

Lemma rolling_mean_df_raises (pandas : empty_setitem) (df : DataFrame) (w : Z) (e : exn) :
  rolling_mean_df pandas df w = Raise e -> e = ValueError.
Proof.
  unfold rolling_mean_df, np_ones.
  destruct (w <? 0)%Z; cbn [bind]; [congruence|].
  unfold apply_columns.
  destruct ((nrows df =? 0) || (length (columns df) =? 0)); cbn [bind].
  - unfold loc_set_rows. destruct (_ =? _); [discriminate|].
    destruct (_ =? _); [discriminate|].
    destruct (py_slice_from _ _), pandas; congruence.
  - destruct (mapM _ (columns df)) as [cs|e'] eqn:E; cbn [bind].
    + unfold loc_set_rows. destruct (_ =? _); [discriminate|].
      destruct (_ =? _); [discriminate|].
      destruct (py_slice_from _ _), pandas; congruence.
    + intros H. injection H as <-. revert E.
      apply (mapM_raises _ _ e' (fun e0 => e0 = ValueError)).
      intros x e''. apply np_convolve_valid_raises.
Qed.

Lemma nan_by_window_raises (pandas : empty_setitem) (df : DataFrame) (w : Z) (e : exn) :
  nan_by_window pandas df w = Raise e -> e = ValueError.
Proof.
  unfold nan_by_window.
  destruct (rolling_mean_df pandas (frame_isna df) w) as [out|e'] eqn:E; cbn [bind].
  - match goal with |- context [mapM ?f ?l] =>
      destruct (mapM_total f l) as [ys ->] end.
    + intros [c o]. cbn [fst snd].
      destruct (mask_outside_total w (frame_index (frame_scale w out)) c o)
        as (o' & Ho & _).
      exists o'. exact Ho.
    + discriminate.
  - intros H. injection H as <-. now apply rolling_mean_df_raises in E.
Qed.

Lemma np_ones_negative (w : Z) : (w < 0)%Z -> np_ones w = Raise ValueError.
Proof. intros H. unfold np_ones. destruct (Z.ltb_spec w 0); [reflexivity | lia]. Qed.

Lemma rolling_mean_df_zero (pandas : empty_setitem) (df : DataFrame) :
  nrows df <> 0 -> columns df <> [] ->
  rolling_mean_df pandas df 0 = Raise ValueError.
Proof.
  intros Hn Hc. unfold rolling_mean_df. cbn [np_ones Z.ltb Z.compare bind Z.to_nat repeat map].
  unfold apply_columns.
  replace (nrows df =? 0) with false by (symmetry; now apply Nat.eqb_neq).
  destruct (columns df) as [|c cs]; [congruence|].
  cbn [length Nat.eqb orb mapM].
  assert (E : np_convolve_valid c [] = Raise ValueError) by (destruct c; reflexivity).
  rewrite E. reflexivity.
Qed.

(** C9, amended: [nb_valid_windows] called with a selector other than None
    and "pc" raises ValueError, whatever the table and the window length; a
    negative window length makes every windowed function raise ValueError;
    a window length of 0 makes [rolling_mean_ts] raise ZeroDivisionError,
    and makes [rolling_mean_df], [nan_by_window] and [nb_valid_windows]
    raise ValueError on a table with at least one row and one column. *)
Theorem invalid_arguments_raise (pandas : empty_setitem) (df : DataFrame)
        (ts : Series) (w wneg : Z) (mode : string) (m : option string) :
  (mode <> "pc"%string ->
   nb_valid_windows pandas df w (Some mode) = Raise ValueError)
  /\ ((wneg < 0)%Z ->
      rolling_mean_ts ts wneg = Raise ValueError
      /\ rolling_mean_df pandas df wneg = Raise ValueError
      /\ nan_by_window pandas df wneg = Raise ValueError
      /\ nb_valid_windows pandas df wneg m = Raise ValueError)
  /\ rolling_mean_ts ts 0 = Raise ZeroDivisionError
  /\ (nrows df <> 0 -> columns df <> [] ->
      rolling_mean_df pandas df 0 = Raise ValueError
      /\ nan_by_window pandas df 0 = Raise ValueError
      /\ nb_valid_windows pandas df 0 m = Raise ValueError).
Proof.
  split; [|split; [|split]].
  - intros Hmode. unfold nb_valid_windows.
    destruct (nan_by_window pandas df w) as [npf|e] eqn:E; cbn [bind].
    + destruct (String.eqb_spec mode "pc"); [contradiction | reflexivity].
    + now apply nan_by_window_raises in E; subst.
  - intros Hneg.
    assert (Hdf : forall d, rolling_mean_df pandas d wneg = Raise ValueError).
    { intros d. unfold rolling_mean_df. now rewrite np_ones_negative. }
    assert (Hnbw : nan_by_window pandas df wneg = Raise ValueError).
    { unfold nan_by_window. now rewrite Hdf. }
    split; [|split; [|split]].
    + unfold rolling_mean_ts. now rewrite np_ones_negative.
    + apply Hdf.
    + exact Hnbw.
    + now apply nb_valid_windows_raises.
  - reflexivity.
  - intros Hrows Hcols.
    assert (Hnbw0 : nan_by_window pandas df 0 = Raise ValueError).
    { unfold nan_by_window. rewrite rolling_mean_df_zero; [reflexivity | exact Hrows |].
      unfold frame_isna. cbn [columns]. destruct (columns df); [congruence | discriminate]. }
    split; [|split].
    + now apply rolling_mean_df_zero.
    + exact Hnbw0.
    + now apply nb_valid_windows_raises.
Qed.

Lemma invalid_arguments_raise_witness :
  let df := mkFrame 2 [[float_of_nat 1; NaN]] in
  let empty := mkFrame 0 [] in
  let ts := column_series [float_of_nat 1; NaN] in
  nb_valid_windows EmptySetitemRaises df 1 (Some "percent"%string) = Raise ValueError
  /\ nb_valid_windows EmptySetitemRaises empty 1 (Some "percent"%string)
     = Raise ValueError
  /\ (rolling_mean_ts ts (-1) = Raise ValueError
      /\ rolling_mean_df EmptySetitemRaises df (-1) = Raise ValueError
      /\ nan_by_window EmptySetitemRaises df (-1) = Raise ValueError
      /\ nb_valid_windows EmptySetitemRaises df (-1) None = Raise ValueError)
  /\ nan_by_window EmptySetitemRaises empty (-1) = Raise ValueError
  /\ rolling_mean_ts ts 0 = Raise ZeroDivisionError
  /\ (rolling_mean_df EmptySetitemRaises df 0 = Raise ValueError
      /\ nan_by_window EmptySetitemRaises df 0 = Raise ValueError
      /\ nb_valid_windows EmptySetitemRaises df 0 None = Raise ValueError).
Proof.
  intros df empty ts.
  destruct (invalid_arguments_raise EmptySetitemRaises df ts 1 (-1) "percent" None)
    as (H1 & H2 & H3 & H4).
  destruct (invalid_arguments_raise EmptySetitemRaises empty ts 1 (-1) "percent" None)
    as (E1 & E2 & _).
  split; [apply H1; discriminate|].
  split; [apply E1; discriminate|].
  split; [apply H2; reflexivity|].
  split; [apply E2; reflexivity|].
  split; [exact H3|].
  apply H4; discriminate.
Defined.

(** C9 fails as stated: a window length of 0 makes [rolling_mean_ts] fail
    on the division [1/len(filter)], a ZeroDivisionError and not an
    invalid-argument error. *)
Lemma window_length_zero :
  rolling_mean_ts [(0, float_of_nat 1)] 0 = Raise ZeroDivisionError
  /\ ZeroDivisionError <> ValueError.
Proof.
  split; [reflexivity | discriminate].
Qed.

(** On a table without rows [DataFrame.apply] does not call numpy, and a
    window length of 0 goes through [nan_by_window] unnoticed. *)
Lemma window_length_zero_empty_table (pandas : empty_setitem) :
  nan_by_window pandas (mkFrame 0 [[]]) 0 = Ok (mkFrame 0 [[]]).
Proof. destruct pandas; reflexivity. Qed.

(** ** Claim on [find_ffill_nan] *)

Lemma nth_map2_shifted {A : Type} (f : cell -> cell -> A) (l : list cell) :
  forall (x : cell) (t : nat) (d : A),
    t < length l ->
    nth t (map2 f l (x :: removelast l)) d
    = f (nth t l NaN) (match t with O => x | S t' => nth t' l NaN end).
Proof.
  induction l as [|y r IH]; intros x t d Ht; [simpl in Ht; lia|].
  destruct t as [|t]; [reflexivity|].
  simpl in Ht. destruct r as [|z r']; [simpl in Ht; lia|].
  change (removelast (y :: z :: r')) with (y :: removelast (z :: r')).
  change (map2 f (y :: z :: r') (x :: y :: removelast (z :: r')))
    with (f y x :: map2 f (z :: r') (y :: removelast (z :: r'))).
  change (nth (S t) (f y x :: map2 f (z :: r') (y :: removelast (z :: r'))) d)
    with (nth t (map2 f (z :: r') (y :: removelast (z :: r'))) d).
  rewrite IH by lia.
  destruct t; reflexivity.
Qed.

Lemma length_map2 {A B C : Type} (f : A -> B -> C) (l : list A) (m : list B) :
  length (map2 f l m) = Nat.min (length l) (length m).
Proof.
  revert m. induction l as [|x l IH]; intros [|y m]; simpl; auto.
Qed.

Lemma length_removelast_pred {A : Type} (l : list A) :
  length (removelast l) = length l - 1.
Proof.
  induction l as [|x [|y r] IH]; [reflexivity | reflexivity |].
  change (removelast (x :: y :: r)) with (x :: removelast (y :: r)).
  cbn [length] in *. lia.
Qed.

Lemma length_shift1 (col : list cell) : length (shift1 col) = length col.
Proof.
  destruct col as [|x r]; [reflexivity|].
  unfold shift1. cbn [length]. rewrite length_removelast_pred. cbn [length]. lia.
Qed.

Lemma eq0_fsub (x y : cell) :
  eq0 (fsub x y) = true <-> exists q, x = Num q /\ y = Num q.
Proof.
  destruct x as [|a], y as [|b]; simpl;
    try (split; [discriminate | intros (q & H1 & H2); discriminate]).
  rewrite Qc_eq_bool_true. split.
  - intros H. apply rnd_eq0 in H. exists a. split; [reflexivity|]. f_equal.
    transitivity ((a - b) + b)%Qc; [rewrite H | ]; ring.
  - intros (q & H1 & H2). injection H1 as ->. injection H2 as ->.
    replace (q - q)%Qc with 0%Qc by ring. apply rnd_0.
Qed.

(** C10: [find_ffill_nan] returns a boolean table of the same shape that is
    True at row t of a column exactly when row t has a predecessor and both
    rows hold the same number; it is False when either of the two is the
    missing marker, also when both are, and False at the first row. *)
Theorem find_ffill_nan_repeats (df : DataFrame) (j : nat) (col : list cell) :
  nth_error (columns df) j = Some col ->
  nrows (find_ffill_nan df) = nrows df
  /\ length (columns (find_ffill_nan df)) = length (columns df)
  /\ exists m,
       nth_error (columns (find_ffill_nan df)) j = Some m
       /\ length m = length col
       /\ nth 0 m false = false
       /\ forall t, t < length col ->
            (nth t m false = true <-> same_as_previous col t)
            /\ (nth t col NaN = NaN -> nth t m false = false)
            /\ (nth (t - 1) col NaN = NaN -> nth t m false = false).
Proof.
  intros Hj. unfold find_ffill_nan. cbn [nrows columns].
  split; [reflexivity|]. split; [apply length_map|].
  exists (find_ffill_nan_column col). rewrite nth_error_map, Hj.
  split; [reflexivity|].
  assert (Hlen : length (find_ffill_nan_column col) = length col).
  { unfold find_ffill_nan_column.
    rewrite length_map, length_map2, length_shift1. apply Nat.min_id. }
  split; [exact Hlen|].
  assert (Hcell : forall t, t < length col ->
            nth t (find_ffill_nan_column col) false
            = eq0 (fsub (nth t col NaN)
                        (match t with O => NaN | S t' => nth t' col NaN end))).
  { intros t Ht. unfold find_ffill_nan_column.
    change false with (eq0 NaN) at 1. rewrite map_nth.
    destruct col as [|x r]; [simpl in Ht; lia|].
    unfold shift1. now rewrite nth_map2_shifted by exact Ht. }
  split.
  { destruct col as [|x r]; [reflexivity|].
    rewrite Hcell by (simpl; lia). destruct (nth 0 (x :: r) NaN); reflexivity. }
  intros t Ht. rewrite (Hcell t Ht). split; [|split].
  - rewrite eq0_fsub. unfold same_as_previous. split.
    + intros (q & H1 & H2). destruct t as [|t']; [discriminate|].
      exists q, t'. auto.
    + intros (q & t' & -> & H1 & H2). exists q. auto.
  - intros ->. reflexivity.
  - intros Hp. destruct t as [|t'].
    + destruct (nth 0 col NaN); reflexivity.
    + replace (S t' - 1) with t' in Hp by lia. rewrite Hp.
      destruct (nth (S t') col NaN); reflexivity.
Qed.

Lemma find_ffill_nan_repeats_witness :
  let col := [float_of_nat 1; float_of_nat 1; NaN; NaN; float_of_nat 2] in
  exists m,
    nth_error (columns (find_ffill_nan (mkFrame 5 [col]))) 0 = Some m
    /\ length m = 5
    /\ nth 0 m false = false
    /\ forall t, t < 5 ->
         (nth t m false = true <-> same_as_previous col t)
         /\ (nth t col NaN = NaN -> nth t m false = false)
         /\ (nth (t - 1) col NaN = NaN -> nth t m false = false).
Proof.
  intros col.
  exact (proj2 (proj2 (find_ffill_nan_repeats (mkFrame 5 [col]) 0 col eq_refl))).
Defined.

(** * Further properties of the code *)

(** ** What [nan_by_window] keeps and what it flags *)

Lemma mask_outside_cells (w : Z) (idx : list nat) (col out o : list cell) :
  mask_outside w idx col out = Ok o ->
  forall p, p < length out ->
    nth p o NaN = NaN \/ nth p o NaN = nth p out NaN.
Proof.
  unfold mask_outside. intros H p Hp.
  assert (Hnan : forall q, nth q (repeat NaN (length out)) NaN = NaN)
    by (intros q; apply nth_repeat).
  destruct (py_index (index (valid_span (column_series col))) (w - 1)) as [i0|e] eqn:E0.
  2:{ apply py_index_raises in E0. subst e. cbn in H. injection H as <-. now left. }
  cbn [bind] in H.
  destruct (py_index (index (valid_span (column_series col))) (-1)) as [i1|e] eqn:E1.
  2:{ apply py_index_raises in E1. subst e. cbn in H. injection H as <-. now left. }
  cbn [bind] in H.
  destruct (py_index idx 0) as [first|e] eqn:E2.
  2:{ apply py_index_raises in E2. subst e. cbn in H. injection H as <-. now left. }
  cbn [bind] in H.
  destruct (py_index idx (-1)) as [last|e] eqn:E3.
  2:{ apply py_index_raises in E3. subst e. cbn in H. injection H as <-. now left. }
  cbn [bind] in H.
  destruct (i1 <? last); cbn in H; injection H as <-.
  - rewrite nth_loc_assign_nan by (rewrite length_loc_assign_nan; exact Hp).
    destruct (_ && _); [now left|].
    rewrite nth_loc_assign_nan by exact Hp.
    destruct (_ && _); [now left | now right].
  - rewrite nth_loc_assign_nan by exact Hp.
    destruct (_ && _); [now left | now right].
Qed.

Lemma count_missing_window_le (i w : nat) (col : list cell) :
  count_missing (window i w col) <= w.
Proof.
  etransitivity; [apply count_missing_le|].
  unfold window. rewrite length_firstn. lia.
Qed.

Lemma window_column_cell_cases (w : nat) (col : list cell) (p : nat) :
  1 <= w <= length col -> p < length col ->
  nth p (window_column w (length col) col) NaN = NaN
  \/ (w <= p + 1
      /\ nth p (window_column w (length col) col) NaN
         = Num (rounded_count w (window (p + 1 - w) w col))).
Proof.
  intros Hw Hp.
  destruct (mask_outside_cells _ _ _ _ _ (mask_outside_window_column w (length col) col) p)
    as [H|H]; [rewrite length_scaled_counts; lia | now left |].
  rewrite H, scaled_counts_cells by lia.
  destruct (Nat.le_gt_cases (w - 1) p) as [Hge|Hlt].
  - right. split; [lia|].
    rewrite app_nth2 by (rewrite repeat_length; lia). rewrite repeat_length.
    rewrite nth_map_seq by lia. simpl Nat.add. do 3 f_equal. lia.
  - left. rewrite app_nth1 by (rewrite repeat_length; lia). apply nth_repeat.
Qed.

Lemma length_window_column (w n : nat) (col : list cell) :
  1 <= w <= length col -> length (window_column w n col) = length col.
Proof.
  intros Hw. unfold window_column.
  destruct (mask_outside_total (Z.of_nat w) (seq 0 n) col (scaled_counts w col))
    as (o & -> & Ho).
  now rewrite Ho, length_scaled_counts.
Qed.

(** X1: with a window length between 1 and the number of rows,
    [nan_by_window] returns for every column a column of the same length in
    which each cell is the missing marker or the count, as binary64
    arithmetic gives it, of the missing values among the rows of the window
    that ends at the cell: a number that is not negative, that is 0 exactly
    when the window holds no missing value, and that is the number of
    missing values of the window, at most the window length, within w + 3
    roundings.  Masking erases counts, it never alters one. *)
Theorem nan_by_window_cells_are_window_counts (pandas : empty_setitem)
        (df : DataFrame) (w j : nat) (col : list cell) :
  wf_frame df ->
  1 <= w <= nrows df ->
  nth_error (columns df) j = Some col ->
  exists out o,
    nan_by_window pandas df (Z.of_nat w) = Ok out
    /\ nth_error (columns out) j = Some o
    /\ length o = nrows df
    /\ forall p, p < nrows df ->
         nth p o NaN = NaN
         \/ (w <= p + 1
             /\ count_missing (window (p + 1 - w) w col) <= w
             /\ exists q,
                  nth p o NaN = Num q
                  /\ (0 <= q)%Qc
                  /\ (q = 0%Qc <-> count_missing (window (p + 1 - w) w col) = 0)
                  /\ within_rounding (w + 3) q
                        (Qc_of_nat (count_missing (window (p + 1 - w) w col)))
                        (Qc_of_nat (count_missing (window (p + 1 - w) w col)))).
Proof.
  intros Hwf Hw Hj. pose proof (wf_frame_column df j col Hwf Hj) as Hlen.
  eexists. exists (window_column w (nrows df) col).
  split; [now apply nan_by_window_fits|].
  split; [cbn [columns]; now rewrite nth_error_map, Hj|].
  rewrite <- Hlen in *. split; [now apply length_window_column|].
  intros p Hp. destruct (window_column_cell_cases w col p Hw Hp) as [H|[H1 H2]].
  - now left.
  - right. split; [exact H1|]. split; [apply count_missing_window_le|].
    eexists. split; [exact H2|]. split; [apply rounded_count_nonneg|].
    split; [apply rounded_count_eq0; lia|].
    apply rounded_count_within; [lia|]. apply length_window. lia.
Qed.

Lemma nan_by_window_cells_are_window_counts_witness :
  let col := [NaN; float_of_nat 2; NaN; float_of_nat 3; float_of_nat 4; float_of_nat 5] in
  exists out o,
    nan_by_window EmptySetitemRaises (mkFrame 6 [col]) 2 = Ok out
    /\ nth_error (columns out) 0 = Some o
    /\ length o = 6
    /\ forall p, p < 6 ->
         nth p o NaN = NaN
         \/ (2 <= p + 1
             /\ count_missing (window (p + 1 - 2) 2 col) <= 2
             /\ exists q,
                  nth p o NaN = Num q
                  /\ (0 <= q)%Qc
                  /\ (q = 0%Qc <-> count_missing (window (p + 1 - 2) 2 col) = 0)
                  /\ within_rounding 5 q
                        (Qc_of_nat (count_missing (window (p + 1 - 2) 2 col)))
                        (Qc_of_nat (count_missing (window (p + 1 - 2) 2 col)))).
Proof.
  intros col.
  apply (nan_by_window_cells_are_window_counts EmptySetitemRaises (mkFrame 6 [col]) 2 0 col).
  - repeat constructor.
  - simpl. lia.
  - reflexivity.
Defined.

Lemma Num_inj (a b : Qc) : Num a = Num b -> a = b.
Proof. intros H. now injection H. Qed.

Lemma count_missing_zero (l : list cell) :
  count_missing l = 0 -> forall x, In x l -> isna x = false.
Proof.
  unfold count_missing. induction l as [|y l IH]; intros H x Hx; [contradiction|].
  simpl in H. destruct (isna y) eqn:E; [simpl in H; lia|].
  destruct Hx as [<-|Hx]; [exact E | now apply IH].
Qed.

Lemma nth_window {A : Type} (i w k : nat) (l : list A) (d : A) :
  k < w -> nth k (window i w l) d = nth (i + k) l d.
Proof.
  intros Hk. unfold window. rewrite nth_firstn.
  destruct (Nat.ltb_spec k w) as [_|H]; [|lia].
  apply nth_skipn.
Qed.

(** X2: a window that [nb_valid_windows] flags as valid in its boolean
    mode is a full window, and none of its rows holds a missing value. *)
Theorem valid_window_has_no_missing_value (pandas : empty_setitem)
        (df : DataFrame) (w j : nat) (col : list cell) :
  wf_frame df ->
  1 <= w <= nrows df ->
  nth_error (columns df) j = Some col ->
  exists m mc,
    nb_valid_windows pandas df (Z.of_nat w) None = Ok (Mask m)
    /\ nth_error (columns m) j = Some mc
    /\ forall p, p < nrows df -> nth p mc false = true ->
         w <= p + 1
         /\ forall i, p + 1 - w <= i <= p -> isna (nth i col NaN) = false.
Proof.
  intros Hwf Hw Hj. pose proof (wf_frame_column df j col Hwf Hj) as Hlen.
  unfold nb_valid_windows. rewrite nan_by_window_fits by assumption.
  cbn [bind nrows columns]. eexists. eexists. split; [reflexivity|].
  cbn [columns]. rewrite !nth_error_map, Hj. cbn [option_map].
  split; [reflexivity|].
  intros p Hp Htrue. rewrite <- Hlen in *.
  change false with (eq0 NaN) in Htrue. rewrite map_nth in Htrue.
  apply eq0_iff in Htrue.
  destruct (window_column_cell_cases w col p Hw Hp) as [H|[H1 H2]]; [congruence|].
  split; [exact H1|]. intros i Hi.
  rewrite H2 in Htrue. apply Num_inj, rounded_count_eq0 in Htrue; [|lia].
  rename Htrue into Hz.
  apply (count_missing_zero _ Hz).
  replace i with ((p + 1 - w) + (i - (p + 1 - w))) by lia.
  rewrite <- (nth_window (p + 1 - w) w) by lia.
  apply nth_In. rewrite length_window; lia.
Qed.

Lemma valid_window_has_no_missing_value_witness :
  let col := [NaN; float_of_nat 2; NaN; float_of_nat 3; float_of_nat 4; float_of_nat 5] in
  exists m mc,
    nb_valid_windows EmptySetitemRaises (mkFrame 6 [col]) 2 None = Ok (Mask m)
    /\ nth_error (columns m) 0 = Some mc
    /\ forall p, p < 6 -> nth p mc false = true ->
         2 <= p + 1
         /\ forall i, p + 1 - 2 <= i <= p -> isna (nth i col NaN) = false.
Proof.
  intros col.
  apply (valid_window_has_no_missing_value EmptySetitemRaises (mkFrame 6 [col]) 2 0 col).
  - repeat constructor.
  - simpl. lia.
  - reflexivity.
Defined.

(** X3: for a column with a non-missing value whose observed span holds
    at least one window, [nan_by_window] keeps a count exactly at the rows
    strictly after the [w]-th row of the span and strictly before its last
    row, or up to the last row when the span ends with the table; every
    other row gets the missing marker.  A kept count is 0 exactly when the
    window that ends at its row holds no missing value. *)
Theorem nan_by_window_kept_rows (pandas : empty_setitem) (df : DataFrame)
        (w j : nat) (col : list cell) :
  wf_frame df ->
  nth_error (columns df) j = Some col ->
  existsb notna col = true ->
  1 <= w <= length (observed_span col) ->
  exists out o,
    nan_by_window pandas df (Z.of_nat w) = Ok out
    /\ nth_error (columns out) j = Some o
    /\ forall p, p < nrows df ->
         isna (nth p o NaN) = negb (keeps_count w col p)
         /\ (keeps_count w col p = true ->
             (nth p o NaN = Num 0%Qc
              <-> count_missing (window (p + 1 - w) w col) = 0)).
Proof.
  intros Hwf Hj Hex Hw. pose proof (wf_frame_column df j col Hwf Hj) as Hlen.
  destruct (span_decomp_length _ _ _ _ (observed_span_decomp col Hex)) as [Hl _].
  eexists. exists (window_column w (nrows df) col).
  split; [apply nan_by_window_fits; try assumption; lia|].
  split; [cbn [columns]; now rewrite nth_error_map, Hj|].
  rewrite <- Hlen. intros p Hp. rewrite window_column_cells by assumption.
  destruct (keeps_count w col p); split; try reflexivity; [|discriminate].
  intros _. rewrite <- (rounded_count_eq0 w) by lia.
  split; [apply Num_inj | now intros ->].
Qed.

Lemma nan_by_window_kept_rows_witness :
  let col := [NaN; float_of_nat 2; NaN; float_of_nat 3; float_of_nat 4; NaN] in
  exists out o,
    nan_by_window EmptySetitemRaises (mkFrame 6 [col]) 2 = Ok out
    /\ nth_error (columns out) 0 = Some o
    /\ forall p, p < 6 ->
         isna (nth p o NaN) = negb (keeps_count 2 col p)
         /\ (keeps_count 2 col p = true ->
             (nth p o NaN = Num 0%Qc
              <-> count_missing (window (p + 1 - 2) 2 col) = 0)).
Proof.
  intros col.
  apply (nan_by_window_kept_rows EmptySetitemRaises (mkFrame 6 [col]) 2 0 col).
  - repeat constructor.
  - reflexivity.
  - reflexivity.
  - simpl. lia.
Defined.

(** ** A column without any observed value *)

Lemma nan_prefix_length_all (n : nat) : nan_prefix_length (repeat NaN n) = n.
Proof. induction n as [|n IH]; simpl; [reflexivity | now rewrite IH]. Qed.

Lemma run_cells_continued (n : nat) : run_cells true (repeat NaN n) = repeat NaN n.
Proof. induction n as [|n IH]; simpl; [reflexivity | now rewrite IH]. Qed.

Lemma count_missing_all (n : nat) : count_missing (repeat NaN n) = n.
Proof.
  unfold count_missing. rewrite filter_all_true, repeat_length; [reflexivity|].
  intros z Hz. apply In_repeat_eq in Hz. now subst.
Qed.

Lemma In_firstn_list {A : Type} (n : nat) (l : list A) (x : A) :
  In x (firstn n l) -> In x l.
Proof.
  revert l. induction n as [|n IH]; intros [|y l] H; simpl in H; try contradiction.
  destruct H as [<-|H]; [now left | right; now apply IH].
Qed.

Lemma In_skipn_list {A : Type} (n : nat) (l : list A) (x : A) :
  In x (skipn n l) -> In x l.
Proof.
  revert l. induction n as [|n IH]; intros [|y l] H; simpl in H;
    try contradiction; try exact H.
  right. now apply IH.
Qed.

Lemma find_contiguous_nan_column_all_nan (n : nat) :
  find_contiguous_nan_column (S n) (repeat NaN (S n))
  = float_of_nat (S n) :: repeat NaN n.
Proof.
  pose proof (find_contiguous_nan_column_span (repeat NaN (S n)) 0 0
                (repeat NaN (S n)) (valid_span_all_nan (S n))) as H.
  rewrite repeat_length, Nat.add_0_r in H. cbn [Nat.add] in H. rewrite H.
  cbn [repeat app run_cells isna negb andb].
  now rewrite app_nil_r, nan_prefix_length_all, run_cells_continued.
Qed.

Lemma pc_nan_column_all_nan (n : nat) :
  pc_nan_column (repeat NaN (S n)) = float_of_nat 100.
Proof.
  unfold pc_nan_column. rewrite valid_span_all_nan.
  rewrite values_labelled, length_labelled, count_true_isna, count_missing_all.
  rewrite repeat_length, percent_of_counts.
  unfold float_of_nat. f_equal. apply rounded_percentage_full. lia.
Qed.

Lemma window_all_nan (i w n : nat) :
  i + w <= n -> window i w (repeat NaN n) = repeat NaN w.
Proof.
  intros H. apply (nth_ext _ _ NaN NaN).
  - rewrite length_window, repeat_length by (rewrite repeat_length; lia). reflexivity.
  - rewrite length_window by (rewrite repeat_length; lia). intros k Hk.
    rewrite nth_window by exact Hk. rewrite !nth_repeat. reflexivity.
Qed.

Lemma window_column_all_nan (w n : nat) :
  1 <= w <= n ->
  window_column w n (repeat NaN n)
  = repeat NaN w ++ repeat (Num (rounded_count w (repeat NaN w))) (n - w).
Proof.
  intros Hw. set (col := repeat NaN n).
  assert (Hlc : length col = n) by apply repeat_length.
  apply (nth_ext _ _ NaN NaN).
  { rewrite length_window_column by lia.
    rewrite length_app, !repeat_length. lia. }
  rewrite length_window_column by lia.
  intros p Hp. rewrite Hlc in Hp.
  assert (Hsc : length (scaled_counts w col) = n)
    by (rewrite length_scaled_counts; lia).
  unfold window_column, mask_outside, col. rewrite valid_span_all_nan, index_labelled.
  rewrite repeat_length.
  replace (Z.of_nat w - 1)%Z with (Z.of_nat (w - 1)) by lia.
  rewrite py_index_seq by lia. cbn [bind].
  rewrite py_index_seq_last by lia. cbn [bind].
  assert (H0 : py_index (seq 0 n) 0 = Ok 0)
    by (apply (py_index_seq 0 n 0); lia).
  rewrite H0. cbn [bind].
  rewrite Nat.ltb_irrefl. cbn [except_IndexError]. fold col.
  rewrite nth_loc_assign_nan by lia.
  destruct (Nat.leb_spec 0 p) as [_|H]; [|lia]. cbn [andb].
  destruct (Nat.leb_spec p (0 + (w - 1))) as [Hle|Hgt].
  - rewrite app_nth1 by (rewrite repeat_length; lia). symmetry. apply nth_repeat.
  - rewrite app_nth2 by (rewrite repeat_length; lia).
    rewrite nth_repeat_lt by (rewrite repeat_length; lia).
    rewrite scaled_counts_cells by lia.
    rewrite app_nth2 by (rewrite repeat_length; lia). rewrite repeat_length.
    rewrite nth_map_seq by lia. unfold col.
    rewrite window_all_nan by lia. reflexivity.
Qed.

(** X4: a column of a non-empty table that holds no value at all is
    treated as a span that covers the whole column: [pc_nan] answers 100
    for it, [find_contiguous_nan] records a single run as long as the table
    at the first row, and [nan_by_window] answers the missing marker in the
    first [w] rows and, at every later row, one and the same positive
    number, the window length within w + 3 roundings. *)
Theorem all_missing_column_outputs (df : DataFrame) (j : nat) (col : list cell) :
  wf_frame df ->
  1 <= nrows df ->
  nth_error (columns df) j = Some col ->
  existsb notna col = false ->
  nth_error (pc_nan df) j = Some (float_of_nat 100)
  /\ nth_error (columns (find_contiguous_nan df)) j
     = Some (float_of_nat (nrows df) :: repeat NaN (nrows df - 1))
  /\ forall pandas w, 1 <= w <= nrows df ->
       exists out q,
         nan_by_window pandas df (Z.of_nat w) = Ok out
         /\ nth_error (columns out) j
            = Some (repeat NaN w ++ repeat (Num q) (nrows df - w))
         /\ (0 < q)%Qc
         /\ within_rounding (w + 3) q (Qc_of_nat w) (Qc_of_nat w).
Proof.
  intros Hwf Hn Hj Hex. pose proof (wf_frame_column df j col Hwf Hj) as Hlen.
  assert (Hcol : col = repeat NaN (nrows df))
    by (rewrite <- Hlen; now apply all_nan_repeat).
  destruct (nrows df) as [|n] eqn:En; [lia|]. subst col.
  split; [|split].
  - unfold pc_nan. rewrite nth_error_map, Hj. cbn [option_map].
    now rewrite pc_nan_column_all_nan.
  - unfold find_contiguous_nan. cbn [columns]. rewrite nth_error_map, Hj, En.
    cbn [option_map]. rewrite find_contiguous_nan_column_all_nan.
    now rewrite Nat.sub_1_r.
  - intros pandas w Hw. eexists. exists (rounded_count w (repeat NaN w)).
    split; [apply nan_by_window_fits; try assumption; lia|].
    cbn [columns]. rewrite nth_error_map, Hj, En. cbn [option_map].
    split; [now rewrite window_column_all_nan by lia|].
    pose proof (rounded_count_within w (repeat NaN w) ltac:(lia) (repeat_length _ _)) as Hr.
    rewrite count_missing_all in Hr. split; [|exact Hr].
    destruct (Qcle_lt_or_eq _ _ (rounded_count_nonneg w (repeat NaN w))) as [H|H];
      [exact H|].
    symmetry in H. apply rounded_count_eq0 in H; [|lia].
    rewrite count_missing_all in H. lia.
Qed.

Lemma all_missing_column_outputs_witness :
  let df := mkFrame 4 [[float_of_nat 1; NaN; NaN; float_of_nat 2]; [NaN; NaN; NaN; NaN]] in
  nth_error (pc_nan df) 1 = Some (float_of_nat 100)
  /\ nth_error (columns (find_contiguous_nan df)) 1
     = Some (float_of_nat 4 :: repeat NaN 3)
  /\ forall pandas w, 1 <= w <= 4 ->
       exists out q,
         nan_by_window pandas df (Z.of_nat w) = Ok out
         /\ nth_error (columns out) 1
            = Some (repeat NaN w ++ repeat (Num q) (4 - w))
         /\ (0 < q)%Qc
         /\ within_rounding (w + 3) q (Qc_of_nat w) (Qc_of_nat w).
Proof.
  intros df.
  apply (all_missing_column_outputs df 1 [NaN; NaN; NaN; NaN]).
  - repeat constructor.
  - simpl. lia.
  - reflexivity.
  - reflexivity.
Defined.

(** ** The recorded runs as an encoding *)

Lemma Qc_to_nat_of_nat (n : nat) : Qc_to_nat (Qc_of_nat n) = n.
Proof.
  unfold Qc_to_nat, Qc_of_nat, Qc_of_Z, Q2Qc. cbn [this].
  rewrite Qred_identity by (simpl; apply Z.gcd_1_r).
  simpl. apply Nat2Z.id.
Qed.

Lemma decode_runs_nan (a : nat) (out : list cell) :
  decode_runs 0 (repeat NaN a ++ out) = repeat false a ++ decode_runs 0 out.
Proof. induction a as [|a IH]; simpl; [reflexivity | now rewrite IH]. Qed.

Lemma decode_run_cells (vs post : list cell) (b : bool) :
  decode_runs (if b then nan_prefix_length vs else 0) (run_cells b vs ++ post)
  = map isna vs ++ decode_runs 0 post.
Proof.
  revert b. induction vs as [|[|q] vs IH]; intros b.
  - destruct b; reflexivity.
  - destruct b.
    + cbn [run_cells isna negb andb nan_prefix_length app map decode_runs].
      f_equal. apply (IH true).
    + cbn [run_cells isna negb andb app map decode_runs]. unfold float_of_nat.
      rewrite Qc_to_nat_of_nat. cbn [decode_runs]. f_equal.
      replace (S (nan_prefix_length vs) - 1) with (nan_prefix_length vs) by lia.
      apply (IH true).
  - cbn [run_cells isna negb andb nan_prefix_length app map].
    replace (if b then 0 else 0) with 0 by (now destruct b).
    cbn [decode_runs]. f_equal. apply (IH false).
Qed.

Lemma decode_runs_all_nan (c : nat) : decode_runs 0 (repeat NaN c) = repeat false c.
Proof. induction c as [|c IH]; simpl; [reflexivity | now rewrite IH]. Qed.

(** X5: the runs that [find_contiguous_nan] records for a column with a
    non-missing value encode the missing values of the ObservedSpan without
    loss: reading each recorded length [n] as [n] missing rows from its own
    row on gives back, row by row, whether the row is a missing value of the
    span. *)
Theorem recorded_runs_decode_to_missing_values (df : DataFrame) (j : nat)
        (col : list cell) :
  wf_frame df ->
  nth_error (columns df) j = Some col ->
  existsb notna col = true ->
  exists out,
    nth_error (columns (find_contiguous_nan df)) j = Some out
    /\ length (decode_runs 0 out) = nrows df
    /\ forall p, p < nrows df ->
         nth p (decode_runs 0 out) false
         = in_observed_span col p && isna (nth p col NaN).
Proof.
  intros Hwf Hj Hex. pose proof (wf_frame_column df j col Hwf Hj) as Hlen.
  exists (find_contiguous_nan_column (nrows df) col).
  unfold find_contiguous_nan. cbn [columns]. rewrite nth_error_map, Hj.
  split; [reflexivity|]. rewrite <- Hlen.
  pose proof (observed_span_decomp col Hex) as D.
  destruct (span_decomp_length _ _ _ _ D) as [Hl Hpos].
  unfold in_observed_span.
  set (a := span_start col) in *. set (vs := observed_span col) in *.
  set (c := nan_prefix_length (rev (drop_na col))) in *.
  rewrite Hl, (find_contiguous_nan_column_span col a c vs (valid_span_decomp _ _ _ _ D)).
  rewrite decode_runs_nan, (decode_run_cells vs (repeat NaN c) false), decode_runs_all_nan.
  split; [rewrite !length_app, !repeat_length, length_map; lia|].
  destruct D as (Hcol & _ & _).
  intros p Hp.
  destruct (Nat.leb_spec a p) as [Hap|Hap].
  2:{ rewrite app_nth1 by (rewrite repeat_length; lia). now rewrite nth_repeat. }
  rewrite app_nth2 by (rewrite repeat_length; lia). rewrite repeat_length.
  destruct (Nat.ltb_spec p (a + length vs)) as [Hpv|Hpv].
  - rewrite app_nth1 by (rewrite length_map; lia).
    change false with (isna (Num 0%Qc)) at 1. rewrite map_nth. cbn [andb].
    rewrite Hcol at 1. rewrite app_nth2 by (rewrite repeat_length; lia).
    rewrite repeat_length, app_nth1 by lia.
    apply f_equal. apply nth_indep. lia.
  - rewrite app_nth2 by (rewrite length_map; lia). now rewrite nth_repeat.
Qed.

Lemma recorded_runs_decode_to_missing_values_witness :
  exists out,
    nth_error (columns (find_contiguous_nan docstring_frame)) 0 = Some out
    /\ length (decode_runs 0 out) = 10
    /\ forall p, p < 10 ->
         nth p (decode_runs 0 out) false
         = in_observed_span docstring_c1 p && isna (nth p docstring_c1 NaN).
Proof.
  apply (recorded_runs_decode_to_missing_values docstring_frame 0 docstring_c1).
  - repeat constructor.
  - reflexivity.
  - reflexivity.
Defined.

(** X6: for a column with a non-missing value, the percentage of [pc_nan]
    is the one that its expression, the quotient by the length of the
    ObservedSpan times 100 in binary64 arithmetic, gives from the sum of the
    run lengths that [find_contiguous_nan] records for the column: the two
    functions count the same missing values. *)
Theorem pc_nan_from_recorded_runs (df : DataFrame) (j : nat) (col : list cell) :
  wf_frame df ->
  nth_error (columns df) j = Some col ->
  existsb notna col = true ->
  exists out,
    nth_error (columns (find_contiguous_nan df)) j = Some out
    /\ recorded_total out = Qc_of_nat (count_missing (observed_span col))
    /\ nth_error (pc_nan df) j
       = Some (fmul (fdiv (Num (recorded_total out))
                          (float_of_nat (length (observed_span col))))
                    (float_of_nat 100)).
Proof.
  intros Hwf Hj Hex. pose proof (wf_frame_column df j col Hwf Hj) as Hlen.
  exists (find_contiguous_nan_column (nrows df) col).
  unfold find_contiguous_nan, pc_nan. cbn [columns]. rewrite !nth_error_map, Hj.
  split; [reflexivity|]. cbn [option_map].
  rewrite <- Hlen, find_contiguous_nan_column_total by exact Hex.
  split; [reflexivity|]. f_equal.
  assert (Hne : observed_span col <> []).
  { destruct (observed_span_decomp col Hex) as (_ & (x & r & Hx & _) & _).
    rewrite Hx. discriminate. }
  rewrite pc_nan_column_spec by exact Hne.
  change (fdiv (Num (Qc_of_nat (count_missing (observed_span col))))
               (float_of_nat (length (observed_span col))))
    with (truediv_count (count_missing (observed_span col)) (length (observed_span col))).
  change (float_of_nat 100) with (Num (Qc_of_nat 100)).
  rewrite percent_of_counts.
  destruct (observed_span col); [congruence | reflexivity].
Qed.

Lemma pc_nan_from_recorded_runs_witness :
  exists out,
    nth_error (columns (find_contiguous_nan docstring_frame)) 1 = Some out
    /\ recorded_total out = Qc_of_nat (count_missing (observed_span docstring_c2))
    /\ nth_error (pc_nan docstring_frame) 1
       = Some (fmul (fdiv (Num (recorded_total out))
                          (float_of_nat (length (observed_span docstring_c2))))
                    (float_of_nat 100)).
Proof.
  apply (pc_nan_from_recorded_runs docstring_frame 1 docstring_c2).
  - repeat constructor.
  - reflexivity.
  - reflexivity.
Defined.

(** ** Moving averages over missing values *)






(** X8: with a window length between 1 and the length of the series,
    [rolling_mean_ts] labels its values with the index of the series from
    the w-th label on, each mean at the label of the last row of its window,
    and these values are the ones that [rolling_mean_df] puts, after w-1
    missing markers, in the column of a table that holds the same values. *)
Theorem rolling_mean_ts_agrees_with_rolling_mean_df (pandas : empty_setitem)
        (ts : Series) (w : nat) :
  1 <= w <= length ts ->
  exists out,
    rolling_mean_ts ts (Z.of_nat w) = Ok out
    /\ index out = skipn (w - 1) (index ts)
    /\ length out = length ts - w + 1
    /\ rolling_mean_df pandas (mkFrame (length ts) [values ts]) (Z.of_nat w)
       = Ok (mkFrame (length ts) [repeat NaN (w - 1) ++ values out]).
Proof.
  intros Hw.
  assert (Hlv : length (values ts) = length ts) by apply length_map.
  assert (Hli : length (index ts) = length ts) by apply length_map.
  eexists. split; [now apply rolling_mean_ts_window_fits|].
  assert (Hlen : length (skipn (w - 1) (index ts))
                 = length (map (fun i => rounded_mean w (window i w (values ts)))
                               (seq 0 (length ts - w + 1)))).
  { rewrite length_skipn, length_map, length_seq, Hli. lia. }
  destruct (values_combine _ _ Hlen) as [Hv Hi]. rewrite Hv, Hi.
  split; [reflexivity|]. split.
  { rewrite length_combine, Hlen, Nat.min_id, length_map, length_seq. lia. }
  rewrite rolling_mean_df_fits; [| | cbn [nrows]; lia].
  - cbn [nrows columns map]. now rewrite correlate_window, Hlv by lia.
  - constructor; [exact Hlv | constructor].
Qed.

Lemma rolling_mean_ts_agrees_with_rolling_mean_df_witness :
  let ts := [(10, float_of_nat 1); (20, NaN); (30, float_of_nat 3); (40, float_of_nat 5)] in
  exists out,
    rolling_mean_ts ts 2 = Ok out
    /\ index out = [20; 30; 40]
    /\ length out = 3
    /\ rolling_mean_df EmptySetitemRaises (mkFrame 4 [values ts]) 2
       = Ok (mkFrame 4 [repeat NaN 1 ++ values out]).
Proof.
  intros ts.
  apply (rolling_mean_ts_agrees_with_rolling_mean_df EmptySetitemRaises ts 2).
  simpl. lia.
Defined.

(** ** Errors that escape *)

Lemma rolling_mean_ts_raises (ts : Series) (w : Z) (e : exn) :
  rolling_mean_ts ts w = Raise e ->
  e = ValueError \/ (e = ZeroDivisionError /\ w = 0%Z).
Proof.
  unfold rolling_mean_ts, np_ones.
  destruct (Z.ltb_spec w 0) as [Hneg|Hpos]; cbn [bind]; [left; congruence|].
  rewrite repeat_length.
  destruct (Z.to_nat w) as [|k] eqn:Ek; cbn [py_inv bind].
  - intros H. right. split; [congruence | lia].
  - destruct (np_convolve_valid _ _) as [ctmp|e'] eqn:Ec; cbn [bind].
    + unfold set_all. destruct (_ =? _); [discriminate | left; congruence].
    + intros H. injection H as <-. left. now apply np_convolve_valid_raises in Ec.
Qed.

(** X9: the only exception that [rolling_mean_df], [nan_by_window] and
    [nb_valid_windows] let escape is a ValueError: the IndexError of a column
    whose span is shorter than the window is always caught.
    [rolling_mean_ts] raises a ValueError too, or a ZeroDivisionError, and
    the latter only for a window length of 0. *)
Theorem escaping_errors (pandas : empty_setitem) (df : DataFrame) (ts : Series)
        (w w' : Z) (m : option string) (e e' : exn) :
  rolling_mean_df pandas df w = Raise e
  \/ nan_by_window pandas df w = Raise e
  \/ nb_valid_windows pandas df w m = Raise e ->
  rolling_mean_ts ts w' = Raise e' ->
  e = ValueError /\ (e' = ValueError \/ (e' = ZeroDivisionError /\ w' = 0%Z)).
Proof.
  intros H Hts. split; [|now apply (rolling_mean_ts_raises ts)].
  destruct H as [H|[H|H]].
  - now apply rolling_mean_df_raises in H.
  - now apply nan_by_window_raises in H.
  - unfold nb_valid_windows in H.
    destruct (nan_by_window pandas df w) as [npf|e0] eqn:E; cbn [bind] in H.
    + destruct m as [s|]; [|discriminate].
      destruct (String.eqb s "pc"); [discriminate | congruence].
    + injection H as <-. now apply nan_by_window_raises in E.
Qed.

Lemma escaping_errors_witness :
  nb_valid_windows EmptySetitemRaises (mkFrame 1 [[NaN]]) 1 (Some "mean"%string)
  = Raise ValueError
  /\ rolling_mean_ts [(0, NaN)] 0 = Raise ZeroDivisionError
  /\ ValueError = ValueError
  /\ (ZeroDivisionError = ValueError
      \/ (ZeroDivisionError = ZeroDivisionError /\ 0%Z = 0%Z)).
Proof.
  split; [reflexivity|]. split; [reflexivity|].
  apply (escaping_errors EmptySetitemRaises (mkFrame 1 [[NaN]]) [(0, NaN)]
                         1 0 (Some "mean"%string) ValueError ZeroDivisionError).
  - right. right. reflexivity.
  - reflexivity.
Defined.

(** ** Percentages of valid windows *)

(** X10: every percentage that [nb_valid_windows] returns in its
    percentage mode is the missing marker (no window of the column could
    be evaluated) or a number between 0 and 100. *)
Theorem valid_percentage_between_0_and_100 (pandas : empty_setitem)
        (df : DataFrame) (w : Z) (p : list cell) (c : cell) :
  nb_valid_windows pandas df w (Some "pc"%string) = Ok (Percent p) ->
  In c p ->
  c = NaN \/ exists q, c = Num q /\ (0 <= q)%Qc /\ (q <= Qc_of_nat 100)%Qc.
Proof.
  unfold nb_valid_windows. intros H Hc.
  destruct (nan_by_window pandas df w) as [npf|e]; cbn [bind] in H; [|discriminate].
  simpl String.eqb in H. cbv iota in H. injection H as <-.
  apply in_map_iff in Hc as (col & <- & _).
  rewrite count_true_eq0, count_true_ge0, percent_of_counts.
  pose proof (zero_le_evaluated col) as Hle.
  destruct (evaluated_windows col) as [|k] eqn:E; [now left|].
  right. eexists. split; [reflexivity|].
  apply rounded_percentage_range; lia.
Qed.

Lemma valid_percentage_between_0_and_100_witness :
  let n (k : nat) := float_of_nat k in
  let df := mkFrame 6 [[NaN; n 2; NaN; n 3; n 4; n 5]] in
  let c := Num (rounded_percentage 2 3) in
  nb_valid_windows EmptySetitemRaises df 2 (Some "pc"%string) = Ok (Percent [c])
  /\ (c = NaN \/ exists q, c = Num q /\ (0 <= q)%Qc /\ (q <= Qc_of_nat 100)%Qc).
Proof.
  intros n df c.
  assert (H : nan_by_window EmptySetitemRaises df 2
              = Ok (mkFrame 6 [[NaN; NaN; NaN; n 1; n 0; n 0]]))
    by (apply returns_frame_eq; vm_compute; reflexivity).
  assert (E : nb_valid_windows EmptySetitemRaises df 2 (Some "pc"%string)
              = Ok (Percent [c])).
  { unfold nb_valid_windows. rewrite H. cbn [bind]. simpl String.eqb. cbv iota.
    set (col := [NaN; NaN; NaN; n 1; n 0; n 0]).
    change (Ok (Percent [fmul (truediv_count (count_true (map eq0 col))
                                             (count_true (map ge0 col)))
                              (Num (Qc_of_nat 100))])
            = Ok (Percent [c])).
    rewrite count_true_eq0, count_true_ge0, percent_of_counts.
    reflexivity. }
  split; [exact E|].
  apply (valid_percentage_between_0_and_100 EmptySetitemRaises df 2 [c] c E).
  now left.
Defined.

(** ** Shape of the results *)

Lemma length_set_at (i : nat) (v : cell) (l : list cell) :
  length (set_at i v l) = length l.
Proof.
  revert i. induction l as [|x l IH]; intros [|i]; simpl; auto.
Qed.

Lemma length_scatter (kv : list (nat * cell)) (out : list cell) :
  length (scatter kv out) = length out.
Proof.
  unfold scatter. revert out. induction kv as [|p kv IH]; intros out; [reflexivity|].
  simpl. now rewrite IH, length_set_at.
Qed.

Lemma mapM_length {A B : Type} (f : A -> result B) (l : list A) (ys : list B) :
  mapM f l = Ok ys -> length ys = length l.
Proof.
  revert ys. induction l as [|x l IH]; intros ys H; simpl in H.
  - now injection H as <-.
  - destruct (f x) as [y|e]; cbn [bind] in H; [|discriminate].
    destruct (mapM f l) as [ys'|e]; cbn [bind] in H; [|discriminate].
    injection H as <-. simpl. f_equal. now apply IH.
Qed.

Lemma mapM_Forall {A B : Type} (f : A -> result B) (P : B -> Prop)
      (l : list A) (ys : list B) :
  (forall x y, In x l -> f x = Ok y -> P y) -> mapM f l = Ok ys -> Forall P ys.
Proof.
  revert ys. induction l as [|x l IH]; intros ys Hf H; simpl in H.
  - injection H as <-. constructor.
  - destruct (f x) as [y|e] eqn:E; cbn [bind] in H; [|discriminate].
    destruct (mapM f l) as [ys'|e]; cbn [bind] in H; [|discriminate].
    injection H as <-. constructor.
    + apply (Hf x); [now left | exact E].
    + apply IH; [|reflexivity]. intros x' y' Hx. apply Hf. now right.
Qed.

Lemma Forall_map2 {A B C : Type} (f : A -> B -> C) (P : C -> Prop)
      (l : list A) (m : list B) :
  (forall x y, In y m -> P (f x y)) -> Forall P (map2 f l m).
Proof.
  revert m. induction l as [|x l IH]; intros [|y m] H; simpl; constructor.
  - apply H. now left.
  - apply IH. intros x' y' Hy. apply H. now right.
Qed.

Lemma apply_columns_width (f : list cell -> result (list cell)) (df block : DataFrame) :
  apply_columns f df = Ok block -> length (columns block) = length (columns df).
Proof.
  unfold apply_columns. destruct (_ || _).
  - now intros [= <-].
  - destruct (mapM f (columns df)) as [cs|e] eqn:E; cbn [bind]; [|discriminate].
    intros [= <-]. cbn [columns]. now apply mapM_length in E.
Qed.

Lemma rolling_mean_df_shape (pandas : empty_setitem) (df out : DataFrame) (w : Z) :
  rolling_mean_df pandas df w = Ok out ->
  nrows out = nrows df
  /\ length (columns out) = length (columns df)
  /\ wf_frame out.
Proof.
  unfold rolling_mean_df.
  destruct (np_ones w) as [ones|e]; cbn [bind]; [|discriminate].
  destruct (apply_columns _ df) as [block|e] eqn:E; cbn [bind]; [|discriminate].
  apply apply_columns_width in E.
  set (blank := mkFrame (nrows df) (map (fun _ => repeat NaN (nrows df)) (columns df))).
  assert (Hblank : Forall (fun c => length c = nrows df) (columns blank)).
  { cbn [columns blank]. apply Forall_map, Forall_forall. intros c _. apply repeat_length. }
  unfold loc_set_rows. destruct (_ =? _).
  { intros [= <-]. split; [reflexivity|]. split; [apply length_map | exact Hblank]. }
  destruct (_ =? _).
  - intros [= <-]. cbn [nrows columns]. split; [reflexivity|]. split.
    + rewrite length_map2, E, length_map. apply Nat.min_id.
    + unfold wf_frame. cbn [nrows columns]. apply Forall_map2.
      intros x y Hy. rewrite length_scatter.
      rewrite Forall_forall in Hblank. now apply Hblank.
  - destruct (py_slice_from _ _); [destruct pandas|]; try discriminate.
    intros [= <-]. split; [reflexivity|]. split; [apply length_map | exact Hblank].
Qed.

(** X11: whenever [nan_by_window] returns, its table has the rows and the
    columns of the input table, one cell per row in every column; and so
    has the boolean table of [nb_valid_windows]. *)
Theorem nan_by_window_keeps_shape (pandas : empty_setitem) (df out : DataFrame)
        (w : Z) :
  nan_by_window pandas df w = Ok out ->
  (nrows out = nrows df
   /\ length (columns out) = length (columns df)
   /\ wf_frame out)
  /\ exists m,
       nb_valid_windows pandas df w None = Ok (Mask m)
       /\ nrows m = nrows df
       /\ length (columns m) = length (columns df)
       /\ wf_frame m.
Proof.
  intros H.
  assert (Hshape : nrows out = nrows df
                   /\ length (columns out) = length (columns df)
                   /\ wf_frame out).
  { unfold nan_by_window in H.
    destruct (rolling_mean_df pandas (frame_isna df) w) as [o|e] eqn:E;
      cbn [bind] in H; [|discriminate].
    apply rolling_mean_df_shape in E. destruct E as (Hn & Hc & Hwf).
    cbn [frame_isna nrows columns] in Hn, Hc. rewrite length_map in Hc.
    destruct (mapM _ _) as [cols|e] eqn:Em; cbn [bind] in H; [|discriminate].
    injection H as <-. cbn [nrows columns frame_scale].
    split; [exact Hn|]. split.
    - apply mapM_length in Em. rewrite Em, length_combine.
      cbn [frame_scale columns]. rewrite length_map, Hc. apply Nat.min_id.
    - unfold wf_frame. cbn [nrows columns]. revert Em. apply mapM_Forall.
      intros [c o'] y Hin Hy. cbn [fst snd] in Hy.
      destruct (mask_outside_total w (frame_index (frame_scale w o)) c o')
        as (y' & Hy' & Hlen).
      rewrite Hy in Hy'. injection Hy' as <-. rewrite Hlen.
      apply in_combine_r in Hin. cbn [frame_scale columns] in Hin.
      apply in_map_iff in Hin as (c0 & <- & Hc0). rewrite length_map.
      unfold wf_frame in Hwf. rewrite Forall_forall in Hwf.
      now apply Hwf. }
  split; [exact Hshape|]. destruct Hshape as (Hn & Hc & Hwf).
  unfold nb_valid_windows. rewrite H. cbn [bind].
  eexists. split; [reflexivity|]. cbn [nrows columns].
  split; [exact Hn|]. split; [now rewrite length_map|].
  unfold wf_frame in *. cbn [nrows columns]. apply Forall_map.
  revert Hwf. apply Forall_impl. intros c Hl. now rewrite length_map.
Qed.

Lemma nan_by_window_keeps_shape_witness :
  let df := mkFrame 3 [[NaN; float_of_nat 1; float_of_nat 2]; [NaN; NaN; NaN]] in
  let out := mkFrame 3 [[NaN; NaN; NaN]; [NaN; NaN; float_of_nat 2]] in
  nan_by_window EmptySetitemRaises df 2 = Ok out
  /\ (nrows out = nrows df
      /\ length (columns out) = length (columns df)
      /\ wf_frame out)
  /\ (exists m,
        nb_valid_windows EmptySetitemRaises df 2 None = Ok (Mask m)
        /\ nrows m = nrows df
        /\ length (columns m) = length (columns df)
        /\ wf_frame m)
  /\ nan_by_window EmptySetitemRaises (mkFrame 3 []) 2 = Ok (mkFrame 3 []).
Proof.
  intros df out.
  assert (H : nan_by_window EmptySetitemRaises df 2 = Ok out)
    by (apply returns_frame_eq; vm_compute; reflexivity).
  split; [exact H|].
  destruct (nan_by_window_keeps_shape EmptySetitemRaises df out 2 H) as [H1 H2].
  split; [exact H1|]. split; [exact H2 | reflexivity].
Defined.

(** ** A span without missing value *)

Lemma count_missing_none (l : list cell) :
  (forall x, In x l -> isna x = false) -> count_missing l = 0.
Proof. intros H. unfold count_missing. now rewrite filter_all_false. Qed.

Lemma count_missing_window_in_span (col vs : list cell) (a c i w : nat) :
  col = repeat NaN a ++ vs ++ repeat NaN c ->
  count_missing vs = 0 ->
  a <= i -> i + w <= a + length vs ->
  count_missing (window i w col) = 0.
Proof.
  intros Hcol Hvs Hai Hiw. apply count_missing_none. intros z Hz.
  assert (Hlw : length (window i w col) = w).
  { apply length_window. rewrite Hcol, !length_app, repeat_length. lia. }
  apply (In_nth _ _ NaN) in Hz as (k & Hk & <-). rewrite Hlw in Hk.
  rewrite nth_window by exact Hk.
  rewrite Hcol, app_nth2 by (rewrite repeat_length; lia).
  rewrite repeat_length, app_nth1 by lia.
  apply (count_missing_zero vs Hvs), nth_In. lia.
Qed.

Lemma windows_of_zeros (kept : nat -> bool) (l : list nat) :
  zero_windows (map (fun r => if kept r then float_of_nat 0 else NaN) l)
  = length (filter kept l)
  /\ evaluated_windows (map (fun r => if kept r then float_of_nat 0 else NaN) l)
     = length (filter kept l).
Proof.
  unfold zero_windows, evaluated_windows.
  induction l as [|r l [IH1 IH2]]; [split; reflexivity|].
  cbn [map filter]. destruct (kept r).
  - change (cell_eqb (Num 0%Qc) (float_of_nat 0)) with true.
    change (match float_of_nat 0 with NaN => false | Num q => Qle_bool 0 q end)
      with true.
    cbn [length]. now rewrite IH1, IH2.
  - cbn [cell_eqb]. split; assumption.
Qed.

Lemma filter_existsb {A : Type} (f : A -> bool) (l : list A) :
  length (filter f l) = 0 <-> existsb f l = false.
Proof.
  induction l as [|x l IH]; [split; reflexivity|].
  cbn [filter existsb]. destruct (f x); cbn [length orb]; [split; discriminate | exact IH].
Qed.

(** X12: for a column with a non-missing value and no missing value
    inside its ObservedSpan, and a window length between 1 and the number of
    rows, every count that [nan_by_window] keeps is 0, and the percentage of
    valid windows that [nb_valid_windows] returns for the column is 100 as
    soon as one count is kept, and the missing marker when none is. *)
Theorem fully_observed_span_is_fully_valid (pandas : empty_setitem)
        (df : DataFrame) (w j : nat) (col : list cell) :
  wf_frame df ->
  1 <= w <= nrows df ->
  nth_error (columns df) j = Some col ->
  existsb notna col = true ->
  count_missing (observed_span col) = 0 ->
  let kept r := (w <=? length (observed_span col)) && keeps_count w col r in
  exists out o p c,
    nan_by_window pandas df (Z.of_nat w) = Ok out
    /\ nth_error (columns out) j = Some o
    /\ (forall r, r < nrows df ->
          nth r o NaN = if kept r then float_of_nat 0 else NaN)
    /\ nb_valid_windows pandas df (Z.of_nat w) (Some "pc"%string) = Ok (Percent p)
    /\ nth_error p j = Some c
    /\ c = if existsb kept (seq 0 (nrows df)) then float_of_nat 100 else NaN.
Proof.
  intros Hwf Hw Hj Hex Hfull kept.
  pose proof (wf_frame_column df j col Hwf Hj) as Hlen.
  pose proof (nan_by_window_fits pandas df w Hwf Hw) as Hnbw.
  set (o := window_column w (nrows df) col).
  assert (Hcells : forall r, r < nrows df ->
             nth r o NaN = if kept r then float_of_nat 0 else NaN).
  { intros r Hr. unfold o, kept. rewrite <- Hlen in *.
    destruct (Nat.leb_spec w (length (observed_span col))) as [Hlong|Hshort];
      cbn [andb].
    - rewrite window_column_cells by (try assumption; lia).
      destruct (keeps_count w col r) eqn:Ek; [|reflexivity].
      pose proof (observed_span_decomp col Hex) as D.
      destruct (span_decomp_length _ _ _ _ D) as [Hl _].
      destruct D as (Hcol & _ & _). unfold keeps_count in Ek.
      apply andb_true_iff in Ek as [E1 E2]. apply Nat.ltb_lt in E1.
      unfold float_of_nat. rewrite Qc_of_nat_0. f_equal.
      apply rounded_count_eq0; [lia|].
      apply (count_missing_window_in_span col (observed_span col) (span_start col) _
               _ w Hcol Hfull); [lia|].
      apply orb_true_iff in E2 as [E2|E2].
      + apply Nat.ltb_lt in E2. lia.
      + apply Nat.eqb_eq in E2. lia.
    - rewrite window_column_short_span by assumption. apply nth_repeat. }
  assert (Hlo : length o = nrows df).
  { unfold o. rewrite <- Hlen. apply length_window_column. lia. }
  assert (Ho : o = map (fun r => if kept r then float_of_nat 0 else NaN)
                       (seq 0 (nrows df))).
  { apply (nth_ext _ _ NaN NaN); [now rewrite length_map, length_seq|].
    intros r Hr. rewrite Hlo in Hr. rewrite nth_map_seq by exact Hr.
    now apply Hcells. }
  destruct (windows_of_zeros kept (seq 0 (nrows df))) as [Hz He].
  rewrite <- Ho in Hz, He.
  eexists. exists o. eexists. eexists.
  split; [exact Hnbw|].
  split; [cbn [columns]; now rewrite nth_error_map, Hj|].
  split; [exact Hcells|].
  split; [unfold nb_valid_windows; rewrite Hnbw; reflexivity|].
  split.
  { cbn [columns]. rewrite !nth_error_map, Hj. cbn [option_map]. reflexivity. }
  fold o. rewrite count_true_eq0, count_true_ge0, percent_of_counts, Hz, He.
  destruct (length (filter kept (seq 0 (nrows df)))) as [|k] eqn:Ek.
  - apply filter_existsb in Ek. now rewrite Ek.
  - destruct (existsb kept (seq 0 (nrows df))) eqn:Ee.
    + unfold float_of_nat. f_equal. apply rounded_percentage_full. lia.
    + apply filter_existsb in Ee. lia.
Qed.

Lemma fully_observed_span_is_fully_valid_witness :
  let n (k : nat) := float_of_nat k in
  let col := [NaN; n 7; n 8; n 9; n 6] in
  exists out o p c,
    nan_by_window EmptySetitemRaises (mkFrame 5 [col]) 2 = Ok out
    /\ nth_error (columns out) 0 = Some o
    /\ (forall r, r < 5 ->
          nth r o NaN = if (2 <=? length (observed_span col)) && keeps_count 2 col r
                        then float_of_nat 0 else NaN)
    /\ nb_valid_windows EmptySetitemRaises (mkFrame 5 [col]) 2 (Some "pc"%string)
       = Ok (Percent p)
    /\ nth_error p 0 = Some c
    /\ c = float_of_nat 100.
Proof.
  intros n col.
  apply (fully_observed_span_is_fully_valid EmptySetitemRaises (mkFrame 5 [col]) 2 0 col).
  - repeat constructor.
  - simpl. lia.
  - reflexivity.
  - reflexivity.
  - reflexivity.
Defined.

(** ** A table without rows *)

Lemma py_index_nil {A : Type} (i : Z) : py_index (@nil A) i = Raise IndexError.
Proof.
  unfold py_index. cbn [length Z.of_nat].
  destruct (i <? 0)%Z;
    match goal with
    | |- context [((0 <=? ?k) && (?k <? 0))%Z] =>
        destruct (Z.leb_spec 0 k), (Z.ltb_spec k 0); try lia; reflexivity
    end.
Qed.

Lemma py_slice_from_nil {A : Type} (i : Z) : py_slice_from i (@nil A) = [].
Proof. unfold py_slice_from. apply skipn_nil. Qed.

Lemma columns_without_rows (df : DataFrame) :
  wf_frame df -> nrows df = 0 -> columns df = map (fun _ => []) (columns df).
Proof.
  unfold wf_frame. intros Hwf Hn. rewrite Hn in Hwf.
  induction Hwf as [|c cs Hc _ IH]; [reflexivity|].
  simpl. rewrite <- IH. f_equal. now apply length_zero_iff_nil.
Qed.

Lemma map2_map_r {A B C : Type} (h : A -> B -> C) (g : A -> B) (l : list A) :
  map2 h l (map g l) = map (fun x => h x (g x)) l.
Proof. induction l as [|x l IH]; simpl; [reflexivity | now rewrite IH]. Qed.

Lemma rolling_mean_df_without_rows (pandas : empty_setitem) (df : DataFrame) (w : nat) :
  nrows df = 0 ->
  rolling_mean_df pandas df (Z.of_nat w)
  = Ok (mkFrame 0 (map (fun _ => []) (columns df))).
Proof.
  intros Hn. unfold rolling_mean_df. rewrite np_ones_nat. cbn [bind].
  unfold apply_columns. rewrite Hn. cbn [Nat.eqb orb bind].
  unfold loc_set_rows, frame_index. cbn [nrows columns]. rewrite Hn.
  cbn [seq]. rewrite py_slice_from_nil. cbn [length Nat.eqb repeat].
  destruct (_ =? 0); [reflexivity|].
  rewrite map2_map_r. reflexivity.
Qed.

Lemma mask_outside_without_rows (w : Z) (idx : list nat) (out : list cell) :
  mask_outside w idx [] out = Ok (repeat NaN (length out)).
Proof.
  unfold mask_outside.
  change (index (valid_span (column_series []))) with (@nil nat).
  now rewrite py_index_nil.
Qed.

(** X13: on a table without rows, and for every window length that is
    not negative, [nan_by_window] returns the table as it is, without
    raising; [find_contiguous_nan] returns it too, [pc_nan] answers the
    missing marker for every column, and [rolling_mean_ts] raises ValueError
    on the empty series for every window length from 1 on. *)
Theorem table_without_rows (pandas : empty_setitem) (df : DataFrame) (w : nat) :
  wf_frame df ->
  nrows df = 0 ->
  nan_by_window pandas df (Z.of_nat w) = Ok df
  /\ find_contiguous_nan df = df
  /\ pc_nan df = map (fun _ => NaN) (columns df)
  /\ (1 <= w -> rolling_mean_ts [] (Z.of_nat w) = Raise ValueError).
Proof.
  intros Hwf Hn. pose proof (columns_without_rows df Hwf Hn) as Hcols.
  assert (Hdf : df = mkFrame 0 (map (fun _ => []) (columns df))).
  { destruct df as [n cols]. cbn [nrows columns] in *. now rewrite <- Hcols, Hn. }
  split; [|split; [|split]].
  - unfold nan_by_window.
    rewrite rolling_mean_df_without_rows by exact Hn.
    cbn [bind frame_scale frame_isna nrows columns]. rewrite !map_map.
    rewrite (mapM_combine_map (fun c o => mask_outside (Z.of_nat w) _ c o) _).
    rewrite (mapM_ok _ (fun _ : list cell => @nil cell)).
    + cbn [bind]. now rewrite Hdf at 2.
    + intros c Hc. rewrite Hcols in Hc. apply in_map_iff in Hc as (c' & <- & _).
      apply mask_outside_without_rows.
  - rewrite Hdf at 2. unfold find_contiguous_nan. rewrite Hn. f_equal.
    apply map_ext_in. intros c Hc.
    rewrite Hcols in Hc. apply in_map_iff in Hc as (c' & <- & _). reflexivity.
  - unfold pc_nan. apply map_ext_in. intros c Hc.
    rewrite Hcols in Hc. apply in_map_iff in Hc as (c' & <- & _). reflexivity.
  - intros Hw. apply rolling_mean_ts_too_long. simpl. lia.
Qed.

Lemma table_without_rows_witness :
  let df := mkFrame 0 [[]; []] in
  nan_by_window EmptySetitemRaises df 3 = Ok df
  /\ find_contiguous_nan df = df
  /\ pc_nan df = [NaN; NaN]
  /\ (1 <= 3 -> rolling_mean_ts [] 3 = Raise ValueError).
Proof.
  intros df.
  apply (table_without_rows EmptySetitemRaises df 3).
  - repeat constructor.
  - reflexivity.
Defined.

(** ** Columns without any valid window, columns without any gap *)

Lemma evaluated_windows_all_nan (n : nat) : evaluated_windows (repeat NaN n) = 0.
Proof.
  unfold evaluated_windows. rewrite filter_all_false; [reflexivity|].
  intros z Hz. apply In_repeat_eq in Hz. now subst.
Qed.

(** X14: a column that has a non-missing value but an ObservedSpan
    shorter than the window has no valid window: [nb_valid_windows] returns
    False at every row of it in the boolean mode and the missing marker as
    its percentage. *)
Theorem short_span_has_no_valid_window (pandas : empty_setitem) (df : DataFrame)
        (w j : nat) (col : list cell) :
  wf_frame df ->
  1 <= w <= nrows df ->
  nth_error (columns df) j = Some col ->
  existsb notna col = true ->
  length (observed_span col) < w ->
  exists m p,
    nb_valid_windows pandas df (Z.of_nat w) None = Ok (Mask m)
    /\ nth_error (columns m) j = Some (repeat false (nrows df))
    /\ nb_valid_windows pandas df (Z.of_nat w) (Some "pc"%string) = Ok (Percent p)
    /\ nth_error p j = Some NaN.
Proof.
  intros Hwf Hw Hj Hex Hshort. pose proof (wf_frame_column df j col Hwf Hj) as Hlen.
  assert (Hne : columns df <> []).
  { intros E. rewrite E in Hj. destruct j; discriminate. }
  pose proof (nan_by_window_fits pandas df w Hwf Hw) as Hnbw.
  assert (Ho : window_column w (nrows df) col = repeat NaN (nrows df)).
  { rewrite window_column_short_span by assumption.
    rewrite length_scaled_counts by lia. now rewrite Hlen. }
  unfold nb_valid_windows. rewrite Hnbw. cbn [bind].
  eexists. eexists. split; [reflexivity|]. cbn [columns].
  split.
  { rewrite !nth_error_map, Hj. cbn [option_map]. rewrite Ho.
    now rewrite map_repeat. }
  simpl String.eqb. cbv iota. split; [reflexivity|].
  rewrite !nth_error_map, Hj. cbn [option_map]. rewrite Ho.
  rewrite count_true_eq0, count_true_ge0, percent_of_counts.
  now rewrite evaluated_windows_all_nan.
Qed.

Lemma short_span_has_no_valid_window_witness :
  let short := [NaN; float_of_nat 7; NaN; NaN] in
  let df := mkFrame 4 [[float_of_nat 1; NaN; float_of_nat 2; float_of_nat 3]; short] in
  exists m p,
    nb_valid_windows EmptySetitemRaises df 2 None = Ok (Mask m)
    /\ nth_error (columns m) 1 = Some (repeat false 4)
    /\ nb_valid_windows EmptySetitemRaises df 2 (Some "pc"%string) = Ok (Percent p)
    /\ nth_error p 1 = Some NaN.
Proof.
  intros short df.
  apply (short_span_has_no_valid_window EmptySetitemRaises df 2 1 short).
  - repeat constructor.
  - simpl. lia.
  - reflexivity.
  - reflexivity.
  - simpl. lia.
Defined.

Lemma run_cells_no_gap (vs : list cell) (b : bool) :
  count_missing vs = 0 -> run_cells b vs = repeat NaN (length vs).
Proof.
  revert b. induction vs as [|x vs IH]; intros b H; [reflexivity|].
  assert (Hx : isna x = false) by (apply (count_missing_zero _ H); now left).
  assert (Hvs : count_missing vs = 0).
  { unfold count_missing in *. simpl in H. now rewrite Hx in H. }
  cbn [run_cells length repeat]. rewrite Hx. cbn [andb]. f_equal. now apply IH.
Qed.

(** X15: for a column with a non-missing value, [find_contiguous_nan]
    returns a column made of missing markers only, one that [dropna]
    empties, exactly when the ObservedSpan of the column has no missing
    value. *)
Theorem no_recorded_run_iff_no_gap (df : DataFrame) (j : nat) (col : list cell) :
  wf_frame df ->
  nth_error (columns df) j = Some col ->
  existsb notna col = true ->
  exists out,
    nth_error (columns (find_contiguous_nan df)) j = Some out
    /\ (out = repeat NaN (nrows df) <-> count_missing (observed_span col) = 0).
Proof.
  intros Hwf Hj Hex. pose proof (wf_frame_column df j col Hwf Hj) as Hlen.
  exists (find_contiguous_nan_column (nrows df) col).
  unfold find_contiguous_nan. cbn [columns]. rewrite nth_error_map, Hj.
  split; [reflexivity|]. rewrite <- Hlen. split.
  - intros Hout. apply Qc_of_nat_eq0.
    rewrite <- (find_contiguous_nan_column_total col Hex), Hout.
    apply recorded_total_nan.
  - intros Hgap. pose proof (observed_span_decomp col Hex) as D.
    destruct (span_decomp_length _ _ _ _ D) as [Hl _].
    rewrite Hl at 1.
    rewrite (find_contiguous_nan_column_span col _ _ _ (valid_span_decomp _ _ _ _ D)).
    rewrite run_cells_no_gap by exact Hgap.
    rewrite <- !repeat_app. f_equal. lia.
Qed.

Lemma no_recorded_run_iff_no_gap_witness :
  let col := [NaN; float_of_nat 7; float_of_nat 8; NaN] in
  exists out,
    nth_error (columns (find_contiguous_nan (mkFrame 4 [col]))) 0 = Some out
    /\ (out = repeat NaN 4 <-> count_missing (observed_span col) = 0).
Proof.
  intros col.
  apply (no_recorded_run_iff_no_gap (mkFrame 4 [col]) 0 col).
  - repeat constructor.
  - reflexivity.
  - reflexivity.
Defined.
